(** * The Link game: connection engine and board generator

    A shallow embedding of the tile-matching core of the platform
    (class [LinkGameAlgorithm] and the grid generation of class [LinkGame]),
    followed by the properties of the specification that are checked
    against it.

    Cells are JavaScript objects that are shared between the grid, the lists
    returned by [getVisibleCells] and the pairs of the solvability simulation.
    They live in a store ([Heap]) and a grid holds references ([loc]) to them,
    so that [cell1 === cell2], in-place writes such as [cell.matched = true]
    and the deep copy of [createGridCopy] mean what they mean in the source. *)

From Stdlib Require Import ZArith QArith Qround Lia Lqa Permutation.
From stdpp Require Import base numbers option list strings.

Open Scope Z_scope.

(** ** Data model *)

(** A pattern, as built by [generatePatterns]; only [id] matters to the
    algorithm. *)
Record Pattern := mkPattern {
  id : Z;
  color : string;
  shape : string;
  name : string
}.

(** A grid cell, as built by [initializeGrid]. [cell_x] and [cell_y] are the
    pixel coordinates [x] and [y] of the cell on the canvas. *)
Record Cell := mkCell {
  cell_row : Z;
  cell_col : Z;
  pattern : option Pattern;
  visible : bool;
  matched : bool;
  cell_x : Q;
  cell_y : Q
}.

(** Field writes [cell.pattern = p], [cell.visible = v], [cell.matched = m]. *)
Definition set_pattern (p : option Pattern) (cell : Cell) : Cell :=
  mkCell (cell_row cell) (cell_col cell) p (visible cell) (matched cell)
         (cell_x cell) (cell_y cell).
Definition set_visible (v : bool) (cell : Cell) : Cell :=
  mkCell (cell_row cell) (cell_col cell) (pattern cell) v (matched cell)
         (cell_x cell) (cell_y cell).
Definition set_matched (m : bool) (cell : Cell) : Cell :=
  mkCell (cell_row cell) (cell_col cell) (pattern cell) (visible cell) m
         (cell_x cell) (cell_y cell).

(** A turn point, the object literal [{ row, col }]. *)
Record Corner := mkCorner {
  corner_row : Z;
  corner_col : Z
}.

(** The path checks read nothing but [.row] and [.col] of their arguments,
    and are called on cells and on corner literals alike. *)
Class Positioned (A : Type) := {
  row : A → Z;
  col : A → Z
}.

#[export] Instance Cell_Positioned : Positioned Cell :=
  {| row := cell_row; col := cell_col |}.
#[export] Instance Corner_Positioned : Positioned Corner :=
  {| row := corner_row; col := corner_col |}.

(** A point of a connection path, the object literal [{ x, y }]. *)
Record Point := mkPoint {
  x : Z;
  y : Z
}.

(** The result object of the corner checks, [{ type, corners }]. *)
Record Connection := mkConnection {
  type : string;
  corners : list Corner
}.

(** The store of cell objects: a reference is an index into it. *)
Abbreviation loc := nat (only parsing).
Abbreviation Heap := (list Cell) (only parsing).
Abbreviation Grid := (list (list loc)) (only parsing).

#[export] Instance Cell_inhabited : Inhabited Cell :=
  populate (mkCell 0 0 None false false 0%Q 0%Q).

(** [grid[row][col]] for integer indices; [None] is JavaScript's
    [undefined] (or the TypeError of reading a column of a missing row). *)
Definition gridAt (grid : Grid) (r c : Z) : option loc :=
  if (r <? 0) || (c <? 0) then None
  else grid !! Z.to_nat r ≫= (.!! Z.to_nat c).

(** ** Loops *)

(** [for (let i = lo; i < hi; i++) { ... }] with a body that may [return]:
    the loop yields the value of the first iteration that returns, and
    [None] when it runs to its end. *)
Fixpoint for_from {R : Type} (body : Z → option R) (i : Z) (n : nat) : option R :=
  match n with
  | O => None
  | S n' =>
      match body i with
      | Some r => Some r
      | None => for_from body (i + 1) n'
      end
  end.

Definition for_range {R : Type} (lo hi : Z) (body : Z → option R) : option R :=
  for_from body lo (Z.to_nat (hi - lo)).

(** ** Objects used as dictionaries *)

(** [patternGroups] and [patternCounts] are plain objects indexed by a
    pattern id. A number used as a property name is an array index when it
    is an integer of [0 .. 2^32 - 2]; [for (const k in o)] visits the array
    indices in ascending order and then the other keys in the order of their
    creation. *)
Module JsObject.

Definition t (V : Type) := list (Z * V).

Definition empty {V : Type} : t V := [].

Fixpoint get {V : Type} (k : Z) (o : t V) : option V :=
  match o with
  | [] => None
  | (k', v) :: o' => if k =? k' then Some v else get k o'
  end.

Fixpoint set {V : Type} (k : Z) (v : V) (o : t V) : t V :=
  match o with
  | [] => [(k, v)]
  | (k', v') :: o' => if k =? k' then (k, v) :: o' else (k', v') :: set k v o'
  end.

Definition isArrayIndex (k : Z) : bool := (0 <=? k) && (k <? 2 ^ 32 - 1).

Fixpoint insertSorted (k : Z) (ks : list Z) : list Z :=
  match ks with
  | [] => [k]
  | k' :: ks' => if k <=? k' then k :: ks else k' :: insertSorted k ks'
  end.

Definition ascending (ks : list Z) : list Z := foldr insertSorted [] ks.

Definition keys {V : Type} (o : t V) : list Z :=
  let ks := map fst o in
  ascending (List.filter isArrayIndex ks) ++
  List.filter (λ k, negb (isArrayIndex k)) ks.

End JsObject.

(** ** Effects *)

(** Lines written to the console; the numbers are those interpolated in the
    message. *)
Inductive LogLine :=
  | WarnOddPattern (patternId count : Z)     (* validateGameState: odd count *)
  | WarnMaxIterations                        (* simulateElimination: bound hit *)
  | ErrorPairsNotEven                        (* pair list of odd length *)
  | WarnParityRetry (retryCount maxRetries : Z)
  | LogUnsolvableRetry (retryCount maxRetries : Z)
  | LogMaxRetries                            (* ceiling reached, reshuffling *)
  | LogDeepReshuffle                         (* deepReshuffleGrid starts *)
  | LogGenerated (retryCount : Z)            (* solvable board produced *)
  | ErrorFinalValidation
  | WarnBestEffort.                          (* not solvable, board kept *)

#[export] Instance LogLine_eq_dec : EqDecision LogLine.
Proof. solve_decision. Defined.

(** The state a method can read and change: the cell objects, the values
    that the successive calls of [Math.random()] return together with the
    number of calls made so far, and the console. *)
Record World := mkWorld {
  heap : Heap;
  random : nat → Q;
  randomCalls : nat;
  console : list LogLine
}.

Definition withHeap (h : Heap) (w : World) : World :=
  mkWorld h (random w) (randomCalls w) (console w).

(** A call returns a value in a new state, throws a TypeError (a property
    read on [undefined]), or is still running when the fuel given to a
    [while] loop is spent. *)
Inductive Outcome (A : Type) :=
  | Returns (a : A) (w : World)
  | Throws
  | OutOfFuel.
Arguments Returns {A} a w.
Arguments Throws {A}.
Arguments OutOfFuel {A}.

Definition M (A : Type) : Type := World → Outcome A.

#[export] Instance M_ret : MRet M := λ A a w, Returns a w.
#[export] Instance M_bind : MBind M := λ A B f m w,
  match m w with
  | Returns a w' => f a w'
  | Throws => Throws
  | OutOfFuel => OutOfFuel
  end.

Definition throw {A : Type} : M A := λ _, Throws.
Definition outOfFuel {A : Type} : M A := λ _, OutOfFuel.

Definition getHeap : M Heap := λ w, Returns (heap w) w.

(** Reading through a reference, and writing a field of the object. *)
Definition readCell (l : loc) : M Cell := λ w,
  match heap w !! l with
  | Some cell => Returns cell w
  | None => Throws
  end.

Definition writeCell (l : loc) (f : Cell → Cell) : M unit := λ w,
  match heap w !! l with
  | Some cell => Returns () (withHeap (<[l := f cell]> (heap w)) w)
  | None => Throws
  end.

(** A new object: the object literal of a cell. *)
Definition alloc (cell : Cell) : M loc := λ w,
  Returns (length (heap w)) (withHeap (heap w ++ [cell]) w).

(** [grid[row][col]] where the cell is used at once. *)
Definition gridCell (grid : Grid) (r c : Z) : M loc :=
  match gridAt grid r c with
  | Some l => mret l
  | None => throw
  end.

Definition Math_random : M Q := λ w,
  Returns (random w (randomCalls w))
          (mkWorld (heap w) (random w) (S (randomCalls w)) (console w)).

Definition console_log (line : LogLine) : M unit := λ w,
  Returns () (mkWorld (heap w) (random w) (randomCalls w) (console w ++ [line])).

(** [randomInt(min, max)] of [utils.js]:
    [Math.floor(Math.random() * (max - min + 1)) + min]. The product is
    exact here. The code rounds it to a double before it takes the floor,
    which can move it onto the next integer: a draw of 0.3333333333333333
    on a span of 3 gives 1 in the code and 0 here. The theorems on
    [randomInt] and [findHint] state what holds for either value. *)
Definition randomInt (min max : Z) : M Z :=
  u ← Math_random;
  mret (Qfloor (u * inject_Z (max - min + 1)) + min).

(** A loop over a list that carries its local variables along. *)
Fixpoint foldM {A S : Type} (body : S → A → M S) (s : S) (l : list A) : M S :=
  match l with
  | [] => mret s
  | a :: l' => s' ← body s a; foldM body s' l'
  end.

(** A loop that builds an array, one element per iteration. *)
Fixpoint forM {A B : Type} (l : list A) (body : A → M B) : M (list B) :=
  match l with
  | [] => mret []
  | a :: l' => b ← body a; bs ← forM l' body; mret (b :: bs)
  end.

(** [[array[i], array[j]] = [array[j], array[i]]]. Both indices lie inside
    the array wherever the program swaps: [shuffleArray] has
    [0 < i < array.length], and [0 <= j <= i] because [Math.random()] is a
    number of the interval [0, 1) (see [shuffle_index_in_range]). *)
Definition swap {A : Type} (i j : nat) (array : list A) : list A :=
  match array !! i, array !! j with
  | Some ai, Some aj => <[j := ai]> (<[i := aj]> array)
  | _, _ => array
  end.

(** [shuffleArray(array)], the same in both classes:
    [for (let i = array.length - 1; i > 0; i--)] with
    [j = Math.floor(Math.random() * (i + 1))]. The array is local to the
    caller, which continues with the shuffled one. *)
Definition shuffleArray {A : Type} (array : list A) : M (list A) :=
  foldM (λ array i,
           u ← Math_random;
           let j := Z.to_nat (Qfloor (u * inject_Z (Z.of_nat i + 1))) in
           mret (swap i j array))
        array (rev (seq 1 (length array - 1))).

(** ** Class LinkGameAlgorithm *)

Module LinkGameAlgorithm.

Record t := mk {
  grid : Grid;
  gridRows : Z;
  gridCols : Z
}.

(** [constructor(grid)]: [grid[0].length] throws on an empty grid. *)
Definition new (grid : Grid) : option t :=
  match grid with
  | [] => None
  | row0 :: _ =>
      Some {| grid := grid;
              gridRows := Z.of_nat (length grid);
              gridCols := Z.of_nat (length row0) |}
  end.

Section Methods.
Context (this : t) (h : Heap).

(** The cell object a reference points to. *)
Definition deref (l : loc) : Cell := h !!! l.

Definition isCellEmpty (r c : Z) : bool :=
  if (r <? 0) || (r >=? gridRows this) || (c <? 0) || (c >=? gridCols this)
  then false
  else
    match gridAt (grid this) r c ≫= (h !!.) with
    | Some cell => negb (visible cell) || matched cell
    | None => false (* a TypeError; see [isCellEmpty_defined] *)
    end.

Definition isValidCorner (corner : Corner) : bool :=
  isCellEmpty (row corner) (col corner).

(** [cell] is a reference or [null]. *)
Definition isValidCell (cell : option loc) : bool :=
  match cell with
  | None => false
  | Some l =>
      let cell := deref l in
      if (row cell <? 0) || (row cell >=? gridRows this) then false
      else if (col cell <? 0) || (col cell >=? gridCols this) then false
      else true
  end.

Definition checkHorizontalLine {A B : Type} `{Positioned A, Positioned B}
    (cell1 : A) (cell2 : B) : bool :=
  let minCol := Z.min (col cell1) (col cell2) in
  let maxCol := Z.max (col cell1) (col cell2) in
  match for_range (minCol + 1) maxCol (λ c,
          if negb (isCellEmpty (row cell1) c) then Some false else None) with
  | Some b => b
  | None => true
  end.

Definition checkVerticalLine {A B : Type} `{Positioned A, Positioned B}
    (cell1 : A) (cell2 : B) : bool :=
  let minRow := Z.min (row cell1) (row cell2) in
  let maxRow := Z.max (row cell1) (row cell2) in
  match for_range (minRow + 1) maxRow (λ r,
          if negb (isCellEmpty r (col cell1)) then Some false else None) with
  | Some b => b
  | None => true
  end.

Definition checkStraightLine {A B : Type} `{Positioned A, Positioned B}
    (cell1 : A) (cell2 : B) : bool :=
  if row cell1 =? row cell2 then checkHorizontalLine cell1 cell2
  else if col cell1 =? col cell2 then checkVerticalLine cell1 cell2
  else false.

(** Returns the result object, or [None] for [false]. *)
Definition checkOneCorner {A B : Type} `{Positioned A, Positioned B}
    (cell1 : A) (cell2 : B) : option Connection :=
  let corner1 := {| corner_row := row cell1; corner_col := col cell2 |} in
  let corner2 := {| corner_row := row cell2; corner_col := col cell1 |} in
  if isValidCorner corner1 &&
     checkStraightLine cell1 corner1 &&
     checkStraightLine corner1 cell2
  then Some {| type := "one-corner"; corners := [corner1] |}
  else if isValidCorner corner2 &&
          checkStraightLine cell1 corner2 &&
          checkStraightLine corner2 cell2
  then Some {| type := "one-corner"; corners := [corner2] |}
  else None.

(** The body of the row scan of [checkTwoCorners]; [None] is [continue]
    or falling through to the next iteration. *)
Definition rowScan {A B : Type} `{Positioned A, Positioned B}
    (cell1 : A) (cell2 : B) (r : Z) : option Connection :=
  if (r =? row cell1) || (r =? row cell2) then None
  else
    let corner1 := {| corner_row := r; corner_col := col cell1 |} in
    let corner2 := {| corner_row := r; corner_col := col cell2 |} in
    if isValidCorner corner1 && isValidCorner corner2 then
      if checkStraightLine cell1 corner1 &&
         checkHorizontalLine corner1 corner2 &&
         checkStraightLine corner2 cell2
      then Some {| type := "two-corners"; corners := [corner1; corner2] |}
      else None
    else None.

(** The body of the column scan of [checkTwoCorners]. *)
Definition colScan {A B : Type} `{Positioned A, Positioned B}
    (cell1 : A) (cell2 : B) (c : Z) : option Connection :=
  if (c =? col cell1) || (c =? col cell2) then None
  else
    let corner1 := {| corner_row := row cell1; corner_col := c |} in
    let corner2 := {| corner_row := row cell2; corner_col := c |} in
    if isValidCorner corner1 && isValidCorner corner2 then
      if checkStraightLine cell1 corner1 &&
         checkVerticalLine corner1 corner2 &&
         checkStraightLine corner2 cell2
      then Some {| type := "two-corners"; corners := [corner1; corner2] |}
      else None
    else None.

Definition checkTwoCorners {A B : Type} `{Positioned A, Positioned B}
    (cell1 : A) (cell2 : B) : option Connection :=
  match for_range 0 (gridRows this) (rowScan cell1 cell2) with
  | Some res => Some res
  | None => for_range 0 (gridCols this) (colScan cell1 cell2)
  end.

(** [canConnect(cell1, cell2)]. The JavaScript value is [true], a result
    object or [false]; every caller tests it as a condition, and the
    boolean here is that truth value. *)
Definition canConnect (cell1 cell2 : option loc) : bool :=
  if negb (isValidCell cell1) || negb (isValidCell cell2) then false
  else if bool_decide (cell1 = cell2) then false
  else
    match cell1, cell2 with
    | Some l1, Some l2 =>
        let cell1 := deref l1 in
        let cell2 := deref l2 in
        match pattern cell1, pattern cell2 with
        | Some p1, Some p2 =>
            if negb (id p1 =? id p2) then false
            else checkStraightLine cell1 cell2 ||
                 bool_decide (is_Some (checkOneCorner cell1 cell2)) ||
                 bool_decide (is_Some (checkTwoCorners cell1 cell2))
        | _, _ => false
        end
    | _, _ => false
    end.

Definition pointOf {A : Type} `{Positioned A} (a : A) : Point :=
  {| x := col a; y := row a |}.

(** [getConnectionPath(cell1, cell2)]; [None] is [null]. The method reads
    [cell1.row] at once, so its arguments are cell objects. A result of
    [checkOneCorner] holds one corner and a result of [checkTwoCorners] two
    (see [checkOneCorner_Some] and [checkTwoCorners_corners]): the reads
    [corners[0]] and [corners[1]] never meet a shorter array. *)
Definition getConnectionPath (l1 l2 : loc) : option (list Point) :=
  let cell1 := deref l1 in
  let cell2 := deref l2 in
  if checkStraightLine cell1 cell2 then
    Some [pointOf cell1; pointOf cell2]
  else
    match checkOneCorner cell1 cell2 with
    | Some oneCornerResult =>
        match corners oneCornerResult with
        | corner :: _ => Some [pointOf cell1; pointOf corner; pointOf cell2]
        | [] => None
        end
    | None =>
        match checkTwoCorners cell1 cell2 with
        | Some twoCornersResult =>
            match corners twoCornersResult with
            | corner1 :: corner2 :: _ =>
                Some [pointOf cell1; pointOf corner1; pointOf corner2; pointOf cell2]
            | _ => None
            end
        | None => None
        end
    end.

End Methods.


Section Queries.
Context (this : t) (h : Heap).

(** The visible, unmatched cells in row-major order. On the rectangular
    grid of the game [grid[row][col]] is a cell at every step of the two
    loops (see [getVisibleCells_cells]). *)
Definition getVisibleCells : list loc :=
  r ← seqZ 0 (gridRows this);
  c ← seqZ 0 (gridCols this);
  match gridAt (grid this) r c with
  | Some l =>
      let cell := deref h l in
      if visible cell && negb (matched cell) then [l] else []
  | None => []
  end.

(** The first loop of [findAllConnectablePairs]: the cells grouped by
    pattern id, each group in the order of [visibleCells]. *)
Definition groupByPattern (visibleCells : list loc) : JsObject.t (list loc) :=
  foldl (λ patternGroups l,
           let cell := deref h l in
           match pattern cell with
           | None => patternGroups
           | Some p =>
               let patternId := id p in
               let patternGroups :=
                 match JsObject.get patternId patternGroups with
                 | None => JsObject.set patternId [] patternGroups
                 | Some _ => patternGroups
                 end in
               JsObject.set patternId
                 (default [] (JsObject.get patternId patternGroups) ++ [l])
                 patternGroups
           end)
        JsObject.empty visibleCells.

(** The pairs [(cells[i], cells[j])] with [i < j], [i] in the outer loop. *)
Fixpoint pairsOf (cells : list loc) : list (loc * loc) :=
  match cells with
  | [] => []
  | cell1 :: rest => map (pair cell1) rest ++ pairsOf rest
  end.

Definition findAllConnectablePairs : list (loc * loc) :=
  let patternGroups := groupByPattern getVisibleCells in
  patternId ← JsObject.keys patternGroups;
  let cells := default [] (JsObject.get patternId patternGroups) in
  List.filter (λ p, canConnect this h (Some p.1) (Some p.2)) (pairsOf cells).

Definition isGameContinue : bool :=
  bool_decide (0 < Z.of_nat (length findAllConnectablePairs)).

(** The first loop of [validateGameState]:
    [patternCounts[id] = (patternCounts[id] || 0) + 1]. *)
Definition countPatterns (visibleCells : list loc) : JsObject.t Z :=
  foldl (λ patternCounts l,
           match pattern (deref h l) with
           | Some p =>
               let patternId := id p in
               JsObject.set patternId
                 (default 0 (JsObject.get patternId patternCounts) + 1)
                 patternCounts
           | None => patternCounts
           end)
        JsObject.empty visibleCells.

(** The second loop of [validateGameState]: the first key, in [for ... in]
    order, whose count is odd. *)
Definition oddPattern (patternCounts : JsObject.t Z) : option (Z * Z) :=
  head (patternId ← JsObject.keys patternCounts;
        let count := default 0 (JsObject.get patternId patternCounts) in
        if negb (Z.rem count 2 =? 0) then [(patternId, count)] else []).

(** ** The copies of the path checks that take the grid as an argument *)

Definition isCellEmptyInGrid (r c : Z) (grid : Grid) : bool :=
  if (r <? 0) || (r >=? gridRows this) || (c <? 0) || (c >=? gridCols this)
  then false
  else
    match gridAt grid r c ≫= (h !!.) with
    | Some cell => negb (visible cell) || matched cell
    | None => false
    end.

Definition isValidCornerInGrid (corner : Corner) (grid : Grid) : bool :=
  isCellEmptyInGrid (row corner) (col corner) grid.

Definition isValidCellInGrid (cell : option loc) (grid : Grid) : bool :=
  match cell with
  | None => false
  | Some l =>
      let cell := deref h l in
      if (row cell <? 0) || (row cell >=? gridRows this) then false
      else if (col cell <? 0) || (col cell >=? gridCols this) then false
      else true
  end.

Definition checkHorizontalLineInGrid {A B : Type} `{Positioned A, Positioned B}
    (cell1 : A) (cell2 : B) (grid : Grid) : bool :=
  let minCol := Z.min (col cell1) (col cell2) in
  let maxCol := Z.max (col cell1) (col cell2) in
  match for_range (minCol + 1) maxCol (λ c,
          if negb (isCellEmptyInGrid (row cell1) c grid) then Some false else None) with
  | Some b => b
  | None => true
  end.

Definition checkVerticalLineInGrid {A B : Type} `{Positioned A, Positioned B}
    (cell1 : A) (cell2 : B) (grid : Grid) : bool :=
  let minRow := Z.min (row cell1) (row cell2) in
  let maxRow := Z.max (row cell1) (row cell2) in
  match for_range (minRow + 1) maxRow (λ r,
          if negb (isCellEmptyInGrid r (col cell1) grid) then Some false else None) with
  | Some b => b
  | None => true
  end.

Definition checkStraightLineInGrid {A B : Type} `{Positioned A, Positioned B}
    (cell1 : A) (cell2 : B) (grid : Grid) : bool :=
  if row cell1 =? row cell2 then checkHorizontalLineInGrid cell1 cell2 grid
  else if col cell1 =? col cell2 then checkVerticalLineInGrid cell1 cell2 grid
  else false.

Definition checkOneCornerInGrid {A B : Type} `{Positioned A, Positioned B}
    (cell1 : A) (cell2 : B) (grid : Grid) : bool :=
  let corner1 := {| corner_row := row cell1; corner_col := col cell2 |} in
  let corner2 := {| corner_row := row cell2; corner_col := col cell1 |} in
  if isValidCornerInGrid corner1 grid &&
     checkStraightLineInGrid cell1 corner1 grid &&
     checkStraightLineInGrid corner1 cell2 grid
  then true
  else if isValidCornerInGrid corner2 grid &&
          checkStraightLineInGrid cell1 corner2 grid &&
          checkStraightLineInGrid corner2 cell2 grid
  then true
  else false.

Definition rowScanInGrid {A B : Type} `{Positioned A, Positioned B}
    (cell1 : A) (cell2 : B) (grid : Grid) (r : Z) : option bool :=
  if (r =? row cell1) || (r =? row cell2) then None
  else
    let corner1 := {| corner_row := r; corner_col := col cell1 |} in
    let corner2 := {| corner_row := r; corner_col := col cell2 |} in
    if isValidCornerInGrid corner1 grid && isValidCornerInGrid corner2 grid then
      if checkStraightLineInGrid cell1 corner1 grid &&
         checkHorizontalLineInGrid corner1 corner2 grid &&
         checkStraightLineInGrid corner2 cell2 grid
      then Some true
      else None
    else None.

Definition colScanInGrid {A B : Type} `{Positioned A, Positioned B}
    (cell1 : A) (cell2 : B) (grid : Grid) (c : Z) : option bool :=
  if (c =? col cell1) || (c =? col cell2) then None
  else
    let corner1 := {| corner_row := row cell1; corner_col := c |} in
    let corner2 := {| corner_row := row cell2; corner_col := c |} in
    if isValidCornerInGrid corner1 grid && isValidCornerInGrid corner2 grid then
      if checkStraightLineInGrid cell1 corner1 grid &&
         checkVerticalLineInGrid corner1 corner2 grid &&
         checkStraightLineInGrid corner2 cell2 grid
      then Some true
      else None
    else None.

Definition checkTwoCornersInGrid {A B : Type} `{Positioned A, Positioned B}
    (cell1 : A) (cell2 : B) (grid : Grid) : bool :=
  match for_range 0 (gridRows this) (rowScanInGrid cell1 cell2 grid) with
  | Some b => b
  | None =>
      match for_range 0 (gridCols this) (colScanInGrid cell1 cell2 grid) with
      | Some b => b
      | None => false
      end
  end.

Definition canConnectInGrid (cell1 cell2 : option loc) (grid : Grid) : bool :=
  if negb (isValidCellInGrid cell1 grid) || negb (isValidCellInGrid cell2 grid)
  then false
  else if bool_decide (cell1 = cell2) then false
  else
    match cell1, cell2 with
    | Some l1, Some l2 =>
        let cell1 := deref h l1 in
        let cell2 := deref h l2 in
        match pattern cell1, pattern cell2 with
        | Some p1, Some p2 =>
            if negb (id p1 =? id p2) then false
            else if matched cell1 || matched cell2 then false
            else checkStraightLineInGrid cell1 cell2 grid ||
                 checkOneCornerInGrid cell1 cell2 grid ||
                 checkTwoCornersInGrid cell1 cell2 grid
        | _, _ => false
        end
    | _, _ => false
    end.

Definition getVisibleCellsFromGrid (grid : Grid) : list loc :=
  r ← seqZ 0 (gridRows this);
  c ← seqZ 0 (gridCols this);
  match gridAt grid r c with
  | Some l =>
      let cell := deref h l in
      if visible cell && negb (matched cell) then [l] else []
  | None => []
  end.

Definition findAllConnectablePairsInGrid (grid : Grid) : list (loc * loc) :=
  let patternGroups := groupByPattern (getVisibleCellsFromGrid grid) in
  patternId ← JsObject.keys patternGroups;
  let cells := default [] (JsObject.get patternId patternGroups) in
  List.filter (λ p, canConnectInGrid (Some p.1) (Some p.2) grid) (pairsOf cells).

End Queries.

Section Commands.
Context (this : t).

(** [findHint()]: one of the connectable pairs, at the index
    [randomInt(0, pairs.length - 1)]; [None] is [null], or the [undefined]
    of an index outside the array. *)
Definition findHint : M (option (loc * loc)) :=
  h ← getHeap;
  let pairs := findAllConnectablePairs this h in
  if bool_decide (0 < Z.of_nat (length pairs)) then
    randomIndex ← randomInt 0 (Z.of_nat (length pairs) - 1);
    mret (if randomIndex <? 0 then None else pairs !! Z.to_nat randomIndex)
  else mret None.

(** The reassignment loop of [reshuffleGrid] and [deepReshuffleGrid]:
    the cells of [visibleCells] take the patterns in order, as long as
    there are patterns left. *)
Definition reassignPatterns (visibleCells : list loc) (patterns : list Pattern)
    : M unit :=
  _ ← foldM (λ patternIndex cell,
               match patterns !! patternIndex with
               | Some p =>
                   writeCell cell (set_pattern (Some p));;
                   mret (S patternIndex)
               | None => mret patternIndex
               end)
            0%nat visibleCells;
  mret ().

Definition reshuffleGrid : M bool :=
  h ← getHeap;
  let visibleCells := getVisibleCells this h in
  let patterns := omap (λ cell, pattern (deref h cell)) visibleCells in
  patterns ← shuffleArray patterns;
  reassignPatterns visibleCells patterns;;
  mret (bool_decide (0 < Z.of_nat (length patterns))).

Definition validateGameState : M bool :=
  h ← getHeap;
  let visibleCells := getVisibleCells this h in
  let patternCounts := countPatterns h visibleCells in
  match oddPattern patternCounts with
  | Some (patternId, count) =>
      console_log (WarnOddPattern patternId count);;
      mret false
  | None => mret true
  end.

(** [createGridCopy()]: a new cell object for every position. *)
Definition createGridCopy : M Grid :=
  forM (seqZ 0 (gridRows this)) (λ r,
    forM (seqZ 0 (gridCols this)) (λ c,
      originalCell ← gridCell (grid this) r c ≫= readCell;
      alloc {| cell_row := r;
               cell_col := c;
               pattern := match pattern originalCell with
                          | Some p => Some p
                          | None => None
                          end;
               visible := visible originalCell;
               matched := matched originalCell;
               cell_x := cell_x originalCell;
               cell_y := cell_y originalCell |})).

(** The loop of [simulateElimination(grid)], with [iterations] iterations
    left. *)
Fixpoint simulateLoop (grid : Grid) (totalCells : Z) (iterations : nat)
    (eliminatedCount : Z) : M bool :=
  match iterations with
  | O =>
      console_log WarnMaxIterations;;
      mret false
  | S iterations' =>
      h ← getHeap;
      let connectablePairs := findAllConnectablePairsInGrid this h grid in
      match connectablePairs with
      | [] =>
          let remainingCells := getVisibleCellsFromGrid this h grid in
          mret (bool_decide (length remainingCells = 0%nat))
      | (cell1, cell2) :: _ =>
          writeCell cell1 (set_matched true);;
          writeCell cell2 (set_matched true);;
          let eliminatedCount := eliminatedCount + 2 in
          if eliminatedCount >=? totalCells then mret true
          else simulateLoop grid totalCells iterations' eliminatedCount
      end
  end.

Definition simulateElimination (grid : Grid) : M bool :=
  let totalCells := gridRows this * gridCols this in
  let maxIterations := totalCells * 2 in
  simulateLoop grid totalCells (Z.to_nat maxIterations) 0.

Definition isBoardSolvable : M bool :=
  valid ← validateGameState;
  if negb valid then mret false
  else
    simulatedGrid ← createGridCopy;
    simulateElimination simulatedGrid.

End Commands.

End LinkGameAlgorithm.

(** ** Class LinkGame: the generation of a board *)

Module LevelConfig.
Record t := mk {
  patterns : Z;
  dropDirection : string;
  difficulty : string
}.
End LevelConfig.

Module LinkGame.

(** The fields of the game object that the generation of a board reads or
    writes. [gridSize], [gridX] and [gridY] come from the size of the
    screen. *)
Record t := mk {
  gridRows : Z;
  gridCols : Z;
  gridSize : Q;
  gridX : Q;
  gridY : Q;
  currentLevel : Z;
  grid : Grid;
  algorithm : option LinkGameAlgorithm.t;
  levelConfigs : JsObject.t LevelConfig.t;
  patterns : list Pattern
}.

Definition withGrid (grid' : Grid) (this : t) : t :=
  mk (gridRows this) (gridCols this) (gridSize this) (gridX this) (gridY this)
     (currentLevel this) grid' (algorithm this) (levelConfigs this) (patterns this).

Definition withAlgorithm (algorithm' : option LinkGameAlgorithm.t) (this : t) : t :=
  mk (gridRows this) (gridCols this) (gridSize this) (gridX this) (gridY this)
     (currentLevel this) (grid this) algorithm' (levelConfigs this) (patterns this).

Definition colors : list string :=
  ["#FF6B6B"; "#4ECDC4"; "#45B7D1"; "#96CEB4"; "#FFEAA7";
   "#DDA0DD"; "#98D8C8"; "#F7DC6F"; "#BB8FCE"; "#85C1E9";
   "#F8C471"; "#82E0AA"; "#F1948A"; "#85C1E9"; "#D7BDE2";
   "#F9E79F"; "#AED6F1"; "#ABEBC6"; "#FAD7A0"; "#D5DBDB"].

Definition shapes : list string :=
  ["circle"; "square"; "triangle"; "diamond"; "star"; "heart"].

(** The inner loop of [generatePatterns], which breaks once there are 30
    patterns; [nextId] is the variable [id]. *)
Fixpoint shapesLoop (color : string) (shapes : list string)
    (patterns : list Pattern) (nextId : Z) : list Pattern * Z :=
  match shapes with
  | [] => (patterns, nextId)
  | shape :: rest =>
      if 30 <=? Z.of_nat (length patterns) then (patterns, nextId)
      else
        shapesLoop color rest
          (patterns ++
             [{| id := nextId;
                 color := color;
                 shape := shape;
                 name := shape +:+ "_" +:+
                         String.substring 1 (String.length color - 1) color |}])
          (nextId + 1)
  end.

Definition generatePatterns : list Pattern :=
  (foldl (λ '(patterns, nextId) color, shapesLoop color shapes patterns nextId)
         ([], 1) colors).1.

(** The state that [constructor] sets up, for a screen that gives the
    pixel geometry [gridSize], [gridX], [gridY]. *)
Definition new (gridSize gridX gridY : Q) : t :=
  {| gridRows := 8;
     gridCols := 10;
     gridSize := gridSize;
     gridX := gridX;
     gridY := gridY;
     currentLevel := 1;
     grid := [];
     algorithm := None;
     levelConfigs :=
       [(1, LevelConfig.mk 10 "top" "easy");
        (2, LevelConfig.mk 15 "bottom" "easy");
        (3, LevelConfig.mk 20 "left" "medium");
        (4, LevelConfig.mk 25 "right" "medium");
        (5, LevelConfig.mk 30 "random" "hard")];
     patterns := generatePatterns |}.

(** [array.slice(0, end)]. *)
Definition slice0 {A : Type} (array : list A) (end_ : Z) : list A :=
  if end_ <? 0
  then take (Z.to_nat (Z.max (Z.of_nat (length array) + end_) 0)) array
  else take (Z.to_nat end_) array.

Definition getVisibleCells (this : t) (h : Heap) : list loc :=
  r ← seqZ 0 (gridRows this);
  c ← seqZ 0 (gridCols this);
  match gridAt (grid this) r c with
  | Some l =>
      let cell := LinkGameAlgorithm.deref h l in
      if visible cell && negb (matched cell) then [l] else []
  | None => []
  end.

(** [new LinkGameAlgorithm(this.grid)]. *)
Definition newAlgorithm (grid : Grid) : M LinkGameAlgorithm.t :=
  match LinkGameAlgorithm.new grid with
  | Some algorithm => mret algorithm
  | None => throw
  end.

Definition deepReshuffleGrid (this : t) : M t :=
  console_log LogDeepReshuffle;;
  h ← getHeap;
  let visibleCells := getVisibleCells this h in
  let patterns := omap (λ cell, pattern (LinkGameAlgorithm.deref h cell)) visibleCells in
  patterns ← foldM (λ patterns _, shuffleArray patterns) patterns (seqZ 0 5);
  LinkGameAlgorithm.reassignPatterns visibleCells patterns;;
  algorithm ← newAlgorithm (grid this);
  mret (withAlgorithm (Some algorithm) this).

(** The two nested loops of [fillGridWithPatterns] that assign the
    shuffled pairs to the cells in row-major order. *)
Definition fillCells (this : t) (patternPairs : list Pattern) : M unit :=
  let totalCells := gridRows this * gridCols this in
  _ ← foldM (λ patternIndex r,
         foldM (λ patternIndex c,
                  cell ← gridCell (grid this) r c;
                  if (patternIndex <? Z.of_nat (length patternPairs)) &&
                     (patternIndex <? totalCells)
                  then
                    writeCell cell (set_pattern (patternPairs !! Z.to_nat patternIndex));;
                    writeCell cell (set_visible true);;
                    writeCell cell (set_matched false);;
                    mret (patternIndex + 1)
                  else
                    writeCell cell (set_visible false);;
                    writeCell cell (set_matched true);;
                    mret patternIndex)
               patternIndex (seqZ 0 (gridCols this)))
       0 (seqZ 0 (gridRows this));
  mret ().

(** The local variables of [fillGridWithPatterns] that the loop changes. *)
Record Locals := mkLocals {
  retryCount : Z;
  isSolvable : bool
}.

Section Generation.

(** [fillGridWithPatterns] calls [this.algorithm.strictBoardValidation()],
    a method that the class [LinkGameAlgorithm] of the sources does not
    define. It is a parameter here: a verdict on the board that reads the
    cells and leaves them as they are. *)
Context (strictBoardValidation : LinkGameAlgorithm.t → Heap → bool).

Definition callStrictBoardValidation (this : t) : M bool :=
  match algorithm this with
  | Some algorithm => h ← getHeap; mret (strictBoardValidation algorithm h)
  | None => throw
  end.

Definition maxRetries : Z := 100.

(** One iteration of the [while] loop. *)
Definition attempt (availablePatterns : list Pattern) (this : t) (locals : Locals)
    : M (t * Locals) :=
  let retryCount := retryCount locals in
  let patternPairs := pattern ← availablePatterns; [pattern; pattern] in
  if negb (Z.rem (Z.of_nat (length patternPairs)) 2 =? 0) then
    console_log ErrorPairsNotEven;;
    mret (this, mkLocals (retryCount + 1) (isSolvable locals))
  else
    patternPairs ← shuffleArray patternPairs;
    fillCells this patternPairs;;
    algorithm ← newAlgorithm (grid this);
    let this := withAlgorithm (Some algorithm) this in
    patternValidation ← LinkGameAlgorithm.validateGameState algorithm;
    if negb patternValidation then
      console_log (WarnParityRetry retryCount maxRetries);;
      mret (this, mkLocals (retryCount + 1) (isSolvable locals))
    else
      isSolvable ← callStrictBoardValidation this;
      if negb isSolvable then
        let retryCount := retryCount + 1 in
        console_log (LogUnsolvableRetry retryCount maxRetries);;
        if retryCount >=? maxRetries then
          console_log LogMaxRetries;;
          this ← deepReshuffleGrid this;
          isSolvable ← callStrictBoardValidation this;
          mret (this, mkLocals retryCount isSolvable)
        else mret (this, mkLocals retryCount isSolvable)
      else mret (this, mkLocals retryCount isSolvable).

(** [while (!isSolvable && retryCount < maxRetries)]. *)
Fixpoint whileNotSolvable (fuel : nat) (availablePatterns : list Pattern)
    (this : t) (locals : Locals) : M (t * Locals) :=
  if negb (isSolvable locals) && (retryCount locals <? maxRetries) then
    match fuel with
    | O => outOfFuel
    | S fuel' =>
        '(this, locals) ← attempt availablePatterns this locals;
        whileNotSolvable fuel' availablePatterns this locals
    end
  else mret (this, locals).

Definition fillGridWithPatterns (fuel : nat) (this : t) : M t :=
  match JsObject.get (currentLevel this) (levelConfigs this) with
  | None => throw
  | Some levelConfig =>
      let patternCount := LevelConfig.patterns levelConfig in
      let availablePatterns := slice0 (patterns this) patternCount in
      '(this, locals) ←
        whileNotSolvable fuel availablePatterns this (mkLocals 0 false);
      if isSolvable locals then
        console_log (LogGenerated (retryCount locals));;
        finalValidation ← callStrictBoardValidation this;
        if negb finalValidation then
          console_log ErrorFinalValidation;;
          mret this
        else mret this
      else
        console_log WarnBestEffort;;
        mret this
  end.

(** [initializeGrid()]: a new cell object for every position, then the
    patterns of the current level. *)
Definition initializeGrid (fuel : nat) (this : t) : M t :=
  grid ← forM (seqZ 0 (gridRows this)) (λ r,
            forM (seqZ 0 (gridCols this)) (λ c,
              alloc {| cell_row := r;
                       cell_col := c;
                       pattern := None;
                       visible := false;
                       matched := false;
                       cell_x := gridX this + inject_Z c * gridSize this;
                       cell_y := gridY this + inject_Z r * gridSize this |}));
  fillGridWithPatterns fuel (withGrid grid this).

End Generation.

(** ** Class LinkGame: the first version of the generator *)

(** The file holds an earlier version of the class, whose
    [fillGridWithPatterns] fills the grid once, without validation. *)
Module V1.

Definition fillGridWithPatterns (this : t) : M unit :=
  match JsObject.get (currentLevel this) (levelConfigs this) with
  | None => throw
  | Some levelConfig =>
      let patternCount := LevelConfig.patterns levelConfig in
      let availablePatterns := slice0 (patterns this) patternCount in
      let patternPairs := pattern ← availablePatterns; [pattern; pattern] in
      patternPairs ← shuffleArray patternPairs;
      fillCells this patternPairs
  end.

End V1.

(** ** Class LinkGame: a round of play *)

(** The lines that the methods of a round write to the console. *)
Inductive PlayLine :=
  | LogConnected                  (* tryConnectCells: connected *)
  | LogCannotConnect              (* tryConnectCells: no connection *)
  | LogLevelComplete (level : Z)  (* completeLevel: level done *)
  | LogNextLevel (level : Z)      (* completeLevel: next level entered *)
  | LogGameOver.                  (* gameOver *)

(** The fields of the game object that a round of play reads or writes,
    beside those of [t], which [game] holds. [journal] holds, in order, the
    lines that the methods below write to the console. Pixel coordinates
    and times in seconds are numbers that need not be integers: they are
    rationals here, with exact arithmetic in place of the rounding of
    floating point numbers. [score] and [timeLeft] start as integers and
    change by integers only. *)
Record Round := mkRound {
  game : t;
  gridWidth : Q;
  gridHeight : Q;
  totalLevels : Z;
  score : Z;
  timeLeft : Z;
  gameStarted : bool;
  isGameOver : bool;
  selectedCell : option loc;
  hintCell : option loc;
  connectionPath : option (list Point);
  connectionTimer : Q;
  lastUpdateTime : Q;
  journal : list PlayLine
}.

Definition withCurrentLevel (currentLevel' : Z) (this : t) : t :=
  mk (gridRows this) (gridCols this) (gridSize this) (gridX this) (gridY this)
     currentLevel' (grid this) (algorithm this) (levelConfigs this) (patterns this).

Definition withGame (game' : t) (this : Round) : Round :=
  mkRound game' (gridWidth this) (gridHeight this) (totalLevels this) (score this)
    (timeLeft this) (gameStarted this) (isGameOver this) (selectedCell this)
    (hintCell this) (connectionPath this) (connectionTimer this)
    (lastUpdateTime this) (journal this).

Definition withScore (score' : Z) (this : Round) : Round :=
  mkRound (game this) (gridWidth this) (gridHeight this) (totalLevels this) score'
    (timeLeft this) (gameStarted this) (isGameOver this) (selectedCell this)
    (hintCell this) (connectionPath this) (connectionTimer this)
    (lastUpdateTime this) (journal this).

Definition withTimeLeft (timeLeft' : Z) (this : Round) : Round :=
  mkRound (game this) (gridWidth this) (gridHeight this) (totalLevels this)
    (score this) timeLeft' (gameStarted this) (isGameOver this) (selectedCell this)
    (hintCell this) (connectionPath this) (connectionTimer this)
    (lastUpdateTime this) (journal this).

Definition withGameStarted (gameStarted' : bool) (this : Round) : Round :=
  mkRound (game this) (gridWidth this) (gridHeight this) (totalLevels this)
    (score this) (timeLeft this) gameStarted' (isGameOver this) (selectedCell this)
    (hintCell this) (connectionPath this) (connectionTimer this)
    (lastUpdateTime this) (journal this).

Definition withIsGameOver (isGameOver' : bool) (this : Round) : Round :=
  mkRound (game this) (gridWidth this) (gridHeight this) (totalLevels this)
    (score this) (timeLeft this) (gameStarted this) isGameOver' (selectedCell this)
    (hintCell this) (connectionPath this) (connectionTimer this)
    (lastUpdateTime this) (journal this).

Definition withSelectedCell (selectedCell' : option loc) (this : Round) : Round :=
  mkRound (game this) (gridWidth this) (gridHeight this) (totalLevels this)
    (score this) (timeLeft this) (gameStarted this) (isGameOver this) selectedCell'
    (hintCell this) (connectionPath this) (connectionTimer this)
    (lastUpdateTime this) (journal this).

Definition withHintCell (hintCell' : option loc) (this : Round) : Round :=
  mkRound (game this) (gridWidth this) (gridHeight this) (totalLevels this)
    (score this) (timeLeft this) (gameStarted this) (isGameOver this)
    (selectedCell this) hintCell' (connectionPath this) (connectionTimer this)
    (lastUpdateTime this) (journal this).

Definition withConnectionPath (connectionPath' : option (list Point)) (this : Round)
    : Round :=
  mkRound (game this) (gridWidth this) (gridHeight this) (totalLevels this)
    (score this) (timeLeft this) (gameStarted this) (isGameOver this)
    (selectedCell this) (hintCell this) connectionPath' (connectionTimer this)
    (lastUpdateTime this) (journal this).

Definition withConnectionTimer (connectionTimer' : Q) (this : Round) : Round :=
  mkRound (game this) (gridWidth this) (gridHeight this) (totalLevels this)
    (score this) (timeLeft this) (gameStarted this) (isGameOver this)
    (selectedCell this) (hintCell this) (connectionPath this) connectionTimer'
    (lastUpdateTime this) (journal this).

Definition withLastUpdateTime (lastUpdateTime' : Q) (this : Round) : Round :=
  mkRound (game this) (gridWidth this) (gridHeight this) (totalLevels this)
    (score this) (timeLeft this) (gameStarted this) (isGameOver this)
    (selectedCell this) (hintCell this) (connectionPath this) (connectionTimer this)
    lastUpdateTime' (journal this).

(** [console.log(line)] in a method of a round. *)
Definition say (line : PlayLine) (this : Round) : Round :=
  mkRound (game this) (gridWidth this) (gridHeight this) (totalLevels this)
    (score this) (timeLeft this) (gameStarted this) (isGameOver this)
    (selectedCell this) (hintCell this) (connectionPath this) (connectionTimer this)
    (lastUpdateTime this) (journal this ++ [line]).

(** [a < b] on numbers. *)
Definition Qlt_bool (a b : Q) : bool := negb (Qle_bool b a).

(** [getCellAtPosition(x, y)]; [None] is [null], or the [undefined] of a
    missing column. A [gridSize] of zero makes [col] and [row] infinite or
    [NaN], which fail the test of the bounds. The difference and the
    quotient are exact here. The code rounds each to a double, so that for
    a point next to the edge of a square [col] or [row] can be the index of
    the neighbour, or of no cell next to the edge of the grid. The theorems on [getCellAtPosition] and
    [handleCellClick] state what holds for either index. *)
Definition getCellAtPosition (x y : Q) (this : Round) : M (option loc) :=
  let g := game this in
  if Qlt_bool x (gridX g) || Qlt_bool (gridX g + gridWidth this) x ||
     Qlt_bool y (gridY g) || Qlt_bool (gridY g + gridHeight this) y
  then mret None
  else if Qeq_bool (gridSize g) 0 then mret None
  else
    let col := Qfloor ((x - gridX g) / gridSize g) in
    let row := Qfloor ((y - gridY g) / gridSize g) in
    if (row >=? 0) && (row <? gridRows g) && (col >=? 0) && (col <? gridCols g)
    then
      match grid g !! Z.to_nat row with
      | Some line => mret (line !! Z.to_nat col)
      | None => throw
      end
    else mret None.

(** [calculateScore(cell1, cell2)], which reads neither argument. *)
Definition calculateScore (this : Round) : M Round :=
  match connectionPath this with
  | None => throw
  | Some path =>
      let baseScore := 10 in
      let baseScore :=
        if Z.of_nat (length path) =? 2 then baseScore + 5
        else if Z.of_nat (length path) =? 3 then baseScore + 3
        else if Z.of_nat (length path) =? 4 then baseScore + 1
        else baseScore in
      match JsObject.get (currentLevel (game this)) (levelConfigs (game this)) with
      | None => throw
      | Some levelConfig =>
          let baseScore :=
            if String.eqb (LevelConfig.difficulty levelConfig) "medium"
            then baseScore + 2
            else if String.eqb (LevelConfig.difficulty levelConfig) "hard"
            then baseScore + 5
            else baseScore in
          let timeBonus := timeLeft this / 10 in
          let baseScore := baseScore + timeBonus in
          mret (withScore (score this + baseScore) this)
      end
  end.

Definition tryConnectCells (cell1 cell2 : loc) (this : Round) : M Round :=
  match algorithm (game this) with
  | None => throw
  | Some algorithm =>
      h ← getHeap;
      if LinkGameAlgorithm.canConnect algorithm h (Some cell1) (Some cell2) then
        let this :=
          withConnectionPath
            (LinkGameAlgorithm.getConnectionPath algorithm h cell1 cell2) this in
        writeCell cell1 (set_matched true);;
        writeCell cell2 (set_matched true);;
        this ← calculateScore this;
        let this := withSelectedCell None this in
        let this := withHintCell None this in
        mret (say LogConnected this)
      else
        let this := withSelectedCell (Some cell2) this in
        mret (say LogCannotConnect this)
  end.

Definition handleCellClick (x y : Q) (this : Round) : M Round :=
  cell ← getCellAtPosition x y this;
  match cell with
  | None => mret this
  | Some cell =>
      c ← readCell cell;
      if negb (visible c) || matched c then mret this
      else
        match selectedCell this with
        | None =>
            let this := withSelectedCell (Some cell) this in
            mret (withHintCell None this)
        | Some selected =>
            if bool_decide (selected = cell) then mret (withSelectedCell None this)
            else tryConnectCells selected cell this
        end
  end.

(** [checkLevelComplete()]: the two loops return [false] at the first cell
    that is visible and not matched. *)
Definition checkLevelComplete (this : Round) : M bool :=
  h ← getHeap;
  let g := game this in
  match for_range 0 (gridRows g) (λ r,
          for_range 0 (gridCols g) (λ c,
            match gridAt (grid g) r c ≫= (h !!.) with
            | Some cell =>
                if visible cell && negb (matched cell) then Some (Some false)
                else None
            | None => Some None
            end)) with
  | Some (Some result) => mret result
  | Some None => throw
  | None => mret true
  end.

Definition gameOver (this : Round) : Round :=
  let this := withIsGameOver true this in
  let this := withGameStarted false this in
  say LogGameOver this.

Section Play.
Context (strictBoardValidation : LinkGameAlgorithm.t → Heap → bool).

Definition completeLevel (fuel : nat) (this : Round) : M Round :=
  let this := say (LogLevelComplete (currentLevel (game this))) this in
  let this := withScore (score this + currentLevel (game this) * 50) this in
  if currentLevel (game this) <? totalLevels this then
    let this :=
      withGame (withCurrentLevel (currentLevel (game this) + 1) (game this)) this in
    let this := withTimeLeft 180 this in
    game' ← initializeGrid strictBoardValidation fuel (game this);
    let this := withGame game' this in
    algorithm ← newAlgorithm (grid (game this));
    let this := withGame (withAlgorithm (Some algorithm) (game this)) this in
    mret (say (LogNextLevel (currentLevel (game this))) this)
  else mret (gameOver this).

(** [update(deltaTime)]. The call of [super.update] reads two flags and
    returns. [ticked] is the state after the timer has been updated, with
    [true] when the time is up and the method returns. *)
Definition update (fuel : nat) (deltaTime : Q) (this : Round) : M Round :=
  if negb (gameStarted this) || isGameOver this then mret this
  else
    let this := withLastUpdateTime (lastUpdateTime this + deltaTime) this in
    let ticked : Round * bool :=
      if Qle_bool 1 (lastUpdateTime this) then
        let this := withTimeLeft (timeLeft this - 1) this in
        let this := withLastUpdateTime 0 this in
        if timeLeft this <=? 0 then (gameOver this, true) else (this, false)
      else (this, false) in
    let this := ticked.1 in
    if ticked.2 then mret this
    else
      let this :=
        match connectionPath this with
        | Some _ =>
            let this :=
              withConnectionTimer (connectionTimer this + deltaTime) this in
            if Qle_bool (1 # 2) (connectionTimer this)
            then withConnectionTimer 0 (withConnectionPath None this)
            else this
        | None => this
        end in
      complete ← checkLevelComplete this;
      if (complete : bool) then completeLevel fuel this else mret this.

End Play.

End LinkGame.


(** ** Well-formed boards *)

Module Board.
Import LinkGameAlgorithm.

(** The grid is the [gridRows] by [gridCols] rectangle of [initializeGrid]:
    the cell object at [grid[row][col]] exists and records [row] and [col]
    as its own coordinates. *)
Record wf (this : LinkGameAlgorithm.t) (h : Heap) : Prop := mk_wf {
  wf_rows : gridRows this = Z.of_nat (length (grid this));
  wf_cols : ∀ line, line ∈ grid this → Z.of_nat (length line) = gridCols this;
  wf_cells : ∀ r c l, gridAt (grid this) r c = Some l →
             ∃ cell, h !! l = Some cell ∧ row cell = r ∧ col cell = c
}.

(** The same, as a test that can be run on a concrete board. *)
Definition cell_ok (h : Heap) (r c : nat) (l : loc) : bool :=
  match h !! l with
  | Some cell => (row cell =? Z.of_nat r) && (col cell =? Z.of_nat c)
  | None => false
  end.

Definition wf_check (this : LinkGameAlgorithm.t) (h : Heap) : bool :=
  (gridRows this =? Z.of_nat (length (grid this))) &&
  forallb (λ line, Z.of_nat (length line) =? gridCols this) (grid this) &&
  forallb (λ b : bool, b)
    (imap (λ r line, forallb (λ b : bool, b) (imap (cell_ok h r) line)) (grid this)).

(** [l] is one of the cell objects of the grid. *)
Definition inGrid (this : LinkGameAlgorithm.t) (l : loc) : Prop :=
  ∃ r c, gridAt (grid this) r c = Some l.

(** The cell at a position is empty for path traversal: not visible, or
    matched. *)
Definition emptyAt (this : LinkGameAlgorithm.t) (h : Heap) (r c : Z) : Prop :=
  ∃ l cell, gridAt (grid this) r c = Some l ∧ h !! l = Some cell ∧
            (visible cell = false ∨ matched cell = true).

(** The cell at a position blocks a path: visible and not matched. *)
Definition blockedAt (this : LinkGameAlgorithm.t) (h : Heap) (r c : Z) : Prop :=
  ∃ l cell, gridAt (grid this) r c = Some l ∧ h !! l = Some cell ∧
            visible cell = true ∧ matched cell = false.

(** A position of the board. *)
Definition inBounds (this : LinkGameAlgorithm.t) (r c : Z) : Prop :=
  0 ≤ r < gridRows this ∧ 0 ≤ c < gridCols this.

(** The position [(r, c)] lies strictly between two cells of one row or of
    one column. *)
Definition strictlyBetween {A B : Type} `{Positioned A, Positioned B}
    (cell1 : A) (cell2 : B) (r c : Z) : Prop :=
  (row cell1 = row cell2 ∧ r = row cell1 ∧
   Z.min (col cell1) (col cell2) < c < Z.max (col cell1) (col cell2)) ∨
  (col cell1 = col cell2 ∧ c = col cell1 ∧
   Z.min (row cell1) (row cell2) < r < Z.max (row cell1) (row cell2)).

(** [a] and [b] hold patterns with the same id. *)
Definition samePattern (h : Heap) (a b : loc) : Prop :=
  ∃ p1 p2, pattern (deref h a) = Some p1 ∧ pattern (deref h b) = Some p2 ∧
           id p1 = id p2.

(** The cell is a tile on the board: visible and not matched. *)
Definition isTile (h : Heap) (l : loc) : Prop :=
  visible (deref h l) = true ∧ matched (deref h l) = false.

(** [l] is one of the cell objects of [grid]. *)
Definition inGridOf (grid : Grid) (l : loc) : Prop :=
  ∃ r c, gridAt grid r c = Some l.

End Board.

(** ** Vocabulary of the path search *)

Module Search.
Import LinkGameAlgorithm.

Section Candidates.
Context (this : LinkGameAlgorithm.t) (h : Heap).
Context {A B : Type} `{Positioned A, Positioned B} (cell1 : A) (cell2 : B).

(** [corner] is an empty cell joined to both endpoints by straight lines. *)
Definition turnsAt (corner : Corner) : Prop :=
  isValidCorner this h corner = true ∧
  checkStraightLine this h cell1 corner = true ∧
  checkStraightLine this h corner cell2 = true.

(** Row [r] carries a two-corner route: down (or up) the column of
    [cell1], along row [r], and along the column of [cell2]. *)
Definition routeViaRow (r : Z) : Prop :=
  r ≠ row cell1 ∧ r ≠ row cell2 ∧
  isValidCorner this h (mkCorner r (col cell1)) = true ∧
  isValidCorner this h (mkCorner r (col cell2)) = true ∧
  checkStraightLine this h cell1 (mkCorner r (col cell1)) = true ∧
  checkHorizontalLine this h (mkCorner r (col cell1)) (mkCorner r (col cell2)) = true ∧
  checkStraightLine this h (mkCorner r (col cell2)) cell2 = true.

(** Column [c] carries a two-corner route. *)
Definition routeViaCol (c : Z) : Prop :=
  c ≠ col cell1 ∧ c ≠ col cell2 ∧
  isValidCorner this h (mkCorner (row cell1) c) = true ∧
  isValidCorner this h (mkCorner (row cell2) c) = true ∧
  checkStraightLine this h cell1 (mkCorner (row cell1) c) = true ∧
  checkVerticalLine this h (mkCorner (row cell1) c) (mkCorner (row cell2) c) = true ∧
  checkStraightLine this h (mkCorner (row cell2) c) cell2 = true.
End Candidates.

(** The searches read only the coordinates of their arguments. *)
Definition positionOf {A : Type} `{Positioned A} (a : A) : Corner :=
  mkCorner (row a) (col a).

(** [k] is the least index of [0 .. bound - 1] that satisfies [P]. *)
Definition firstIndex (P : Z → Prop) (bound k : Z) : Prop :=
  0 ≤ k < bound ∧ P k ∧ ∀ k', 0 ≤ k' < k → ¬ P k'.

End Search.

(** ** Vocabulary of the effects *)

(** The call [m] returns from the state [w], with a value and a final
    state that satisfy [post]. *)
Definition returns {A : Type} (m : M A) (w : World) (post : A → World → Prop) : Prop :=
  match m w with
  | Returns a w' => post a w'
  | Throws => False
  | OutOfFuel => False
  end.

(** Every call of [Math.random()] yields a number of the interval [0, 1). *)
Definition randomInRange (w : World) : Prop :=
  ∀ k, (0 <= random w k)%Q ∧ (random w k < 1)%Q.

(** The objects that exist in [h] exist in [h'] with the same fields. *)
Definition unchanged (h h' : Heap) : Prop :=
  ∀ l cell, h !! l = Some cell → h' !! l = Some cell.

(** ** Vocabulary of the generation *)

Module Generation.

(** The algorithm object that [new LinkGameAlgorithm(this.grid)] builds for
    a game whose grid has [gridRows] rows of [gridCols] cells. *)
Definition asAlgorithm (this : LinkGame.t) : LinkGameAlgorithm.t :=
  LinkGameAlgorithm.mk (LinkGame.grid this) (LinkGame.gridRows this)
                       (LinkGame.gridCols this).

(** The grid of the game is the non-empty rectangle of [initializeGrid]. *)
Definition wfGame (this : LinkGame.t) (h : Heap) : Prop :=
  Board.wf (asAlgorithm this) h ∧ 0 < LinkGame.gridRows this.

(** The game has the configuration that [constructor] gives to every game:
    an 8 by 10 grid, the table of the five levels and the 30 patterns of
    [generatePatterns]. *)
Definition configured (this : LinkGame.t) : Prop :=
  LinkGame.gridRows this = 8 ∧
  LinkGame.gridCols this = 10 ∧
  LinkGame.levelConfigs this = LinkGame.levelConfigs (LinkGame.new 0 0 0) ∧
  LinkGame.patterns this = LinkGame.generatePatterns.

(** The number of visible, unmatched cells that hold the pattern id [n]. *)
Definition countVisible (this : LinkGame.t) (h : Heap) (n : Z) : nat :=
  length (filter (λ l, id <$> pattern (LinkGameAlgorithm.deref h l) = Some n)
                 (LinkGame.getVisibleCells this h)).

(** The patterns of the visible, unmatched cells, in row-major order. *)
Definition visiblePatterns (this : LinkGame.t) (h : Heap) : list (option Pattern) :=
  (λ l, pattern (LinkGameAlgorithm.deref h l)) <$> LinkGame.getVisibleCells this h.

(** The visible, unmatched cells hold each pattern of [availablePatterns]
    twice, and nothing else. *)
Definition pairedBoard (this : LinkGame.t) (h : Heap) (availablePatterns : list Pattern)
    : Prop :=
  visiblePatterns this h ≡ₚ Some <$> (availablePatterns ≫= λ p, [p; p]).

(** The number of deep reshuffles that the console has recorded. *)
Definition deepReshuffles (w : World) : nat :=
  length (filter (λ line, line = LogDeepReshuffle) (console w)).

(** The state apart from the draws of [Math.random()] is as before. *)
Definition sameBoard (w w' : World) : Prop :=
  heap w' = heap w ∧ random w' = random w ∧ console w' = console w.

(** What [fillGridWithPatterns] writes into the cell of row-major index [j]
    when [count] cells are to be filled. *)
Definition filled (patternPairs : list Pattern) (count : Z) (j : nat) (cell : Cell)
    : Cell :=
  if Z.of_nat j <? count
  then set_matched false (set_visible true (set_pattern (patternPairs !! j) cell))
  else set_matched true (set_visible false cell).

(** What one iteration of the loop guarantees. *)
Definition attempted (availablePatterns : list Pattern)
    (this : LinkGame.t) (locals : LinkGame.Locals) (w : World)
    (result : LinkGame.t * LinkGame.Locals) (w' : World) : Prop :=
  result.1 = LinkGame.withAlgorithm (Some (asAlgorithm this)) this ∧
  wfGame result.1 (heap w') ∧
  random w' = random w ∧
  ((LinkGame.retryCount result.2 = LinkGame.retryCount locals ∧
    LinkGame.isSolvable result.2 = true) ∨
   LinkGame.retryCount result.2 = LinkGame.retryCount locals + 1) ∧
  (deepReshuffles w' = deepReshuffles w ∨
   (deepReshuffles w' = Datatypes.S (deepReshuffles w) ∧
    LinkGame.maxRetries ≤ LinkGame.retryCount result.2)) ∧
  (2 * Z.of_nat (length availablePatterns) ≤
     LinkGame.gridRows this * LinkGame.gridCols this →
   pairedBoard result.1 (heap w') availablePatterns).

(** The condition of the [while] loop. *)
Definition entered (locals : LinkGame.Locals) : Prop :=
  LinkGame.isSolvable locals = false ∧
  LinkGame.retryCount locals < LinkGame.maxRetries.

(** What the [while] loop guarantees when it is reached at [locals]. *)
Definition generated (availablePatterns : list Pattern)
    (this : LinkGame.t) (locals : LinkGame.Locals) (w : World)
    (result : LinkGame.t * LinkGame.Locals) (w' : World) : Prop :=
  (¬ entered locals → result = (this, locals) ∧ w' = w) ∧
  (entered locals →
     result.1 = LinkGame.withAlgorithm (Some (asAlgorithm this)) this ∧
     (2 * Z.of_nat (length availablePatterns) ≤
        LinkGame.gridRows this * LinkGame.gridCols this →
      pairedBoard result.1 (heap w') availablePatterns)) ∧
  wfGame result.1 (heap w') ∧
  random w' = random w ∧
  LinkGame.retryCount locals ≤ LinkGame.retryCount result.2 ∧
  (LinkGame.retryCount locals ≤ LinkGame.maxRetries →
   LinkGame.retryCount result.2 ≤ LinkGame.maxRetries) ∧
  (deepReshuffles w ≤ deepReshuffles w' ≤ deepReshuffles w + 1)%nat.

End Generation.
(** ** Numbers *)

Module Numbers.

(** [Number.isSafeInteger(n)]: an integer that a number of the code holds
    exactly, and tells from its neighbours. *)
Definition isSafeInteger (n : Z) : Prop := - (2 ^ 53 - 1) ≤ n ≤ 2 ^ 53 - 1.

End Numbers.

(** ** Vocabulary of the pair search and of the simulation *)

Module Simulation.
Import LinkGameAlgorithm Board.

(** The algorithm object seen through another grid of the same size: the
    checks that take the grid as an argument read [this.gridRows] and
    [this.gridCols], and the cells of [grid]. *)
Definition onGrid (this : LinkGameAlgorithm.t) (grid : Grid) : LinkGameAlgorithm.t :=
  LinkGameAlgorithm.mk grid (gridRows this) (gridCols this).

(** The cells of [cells] that hold the pattern id [k], in their order. *)
Definition holding (h : Heap) (k : Z) (cells : list loc) : list loc :=
  filter (λ l, id <$> pattern (deref h l) = Some k) cells.

(** A move of the game: two visible, unmatched cells of the grid that
    [canConnect] accepts. *)
Definition move (this : LinkGameAlgorithm.t) (h : Heap) (a b : loc) : Prop :=
  inGrid this a ∧ inGrid this b ∧ isTile h a ∧ isTile h b ∧
  canConnect this h (Some a) (Some b) = true.

(** The store after [a.matched = true; b.matched = true]. *)
Definition eliminate (a b : loc) (h : Heap) : Heap :=
  let h := <[a := set_matched true (deref h a)]> h in
  <[b := set_matched true (deref h b)]> h.

(** The board can be cleared: some sequence of moves removes every visible
    cell. *)
Inductive clearable (this : LinkGameAlgorithm.t) : Heap → Prop :=
  | clearable_done h :
      LinkGameAlgorithm.getVisibleCells this h = [] → clearable this h
  | clearable_move h a b :
      move this h a b → clearable this (eliminate a b h) → clearable this h.

(** Two boards of the same size that show the same at every position. *)
Definition alike (this : LinkGameAlgorithm.t) (h : Heap)
    (this' : LinkGameAlgorithm.t) (h' : Heap) : Prop :=
  gridRows this' = gridRows this ∧ gridCols this' = gridCols this ∧
  ∀ r c l l',
    gridAt (grid this) r c = Some l → gridAt (grid this') r c = Some l' →
    pattern (deref h' l') = pattern (deref h l) ∧
    visible (deref h' l') = visible (deref h l) ∧
    matched (deref h' l') = matched (deref h l).

(** The number of visible, unmatched cells that hold the pattern id [k]. *)
Definition tilesOf (this : LinkGameAlgorithm.t) (h : Heap) (k : Z) : nat :=
  length (holding h k (LinkGameAlgorithm.getVisibleCells this h)).

End Simulation.


(** ** Vocabulary of routes *)

Module Routes.
Import LinkGameAlgorithm Board.

(** The straight leg between two points is clear: the points share a row
    or a column, and every cell strictly between them is empty. A point is
    [{ x: col, y: row }]. *)
Definition clearLeg (this : LinkGameAlgorithm.t) (h : Heap) (p q : Point) : Prop :=
  (y p = y q ∧
   ∀ c, Z.min (x p) (x q) < c < Z.max (x p) (x q) → emptyAt this h (y p) c) ∨
  (x p = x q ∧
   ∀ r, Z.min (y p) (y q) < r < Z.max (y p) (y q) → emptyAt this h r (x p)).

(** A route from [p] to [q] that turns at the points of [turns], in order:
    every leg is clear and every turning point is an empty cell. *)
Fixpoint route (this : LinkGameAlgorithm.t) (h : Heap)
    (p : Point) (turns : list Point) (q : Point) : Prop :=
  match turns with
  | [] => clearLeg this h p q
  | t :: turns' =>
      clearLeg this h p t ∧ emptyAt this h (y t) (x t) ∧ route this h t turns' q
  end.

End Routes.

(** ** Vocabulary of a round of play *)

Module Play.
Import LinkGameAlgorithm Board Generation Simulation.

(** A game in which cells can be clicked: the grid is well formed, the
    algorithm object is the one that [init] and [completeLevel] create for
    it, and the current level is one of the table. *)
Definition playable (this : LinkGame.Round) (h : Heap) : Prop :=
  wfGame (LinkGame.game this) h ∧
  LinkGame.algorithm (LinkGame.game this) = Some (asAlgorithm (LinkGame.game this)) ∧
  is_Some (JsObject.get (LinkGame.currentLevel (LinkGame.game this))
                        (LinkGame.levelConfigs (LinkGame.game this))).

(** The game has the configuration of [constructor] and is at one of its
    five levels. *)
Definition ofTheGame (this : LinkGame.Round) : Prop :=
  configured (LinkGame.game this) ∧
  1 ≤ LinkGame.currentLevel (LinkGame.game this) ≤ 5 ∧
  LinkGame.totalLevels this = 5.

(** The selected cell, if there is one, is a visible, unmatched cell of the
    grid. *)
Definition selectionOk (this : LinkGame.Round) (h : Heap) : Prop :=
  ∀ l, LinkGame.selectedCell this = Some l →
       inGrid (asAlgorithm (LinkGame.game this)) l ∧ isTile h l.

(** The points of [calculateScore] for the shape of the path: 5, 3 and 1
    for a path of 2, 3 and 4 points. *)
Definition pathBonus (path : list Point) : Z := 9 - 2 * Z.of_nat (length path).

(** The points of [calculateScore] for the difficulty of the level. *)
Definition difficultyBonus (this : LinkGame.Round) : Z :=
  match JsObject.get (LinkGame.currentLevel (LinkGame.game this))
                     (LinkGame.levelConfigs (LinkGame.game this)) with
  | Some levelConfig =>
      if String.eqb (LevelConfig.difficulty levelConfig) "medium" then 2
      else if String.eqb (LevelConfig.difficulty levelConfig) "hard" then 5
      else 0
  | None => 0
  end.

(** The point [(x, y)] of the canvas lies on the grid: the rectangle of
    the cells, without its right and lower edges. *)
Definition onBoard (this : LinkGame.Round) (x y : Q) : Prop :=
  let g := LinkGame.game this in
  (LinkGame.gridX g <= x)%Q ∧ (x < LinkGame.gridX g + LinkGame.gridWidth this)%Q ∧
  (LinkGame.gridY g <= y)%Q ∧ (y < LinkGame.gridY g + LinkGame.gridHeight this)%Q.

(** The point [(x, y)] lies on the square of the cell at row [r] and column
    [c]: [initializeGrid] places the cell at [x = gridX + c * gridSize],
    [y = gridY + r * gridSize], and the square has the side [gridSize]. *)
Definition onSquare (this : LinkGame.Round) (r c : Z) (x y : Q) : Prop :=
  let g := LinkGame.game this in
  let s := LinkGame.gridSize g in
  (LinkGame.gridX g + inject_Z c * s <= x)%Q ∧
  (x < LinkGame.gridX g + inject_Z (c + 1) * s)%Q ∧
  (LinkGame.gridY g + inject_Z r * s <= y)%Q ∧
  (y < LinkGame.gridY g + inject_Z (r + 1) * s)%Q.

(** The geometry that [calculateGridDimensions] sets up: cells of a
    positive size, on a grid as wide and as high as its cells together. *)
Definition laidOut (this : LinkGame.Round) : Prop :=
  let g := LinkGame.game this in
  (0 < LinkGame.gridSize g)%Q ∧
  (LinkGame.gridWidth this == inject_Z (LinkGame.gridCols g) * LinkGame.gridSize g)%Q ∧
  (LinkGame.gridHeight this == inject_Z (LinkGame.gridRows g) * LinkGame.gridSize g)%Q.

End Play.


(** ** Boards for the examples *)

Module Examples.

(** A tile of pattern [n], visible and unmatched, at a position. *)
Definition tile (n : Z) (r c : Z) : Cell :=
  mkCell r c (Some (mkPattern n "#FF6B6B" "circle" "circle_FF6B6B"))
         true false 0%Q 0%Q.

(** An unfilled cell, as [fillGridWithPatterns] leaves it. *)
Definition hole (r c : Z) : Cell :=
  mkCell r c None false true 0%Q 0%Q.

(** A tile that has been removed by a successful connection. *)
Definition removed (n : Z) (r c : Z) : Cell :=
  set_matched true (tile n r c).

(** A board from a picture: the cells are allocated in row-major order and
    the cell made by [picture[r][c]] gets the coordinates [(r, c)]. *)
Definition heapOf (picture : list (list (Z → Z → Cell))) : Heap :=
  concat (imap (λ r line, imap (λ c mk, mk (Z.of_nat r) (Z.of_nat c)) line) picture).

Fixpoint gridFrom (next : nat) (picture : list (list (Z → Z → Cell))) : Grid :=
  match picture with
  | [] => []
  | line :: rest => seq next (length line) :: gridFrom (next + length line) rest
  end.

Definition algorithmOf (picture : list (list (Z → Z → Cell))) : LinkGameAlgorithm.t :=
  LinkGameAlgorithm.mk (gridFrom 0 picture)
    (Z.of_nat (length picture))
    (Z.of_nat (length (default [] (head picture)))).

(** A cell as [initializeGrid] creates it, before any pattern is assigned. *)
Definition blank (r c : Z) : Cell :=
  mkCell r c None false false 0%Q 0%Q.

(** The game of [constructor], at the moment [initializeGrid] has created
    the 8 by 10 cells and is about to call [fillGridWithPatterns]. *)
Definition blankPicture : list (list (Z → Z → Cell)) :=
  replicate 8 (replicate 10 blank).

Definition newGame : LinkGame.t :=
  LinkGame.withGrid (gridFrom 0 blankPicture) (LinkGame.new (40 # 1) 0 (30 # 1)).

(** A source of random numbers: every draw is one third. *)
Definition thirds : nat → Q := λ _, (1 # 3)%Q.

Definition newWorld : World := mkWorld (heapOf blankPicture) thirds 0 [].

(** A validation that reads the board and leaves it alone: the verdict of
    [isBoardSolvable] on a scratch copy of the state. *)
Definition validateBySimulation (algorithm : LinkGameAlgorithm.t) (h : Heap) : bool :=
  match LinkGameAlgorithm.isBoardSolvable algorithm (mkWorld h thirds 0 []) with
  | Returns verdict _ => verdict
  | Throws => false
  | OutOfFuel => false
  end.

(** A row with a gap between two tiles of pattern 7. *)
Definition gapRow : list (list (Z → Z → Cell)) :=
  [[tile 7; hole; tile 7]].

(** Two tiles of pattern 1 with a tile between them: the upper row is
    occupied, the lower row is free. *)
Definition detour : list (list (Z → Z → Cell)) :=
  [[tile 7; hole; tile 7];
   [tile 1; tile 2; tile 1];
   [hole; hole; hole]].

(** The same board after the tile in the middle has been removed. *)
Definition detourCleared : list (list (Z → Z → Cell)) :=
  [[tile 7; hole; tile 7];
   [tile 1; removed 2; tile 1];
   [hole; hole; hole]].

(** The 2 by 2 board of the end-to-end scenario: pattern 7 at [(0, 0)] and
    [(1, 1)]. *)
Definition diagonal : list (list (Z → Z → Cell)) :=
  [[tile 7; hole];
   [hole; tile 7]].

(** Two tiles of pattern 7 side by side. *)
Definition neighbours : list (list (Z → Z → Cell)) :=
  [[tile 7; tile 7];
   [hole; hole]].

(** Three pairs that leave the board one after the other: the tiles of
    pattern 1 connect once the tiles of pattern 2 between and below them
    are gone. *)
Definition threePairs : list (list (Z → Z → Cell)) :=
  [[tile 7; hole; tile 7];
   [tile 1; tile 2; tile 1];
   [hole; tile 2; hole]].

(** The first level of the game: ten patterns on the 8 by 10 grid. *)
Definition levelOne : LevelConfig.t := LevelConfig.mk 10 "top" "easy".

(** A game on the board of a picture, with cells of 40 pixels, at the
    first level. *)
Definition gameOn (picture : list (list (Z → Z → Cell))) : LinkGame.t :=
  LinkGame.mk (Z.of_nat (length picture))
    (Z.of_nat (length (default [] (head picture))))
    (40 # 1) 0 (30 # 1) 1 (gridFrom 0 picture) (Some (algorithmOf picture))
    (LinkGame.levelConfigs (LinkGame.new (40 # 1) 0 (30 # 1)))
    LinkGame.generatePatterns.

(** A round that has started on the grid of a game, with three minutes on
    the clock and nothing selected. *)
Definition roundOf (g : LinkGame.t) : LinkGame.Round :=
  LinkGame.mkRound g
    (inject_Z (LinkGame.gridCols g) * LinkGame.gridSize g)
    (inject_Z (LinkGame.gridRows g) * LinkGame.gridSize g)
    5 0 180 true false None None None 0 0 [].

Definition worldOf (picture : list (list (Z → Z → Cell))) : World :=
  mkWorld (heapOf picture) thirds 0 [].

(** The game of [constructor] with its 8 by 10 cells and the algorithm
    object of [init]. *)
Definition startedGame : LinkGame.t :=
  LinkGame.withAlgorithm (Some (algorithmOf blankPicture)) newGame.

End Examples.

(** * Properties *)

Import LinkGameAlgorithm Board Search Generation.

(** ** Loops *)

Lemma for_from_None {R} (body : Z → option R) i n :
  for_from body i n = None ↔ ∀ k, i ≤ k < i + Z.of_nat n → body k = None.
Proof.
  revert i. induction n as [|n IH]; intros i; simpl.
  - split; [intros _ k Hk; lia | done].
  - destruct (body i) as [r|] eqn:Hb.
    + split; [done|]. intros Hall. rewrite Hall in Hb by lia. done.
    + rewrite IH. split; intros Hall k Hk.
      * destruct (decide (k = i)) as [->|]; [done|]. apply Hall. lia.
      * apply Hall. lia.
Qed.

Lemma for_from_Some {R} (body : Z → option R) i n res :
  for_from body i n = Some res ↔
  ∃ k, i ≤ k < i + Z.of_nat n ∧ body k = Some res ∧
       ∀ k', i ≤ k' < k → body k' = None.
Proof.
  revert i. induction n as [|n IH]; intros i; simpl.
  - split; [done|]. intros (k & Hk & _). lia.
  - destruct (body i) as [r|] eqn:Hb.
    + split.
      * intros [= <-]. exists i. split; [lia|]. split; [done|]. intros; lia.
      * intros (k & Hk & Hres & Hmin).
        destruct (decide (k = i)) as [->|]; [congruence|].
        rewrite Hmin in Hb by lia. done.
    + rewrite IH. split; intros (k & Hk & Hres & Hmin); exists k.
      * split; [lia|]. split; [done|]. intros k' Hk'.
        destruct (decide (k' = i)) as [->|]; [done|]. apply Hmin. lia.
      * assert (k ≠ i) by congruence.
        split; [lia|]. split; [done|]. intros k' Hk'. apply Hmin. lia.
Qed.

Lemma for_range_None {R} (body : Z → option R) lo hi :
  for_range lo hi body = None ↔ ∀ k, lo ≤ k < hi → body k = None.
Proof.
  unfold for_range. rewrite for_from_None.
  split; intros Hall k Hk; apply Hall; lia.
Qed.

Lemma for_range_Some {R} (body : Z → option R) lo hi res :
  for_range lo hi body = Some res ↔
  ∃ k, lo ≤ k < hi ∧ body k = Some res ∧ ∀ k', lo ≤ k' < k → body k' = None.
Proof.
  unfold for_range. rewrite for_from_Some.
  split; intros (k & Hk & Hres & Hmin); exists k; (split; [lia|done]).
Qed.

Lemma for_range_is_Some {R} (body : Z → option R) lo hi :
  is_Some (for_range lo hi body) ↔ ∃ k, lo ≤ k < hi ∧ is_Some (body k).
Proof.
  split.
  - intros [res Hres]. apply for_range_Some in Hres as (k & Hk & Hb & _).
    exists k. rewrite Hb. eauto.
  - intros (k & Hk & Hb).
    destruct (for_range lo hi body) as [res|] eqn:Hfr; [eauto|].
    rewrite for_range_None in Hfr. rewrite Hfr in Hb by done.
    by destruct Hb.
Qed.

(** ** Well-formed boards *)

Lemma gridAt_Some grid r c l :
  gridAt grid r c = Some l ↔
  0 ≤ r ∧ 0 ≤ c ∧ ∃ line, grid !! Z.to_nat r = Some line ∧ line !! Z.to_nat c = Some l.
Proof.
  unfold gridAt. destruct (r <? 0) eqn:Hr; [|destruct (c <? 0) eqn:Hc]; simpl.
  - split; [done|]. intros (? & _). lia.
  - split; [done|]. intros (_ & ? & _). lia.
  - rewrite bind_Some. split.
    + intros (line & ? & ?). repeat split; [lia..|eauto].
    + intros (_ & _ & line & ? & ?). eauto.
Qed.

Lemma wf_check_sound this h : wf_check this h = true → wf this h.
Proof.
  unfold wf_check. rewrite !andb_true_iff, !forallb_forall.
  intros [[Hrows Hcols] Hcells]. split.
  - lia.
  - intros line Hin. apply list_elem_of_In, Hcols in Hin. lia.
  - intros r c l (Hr & Hc & line & Hline & Hl)%gridAt_Some.
    assert (Hrow : forallb (λ b : bool, b) (imap (cell_ok h (Z.to_nat r)) line) = true).
    { apply Hcells, list_elem_of_In, list_elem_of_lookup.
      exists (Z.to_nat r). rewrite list_lookup_imap, Hline. done. }
    rewrite forallb_forall in Hrow.
    assert (Hok : cell_ok h (Z.to_nat r) (Z.to_nat c) l = true).
    { apply Hrow, list_elem_of_In, list_elem_of_lookup.
      exists (Z.to_nat c). rewrite list_lookup_imap, Hl. done. }
    unfold cell_ok in Hok. destruct (h !! l) as [cell|]; [|done].
    exists cell. apply andb_true_iff in Hok as [?%Z.eqb_eq ?%Z.eqb_eq].
    split; [done|]. lia.
Qed.

Section Wf.
Context (this : LinkGameAlgorithm.t) (h : Heap) (Hwf : wf this h).

Lemma gridAt_inBounds r c l :
  gridAt (grid this) r c = Some l → inBounds this r c.
Proof.
  intros (Hr & Hc & line & Hline & Hl)%gridAt_Some.
  pose proof (wf_rows _ _ Hwf) as Hrows.
  pose proof (wf_cols _ _ Hwf line) as Hcols.
  apply lookup_lt_Some in Hl as Hl'. apply lookup_lt_Some in Hline as Hline'.
  unfold inBounds. rewrite <- Hcols by (eapply list_elem_of_lookup_2; eauto).
  lia.
Qed.

Lemma gridAt_defined r c :
  inBounds this r c → ∃ l cell, gridAt (grid this) r c = Some l ∧
                                h !! l = Some cell ∧ row cell = r ∧ col cell = c.
Proof.
  intros [Hr Hc]. pose proof (wf_rows _ _ Hwf) as Hrows.
  destruct (lookup_lt_is_Some_2 (grid this) (Z.to_nat r)) as [line Hline]; [lia|].
  pose proof (wf_cols _ _ Hwf line) as Hcols.
  destruct (lookup_lt_is_Some_2 line (Z.to_nat c)) as [l Hl].
  { apply list_elem_of_lookup_2 in Hline. apply Hcols in Hline. lia. }
  assert (Hat : gridAt (grid this) r c = Some l).
  { apply gridAt_Some. repeat split; [lia..|eauto]. }
  destruct (wf_cells _ _ Hwf _ _ _ Hat) as (cell & ? & ? & ?). eauto 10.
Qed.

(** Within bounds [isCellEmpty] never reads a missing cell. *)
Lemma isCellEmpty_defined r c :
  inBounds this r c → is_Some (gridAt (grid this) r c ≫= (h !!.)).
Proof.
  intros (l & cell & -> & Hcell & _)%gridAt_defined. simpl. rewrite Hcell. eauto.
Qed.

Lemma inGrid_deref l :
  inGrid this l →
  h !! l = Some (deref h l) ∧
  gridAt (grid this) (row (deref h l)) (col (deref h l)) = Some l.
Proof.
  intros (r & c & Hat).
  destruct (wf_cells _ _ Hwf _ _ _ Hat) as (cell & Hcell & <- & <-).
  unfold deref. rewrite (list_lookup_total_correct _ _ _ Hcell). done.
Qed.

Lemma inGrid_inBounds l :
  inGrid this l → inBounds this (row (deref h l)) (col (deref h l)).
Proof. intros [_ Hat]%inGrid_deref. by eapply gridAt_inBounds. Qed.

(** Distinct cell objects sit at distinct positions. *)
Lemma inGrid_position_inj l1 l2 :
  inGrid this l1 → inGrid this l2 →
  row (deref h l1) = row (deref h l2) →
  col (deref h l1) = col (deref h l2) → l1 = l2.
Proof.
  intros [_ H1]%inGrid_deref [_ H2]%inGrid_deref Hr Hc.
  rewrite Hr, Hc in H1. congruence.
Qed.

Lemma isCellEmpty_true r c :
  isCellEmpty this h r c = true ↔ emptyAt this h r c.
Proof.
  unfold isCellEmpty, emptyAt. split.
  - destruct (_ || _) eqn:Hb; [done|].
    destruct (gridAt (grid this) r c) as [l|]; simpl; [|done].
    destruct (h !! l) as [cell|] eqn:Hcell; [|done].
    intros Hempty. exists l, cell. repeat split; [done|].
    destruct (visible cell), (matched cell); simpl in *; auto.
  - intros (l & cell & Hat & Hcell & Hempty).
    apply gridAt_inBounds in Hat as Hin. destruct Hin as [? ?].
    rewrite Hat. simpl. rewrite Hcell.
    replace (_ || _ || _ || _) with false.
    + destruct Hempty as [-> | ->]; [done|]. apply orb_true_r.
    + symmetry. rewrite !orb_false_iff. repeat split; lia.
Qed.

Lemma isCellEmpty_false r c :
  inBounds this r c → isCellEmpty this h r c = false ↔ blockedAt this h r c.
Proof.
  intros Hin. destruct (gridAt_defined _ _ Hin) as (l & cell & Hat & Hcell & _).
  split.
  - intros Hf. exists l, cell. split; [done|]. split; [done|].
    destruct (visible cell) eqn:Hv, (matched cell) eqn:Hm; try done;
      exfalso; apply not_true_iff_false in Hf; apply Hf, isCellEmpty_true;
      exists l, cell; auto.
  - intros (l' & cell' & Hat' & Hcell' & Hv & Hm).
    apply not_true_iff_false. intros (l'' & cell'' & ? & ? & Hempty)%isCellEmpty_true.
    simplify_eq. destruct Hempty; congruence.
Qed.

End Wf.

Lemma isCellEmpty_outside this h r c :
  r < 0 ∨ gridRows this ≤ r ∨ c < 0 ∨ gridCols this ≤ c →
  isCellEmpty this h r c = false.
Proof.
  intros Hout. unfold isCellEmpty.
  replace (_ || _ || _ || _) with true; [done|].
  symmetry. rewrite !orb_true_iff. lia.
Qed.

Lemma isCellEmpty_inBounds this h r c :
  isCellEmpty this h r c = true → inBounds this r c.
Proof.
  intros He. unfold inBounds.
  destruct (decide (r < 0 ∨ gridRows this ≤ r ∨ c < 0 ∨ gridCols this ≤ c)) as [Hout|];
    [|lia].
  rewrite isCellEmpty_outside in He by done. done.
Qed.

(** ** Straight lines *)

Section Lines.
Context (this : LinkGameAlgorithm.t) (h : Heap).
Context {A B : Type} `{Positioned A, Positioned B}.

Lemma checkHorizontalLine_true (cell1 : A) (cell2 : B) :
  checkHorizontalLine this h cell1 cell2 = true ↔
  ∀ c, Z.min (col cell1) (col cell2) < c < Z.max (col cell1) (col cell2) →
       isCellEmpty this h (row cell1) c = true.
Proof.
  unfold checkHorizontalLine. cbv zeta.
  destruct (for_range _ _ _) as [b|] eqn:Hloop.
  - apply for_range_Some in Hloop as (k & Hk & Hbody & _).
    destruct (isCellEmpty this h (row cell1) k) eqn:He; simpl in Hbody; [done|].
    injection Hbody as <-. split; [done|].
    intros Hall. rewrite Hall in He by lia. done.
  - rewrite for_range_None in Hloop. split; [|done]. intros _ c Hc.
    specialize (Hloop c). destruct (isCellEmpty this h (row cell1) c); [done|].
    simpl in Hloop. discriminate Hloop. lia.
Qed.

Lemma checkVerticalLine_true (cell1 : A) (cell2 : B) :
  checkVerticalLine this h cell1 cell2 = true ↔
  ∀ r, Z.min (row cell1) (row cell2) < r < Z.max (row cell1) (row cell2) →
       isCellEmpty this h r (col cell1) = true.
Proof.
  unfold checkVerticalLine. cbv zeta.
  destruct (for_range _ _ _) as [b|] eqn:Hloop.
  - apply for_range_Some in Hloop as (k & Hk & Hbody & _).
    destruct (isCellEmpty this h k (col cell1)) eqn:He; simpl in Hbody; [done|].
    injection Hbody as <-. split; [done|].
    intros Hall. rewrite Hall in He by lia. done.
  - rewrite for_range_None in Hloop. split; [|done]. intros _ r Hr.
    specialize (Hloop r). destruct (isCellEmpty this h r (col cell1)); [done|].
    simpl in Hloop. discriminate Hloop. lia.
Qed.

Lemma checkStraightLine_row (cell1 : A) (cell2 : B) :
  row cell1 = row cell2 →
  checkStraightLine this h cell1 cell2 = checkHorizontalLine this h cell1 cell2.
Proof. intros Hr. unfold checkStraightLine. by rewrite (proj2 (Z.eqb_eq _ _) Hr). Qed.

Lemma checkStraightLine_col (cell1 : A) (cell2 : B) :
  row cell1 ≠ row cell2 → col cell1 = col cell2 →
  checkStraightLine this h cell1 cell2 = checkVerticalLine this h cell1 cell2.
Proof.
  intros Hr Hc. unfold checkStraightLine.
  by rewrite (proj2 (Z.eqb_neq _ _) Hr), (proj2 (Z.eqb_eq _ _) Hc).
Qed.

Lemma checkStraightLine_neither (cell1 : A) (cell2 : B) :
  row cell1 ≠ row cell2 → col cell1 ≠ col cell2 →
  checkStraightLine this h cell1 cell2 = false.
Proof.
  intros Hr Hc. unfold checkStraightLine.
  by rewrite (proj2 (Z.eqb_neq _ _) Hr), (proj2 (Z.eqb_neq _ _) Hc).
Qed.

End Lines.

(** The line checks do not depend on the order of their arguments. *)
Section LinesSym.
Context (this : LinkGameAlgorithm.t) (h : Heap).
Context {A B : Type} `{Positioned A, Positioned B}.

Lemma checkHorizontalLine_sym (cell1 : A) (cell2 : B) :
  row cell1 = row cell2 →
  checkHorizontalLine this h cell1 cell2 = checkHorizontalLine this h cell2 cell1.
Proof.
  intros Hr. apply eq_true_iff_eq. rewrite !checkHorizontalLine_true, Hr.
  split; intros Hall c Hc; apply Hall; lia.
Qed.

Lemma checkVerticalLine_sym (cell1 : A) (cell2 : B) :
  col cell1 = col cell2 →
  checkVerticalLine this h cell1 cell2 = checkVerticalLine this h cell2 cell1.
Proof.
  intros Hc. apply eq_true_iff_eq. rewrite !checkVerticalLine_true, Hc.
  split; intros Hall r Hr; apply Hall; lia.
Qed.

Lemma checkStraightLine_sym (cell1 : A) (cell2 : B) :
  checkStraightLine this h cell1 cell2 = checkStraightLine this h cell2 cell1.
Proof.
  unfold checkStraightLine. rewrite (Z.eqb_sym (row cell2)), (Z.eqb_sym (col cell2)).
  destruct (row cell1 =? row cell2) eqn:Hr.
  - apply checkHorizontalLine_sym. lia.
  - destruct (col cell1 =? col cell2) eqn:Hc; [|done].
    apply checkVerticalLine_sym. lia.
Qed.

End LinesSym.

(** ** Writes to the flags of a cell *)

Lemma row_set_flags v m (cell : Cell) :
  row (set_matched m (set_visible v cell)) = row cell ∧
  col (set_matched m (set_visible v cell)) = col cell.
Proof. done. Qed.

Lemma wf_update this h l cell cell' :
  wf this h → h !! l = Some cell →
  row cell' = row cell → col cell' = col cell →
  wf this (<[l := cell']> h).
Proof.
  intros [Hrows Hcols Hcells] Hl Hr Hc. split; [done..|].
  intros r c l' Hat. destruct (Hcells _ _ _ Hat) as (cell0 & Hcell0 & ? & ?).
  destruct (decide (l = l')) as [<-|Hne].
  - exists cell'. rewrite list_lookup_insert_eq by (by eapply lookup_lt_Some).
    split; [done|]. simplify_eq. split; congruence.
  - exists cell0. by rewrite list_lookup_insert_ne.
Qed.

Lemma deref_update_ne (h : Heap) l l' cell' :
  l ≠ l' → deref (<[l := cell']> h) l' = deref h l'.
Proof. intros Hne. unfold deref. by rewrite list_lookup_total_insert_ne. Qed.

(** ** C4: straight-line connectivity *)

(** C4. For two distinct cells of the grid: if they share a row,
    [checkStraightLine] succeeds exactly when every cell strictly between
    them in that row is empty (not visible, or matched); likewise for a
    shared column; cells sharing neither row nor column never connect by a
    straight line; and writing [visible = true], [matched = false] into any
    cell strictly between them makes [checkStraightLine] false. *)
Theorem straight_line_connectivity this h a b :
  wf this h → inGrid this a → inGrid this b → a ≠ b →
  let cell1 := deref h a in
  let cell2 := deref h b in
  (row cell1 = row cell2 →
     checkStraightLine this h cell1 cell2 = true ↔
     ∀ c, Z.min (col cell1) (col cell2) < c < Z.max (col cell1) (col cell2) →
          emptyAt this h (row cell1) c) ∧
  (col cell1 = col cell2 →
     checkStraightLine this h cell1 cell2 = true ↔
     ∀ r, Z.min (row cell1) (row cell2) < r < Z.max (row cell1) (row cell2) →
          emptyAt this h r (col cell1)) ∧
  (row cell1 ≠ row cell2 → col cell1 ≠ col cell2 →
     checkStraightLine this h cell1 cell2 = false) ∧
  (∀ r c l cell,
     strictlyBetween cell1 cell2 r c →
     gridAt (grid this) r c = Some l → h !! l = Some cell →
     let h' := <[l := set_matched false (set_visible true cell)]> h in
     checkStraightLine this h' (deref h' a) (deref h' b) = false).
Proof.
  intros Hwf Ha Hb Hab cell1 cell2.
  assert (Hpos : row cell1 ≠ row cell2 ∨ col cell1 ≠ col cell2).
  { destruct (decide (row cell1 = row cell2)) as [Hr|]; [|by left].
    destruct (decide (col cell1 = col cell2)) as [Hc|]; [|by right].
    destruct Hab. by eapply inGrid_position_inj. }
  split; [|split; [|split]].
  - intros Hr. rewrite checkStraightLine_row, checkHorizontalLine_true by done.
    split; intros Hall c Hc; [apply (isCellEmpty_true this h Hwf)|
                              apply (isCellEmpty_true this h Hwf)]; by apply Hall.
  - intros Hc. rewrite checkStraightLine_col, checkVerticalLine_true by tauto.
    split; intros Hall r Hr; [apply (isCellEmpty_true this h Hwf)|
                              apply (isCellEmpty_true this h Hwf)]; by apply Hall.
  - apply checkStraightLine_neither.
  - intros r c l cell Hbetween Hat Hcell h'.
    assert (Hwf' : wf this h') by (by eapply wf_update).
    assert (Hblocked : isCellEmpty this h' r c = false).
    { apply (isCellEmpty_false this h' Hwf').
      - by eapply gridAt_inBounds.
      - exists l, (set_matched false (set_visible true cell)).
        split; [done|]. split; [|done].
        apply list_lookup_insert_eq. by eapply lookup_lt_Some. }
    destruct (inGrid_deref this h Hwf a Ha) as [_ Hata].
    destruct (inGrid_deref this h Hwf b Hb) as [_ Hatb].
    fold cell1 in Hata. fold cell2 in Hatb.
    assert (Hla : l ≠ a).
    { intros ->. assert (r = row cell1 ∧ c = col cell1) as [-> ->].
      { destruct (wf_cells _ _ Hwf _ _ _ Hat) as (? & ? & ? & ?).
        destruct (wf_cells _ _ Hwf _ _ _ Hata) as (? & ? & ? & ?).
        simplify_eq. split; congruence. }
      destruct Hbetween as [(_ & _ & ?)|(_ & _ & ?)]; lia. }
    assert (Hlb : l ≠ b).
    { intros ->. assert (r = row cell2 ∧ c = col cell2) as [-> ->].
      { destruct (wf_cells _ _ Hwf _ _ _ Hat) as (? & ? & ? & ?).
        destruct (wf_cells _ _ Hwf _ _ _ Hatb) as (? & ? & ? & ?).
        simplify_eq. split; congruence. }
      destruct Hbetween as [(_ & _ & ?)|(_ & _ & ?)]; lia. }
    unfold h' at 2 3. rewrite !deref_update_ne by done. fold cell1 cell2.
    apply not_true_iff_false. intros Hline.
    destruct Hbetween as [(Hr & -> & Hc)|(Hc & -> & Hr)].
    + rewrite checkStraightLine_row, checkHorizontalLine_true in Hline by done.
      rewrite Hline in Hblocked by done. done.
    + rewrite checkStraightLine_col, checkVerticalLine_true in Hline by (done || lia).
      rewrite Hline in Hblocked by done. done.
Qed.

(** ** The corner searches *)

Section Corners.
Context (this : LinkGameAlgorithm.t) (h : Heap).
Context {A B : Type} `{Positioned A, Positioned B} (cell1 : A) (cell2 : B).

Lemma turnsAt_dec corner : Decision (turnsAt this h cell1 cell2 corner).
Proof. unfold turnsAt. apply _. Qed.

Lemma turnsAt_true corner :
  isValidCorner this h corner && checkStraightLine this h cell1 corner &&
    checkStraightLine this h corner cell2 = true ↔ turnsAt this h cell1 cell2 corner.
Proof. unfold turnsAt. rewrite !andb_true_iff. tauto. Qed.

Lemma checkOneCorner_first :
  turnsAt this h cell1 cell2 (mkCorner (row cell1) (col cell2)) →
  checkOneCorner this h cell1 cell2 =
    Some (mkConnection "one-corner" [mkCorner (row cell1) (col cell2)]).
Proof.
  intros Hk%turnsAt_true. unfold checkOneCorner. cbv zeta. by rewrite Hk.
Qed.

Lemma checkOneCorner_second :
  ¬ turnsAt this h cell1 cell2 (mkCorner (row cell1) (col cell2)) →
  turnsAt this h cell1 cell2 (mkCorner (row cell2) (col cell1)) →
  checkOneCorner this h cell1 cell2 =
    Some (mkConnection "one-corner" [mkCorner (row cell2) (col cell1)]).
Proof.
  intros Hk1 Hk2%turnsAt_true. unfold checkOneCorner. cbv zeta.
  rewrite <- turnsAt_true in Hk1. apply not_true_is_false in Hk1.
  by rewrite Hk1, Hk2.
Qed.

Lemma checkOneCorner_neither :
  ¬ turnsAt this h cell1 cell2 (mkCorner (row cell1) (col cell2)) →
  ¬ turnsAt this h cell1 cell2 (mkCorner (row cell2) (col cell1)) →
  checkOneCorner this h cell1 cell2 = None.
Proof.
  intros Hk1 Hk2. unfold checkOneCorner. cbv zeta.
  rewrite <- turnsAt_true in Hk1, Hk2.
  apply not_true_is_false in Hk1, Hk2. by rewrite Hk1, Hk2.
Qed.

Lemma checkOneCorner_is_Some :
  is_Some (checkOneCorner this h cell1 cell2) ↔
  turnsAt this h cell1 cell2 (mkCorner (row cell1) (col cell2)) ∨
  turnsAt this h cell1 cell2 (mkCorner (row cell2) (col cell1)).
Proof.
  destruct (turnsAt_dec (mkCorner (row cell1) (col cell2))) as [Hk1|Hk1].
  { rewrite checkOneCorner_first by done. split; eauto. }
  destruct (turnsAt_dec (mkCorner (row cell2) (col cell1))) as [Hk2|Hk2].
  { rewrite checkOneCorner_second by done. split; eauto. }
  rewrite checkOneCorner_neither by done. split; [by intros []|tauto].
Qed.

Lemma rowScan_Some r res :
  rowScan this h cell1 cell2 r = Some res ↔
  routeViaRow this h cell1 cell2 r ∧
  res = mkConnection "two-corners" [mkCorner r (col cell1); mkCorner r (col cell2)].
Proof.
  unfold rowScan, routeViaRow. cbv zeta.
  destruct (r =? row cell1) eqn:H1; simpl; [split; [done|lia]|].
  destruct (r =? row cell2) eqn:H2; simpl; [split; [done|lia]|].
  destruct (isValidCorner _ _ (mkCorner r (col cell1))); simpl; [|split; [done|by intros [(?&?&?&?&?&?&?) _]]].
  destruct (isValidCorner _ _ (mkCorner r (col cell2))); simpl; [|split; [done|by intros [(?&?&?&?&?&?&?) _]]].
  destruct (checkStraightLine _ _ cell1 _); simpl; [|split; [done|by intros [(?&?&?&?&?&?&?) _]]].
  destruct (checkHorizontalLine _ _ _ _); simpl; [|split; [done|by intros [(?&?&?&?&?&?&?) _]]].
  destruct (checkStraightLine _ _ _ cell2); simpl; [|split; [done|by intros [(?&?&?&?&?&?&?) _]]].
  split; [intros [= <-]|intros [_ ->]]; repeat split; done || lia.
Qed.

Lemma rowScan_None r :
  rowScan this h cell1 cell2 r = None ↔ ¬ routeViaRow this h cell1 cell2 r.
Proof.
  destruct (rowScan this h cell1 cell2 r) as [res|] eqn:Hscan.
  - apply rowScan_Some in Hscan as [? _]. split; [done|tauto].
  - split; [|done]. intros _ Hroute.
    assert (rowScan this h cell1 cell2 r = Some
      (mkConnection "two-corners" [mkCorner r (col cell1); mkCorner r (col cell2)]))
      by (by apply rowScan_Some).
    congruence.
Qed.

Lemma colScan_Some c res :
  colScan this h cell1 cell2 c = Some res ↔
  routeViaCol this h cell1 cell2 c ∧
  res = mkConnection "two-corners" [mkCorner (row cell1) c; mkCorner (row cell2) c].
Proof.
  unfold colScan, routeViaCol. cbv zeta.
  destruct (c =? col cell1) eqn:H1; simpl; [split; [done|lia]|].
  destruct (c =? col cell2) eqn:H2; simpl; [split; [done|lia]|].
  destruct (isValidCorner _ _ (mkCorner (row cell1) c)); simpl; [|split; [done|by intros [(?&?&?&?&?&?&?) _]]].
  destruct (isValidCorner _ _ (mkCorner (row cell2) c)); simpl; [|split; [done|by intros [(?&?&?&?&?&?&?) _]]].
  destruct (checkStraightLine _ _ cell1 _); simpl; [|split; [done|by intros [(?&?&?&?&?&?&?) _]]].
  destruct (checkVerticalLine _ _ _ _); simpl; [|split; [done|by intros [(?&?&?&?&?&?&?) _]]].
  destruct (checkStraightLine _ _ _ cell2); simpl; [|split; [done|by intros [(?&?&?&?&?&?&?) _]]].
  split; [intros [= <-]|intros [_ ->]]; repeat split; done || lia.
Qed.

Lemma colScan_None c :
  colScan this h cell1 cell2 c = None ↔ ¬ routeViaCol this h cell1 cell2 c.
Proof.
  destruct (colScan this h cell1 cell2 c) as [res|] eqn:Hscan.
  - apply colScan_Some in Hscan as [? _]. split; [done|tauto].
  - split; [|done]. intros _ Hroute.
    assert (colScan this h cell1 cell2 c = Some
      (mkConnection "two-corners" [mkCorner (row cell1) c; mkCorner (row cell2) c]))
      by (by apply colScan_Some).
    congruence.
Qed.

(** The row scan wins whenever some row carries a route, and yields the
    least such row. *)
Lemma checkTwoCorners_row r :
  firstIndex (routeViaRow this h cell1 cell2) (gridRows this) r →
  checkTwoCorners this h cell1 cell2 =
    Some (mkConnection "two-corners" [mkCorner r (col cell1); mkCorner r (col cell2)]).
Proof.
  intros (Hr & Hroute & Hleast). unfold checkTwoCorners.
  assert (Hscan : for_range 0 (gridRows this) (rowScan this h cell1 cell2) = Some
    (mkConnection "two-corners" [mkCorner r (col cell1); mkCorner r (col cell2)])).
  { apply for_range_Some. exists r. split; [done|]. split.
    - by apply rowScan_Some.
    - intros k Hk. apply rowScan_None. by apply Hleast. }
  by rewrite Hscan.
Qed.

(** The column scan runs only when no row carries a route, and yields the
    least column that does. *)
Lemma checkTwoCorners_col c :
  (∀ r, 0 ≤ r < gridRows this → ¬ routeViaRow this h cell1 cell2 r) →
  firstIndex (routeViaCol this h cell1 cell2) (gridCols this) c →
  checkTwoCorners this h cell1 cell2 =
    Some (mkConnection "two-corners" [mkCorner (row cell1) c; mkCorner (row cell2) c]).
Proof.
  intros Hrows (Hc & Hroute & Hleast). unfold checkTwoCorners.
  assert (Hscan : for_range 0 (gridRows this) (rowScan this h cell1 cell2) = None).
  { apply for_range_None. intros k Hk. apply rowScan_None. by apply Hrows. }
  rewrite Hscan. apply for_range_Some. exists c. split; [done|]. split.
  - by apply colScan_Some.
  - intros k Hk. apply colScan_None. by apply Hleast.
Qed.

Lemma checkTwoCorners_none :
  (∀ r, 0 ≤ r < gridRows this → ¬ routeViaRow this h cell1 cell2 r) →
  (∀ c, 0 ≤ c < gridCols this → ¬ routeViaCol this h cell1 cell2 c) →
  checkTwoCorners this h cell1 cell2 = None.
Proof.
  intros Hrows Hcols. unfold checkTwoCorners.
  assert (Hscan : for_range 0 (gridRows this) (rowScan this h cell1 cell2) = None).
  { apply for_range_None. intros k Hk. apply rowScan_None. by apply Hrows. }
  rewrite Hscan. apply for_range_None. intros k Hk. apply colScan_None. by apply Hcols.
Qed.

(** Whatever [checkTwoCorners] returns comes from one of the two scans. *)
Lemma checkTwoCorners_Some res :
  checkTwoCorners this h cell1 cell2 = Some res →
  (∃ r, firstIndex (routeViaRow this h cell1 cell2) (gridRows this) r ∧
        res = mkConnection "two-corners" [mkCorner r (col cell1); mkCorner r (col cell2)]) ∨
  ((∀ r, 0 ≤ r < gridRows this → ¬ routeViaRow this h cell1 cell2 r) ∧
   ∃ c, firstIndex (routeViaCol this h cell1 cell2) (gridCols this) c ∧
        res = mkConnection "two-corners" [mkCorner (row cell1) c; mkCorner (row cell2) c]).
Proof.
  unfold checkTwoCorners.
  destruct (for_range 0 (gridRows this) _) as [res'|] eqn:Hrow.
  - intros [= <-]. left.
    apply for_range_Some in Hrow as (r & Hr & [Hroute ->]%rowScan_Some & Hleast).
    exists r. split; [|done]. split; [done|]. split; [done|].
    intros k Hk. apply rowScan_None. by apply Hleast.
  - intros Hcol. right. rewrite for_range_None in Hrow. split.
    + intros r Hr. apply rowScan_None. by apply Hrow.
    + apply for_range_Some in Hcol as (c & Hc & [Hroute ->]%colScan_Some & Hleast).
      exists c. split; [|done]. split; [done|]. split; [done|].
      intros k Hk. apply colScan_None. by apply Hleast.
Qed.

Lemma checkTwoCorners_is_Some :
  is_Some (checkTwoCorners this h cell1 cell2) ↔
  (∃ r, 0 ≤ r < gridRows this ∧ routeViaRow this h cell1 cell2 r) ∨
  (∃ c, 0 ≤ c < gridCols this ∧ routeViaCol this h cell1 cell2 c).
Proof.
  split.
  - intros [res [(r & (? & ? & _) & _)|(_ & c & (? & ? & _) & _)]%checkTwoCorners_Some];
      eauto.
  - intros Hex. destruct (checkTwoCorners this h cell1 cell2) eqn:Htwo; [eauto|].
    exfalso. unfold checkTwoCorners in Htwo.
    destruct (for_range 0 (gridRows this) _) eqn:Hrow; [done|].
    rewrite for_range_None in Hrow, Htwo.
    destruct Hex as [(r & Hr & Hroute)|(c & Hc & Hroute)].
    + by apply (proj1 (rowScan_None r) (Hrow r Hr)).
    + by apply (proj1 (colScan_None c) (Htwo c Hc)).
Qed.

End Corners.

(** ** C5: the order of the path search *)

Lemma getConnectionPath_unfold this h a b :
  getConnectionPath this h a b =
    let cell1 := deref h a in
    let cell2 := deref h b in
    if checkStraightLine this h cell1 cell2 then Some [pointOf cell1; pointOf cell2]
    else match checkOneCorner this h cell1 cell2 with
         | Some res =>
             match corners res with
             | corner :: _ => Some [pointOf cell1; pointOf corner; pointOf cell2]
             | [] => None
             end
         | None =>
             match checkTwoCorners this h cell1 cell2 with
             | Some res =>
                 match corners res with
                 | corner1 :: corner2 :: _ =>
                     Some [pointOf cell1; pointOf corner1; pointOf corner2; pointOf cell2]
                 | _ => None
                 end
             | None => None
             end
         end.
Proof. reflexivity. Qed.

(** C5. In the one-corner check the candidate [(cell1.row, cell2.col)] is
    tried before [(cell2.row, cell1.col)] and the first candidate that works
    is the corner of the 3-point path. In the two-corner check the rows are
    scanned in ascending order (both endpoints' rows skipped) before any
    column (ascending, both endpoints' columns skipped), and the first row or
    column that succeeds gives the two corners of the 4-point path. *)
Theorem path_search_order this h a b :
  let cell1 := deref h a in
  let cell2 := deref h b in
  let candidate1 := mkCorner (row cell1) (col cell2) in
  let candidate2 := mkCorner (row cell2) (col cell1) in
  let noTurn := ¬ turnsAt this h cell1 cell2 candidate1 ∧
                ¬ turnsAt this h cell1 cell2 candidate2 in
  let noRow := ∀ r, 0 ≤ r < gridRows this → ¬ routeViaRow this h cell1 cell2 r in
  (turnsAt this h cell1 cell2 candidate1 →
     checkOneCorner this h cell1 cell2 = Some (mkConnection "one-corner" [candidate1]) ∧
     (checkStraightLine this h cell1 cell2 = false →
      getConnectionPath this h a b =
        Some [pointOf cell1; pointOf candidate1; pointOf cell2])) ∧
  (¬ turnsAt this h cell1 cell2 candidate1 → turnsAt this h cell1 cell2 candidate2 →
     checkOneCorner this h cell1 cell2 = Some (mkConnection "one-corner" [candidate2]) ∧
     (checkStraightLine this h cell1 cell2 = false →
      getConnectionPath this h a b =
        Some [pointOf cell1; pointOf candidate2; pointOf cell2])) ∧
  (∀ r, firstIndex (routeViaRow this h cell1 cell2) (gridRows this) r →
     let corner1 := mkCorner r (col cell1) in
     let corner2 := mkCorner r (col cell2) in
     checkTwoCorners this h cell1 cell2 =
       Some (mkConnection "two-corners" [corner1; corner2]) ∧
     (checkStraightLine this h cell1 cell2 = false → noTurn →
      getConnectionPath this h a b =
        Some [pointOf cell1; pointOf corner1; pointOf corner2; pointOf cell2])) ∧
  (∀ c, noRow → firstIndex (routeViaCol this h cell1 cell2) (gridCols this) c →
     let corner1 := mkCorner (row cell1) c in
     let corner2 := mkCorner (row cell2) c in
     checkTwoCorners this h cell1 cell2 =
       Some (mkConnection "two-corners" [corner1; corner2]) ∧
     (checkStraightLine this h cell1 cell2 = false → noTurn →
      getConnectionPath this h a b =
        Some [pointOf cell1; pointOf corner1; pointOf corner2; pointOf cell2])).
Proof.
  intros cell1 cell2 candidate1 candidate2 noTurn noRow.
  split; [|split; [|split]].
  - intros Hturn. pose proof (checkOneCorner_first this h cell1 cell2 Hturn) as Hone.
    split; [done|]. intros Hline.
    rewrite getConnectionPath_unfold. cbv zeta. fold cell1 cell2.
    by rewrite Hline, Hone.
  - intros Hno Hturn.
    pose proof (checkOneCorner_second this h cell1 cell2 Hno Hturn) as Hone.
    split; [done|]. intros Hline.
    rewrite getConnectionPath_unfold. cbv zeta. fold cell1 cell2.
    by rewrite Hline, Hone.
  - intros r Hfirst corner1 corner2.
    pose proof (checkTwoCorners_row this h cell1 cell2 r Hfirst) as Htwo.
    split; [done|]. intros Hline [Hno1 Hno2].
    rewrite getConnectionPath_unfold. cbv zeta. fold cell1 cell2.
    by rewrite Hline, (checkOneCorner_neither this h cell1 cell2 Hno1 Hno2), Htwo.
  - intros c Hrows Hfirst corner1 corner2.
    pose proof (checkTwoCorners_col this h cell1 cell2 c Hrows Hfirst) as Htwo.
    split; [done|]. intros Hline [Hno1 Hno2].
    rewrite getConnectionPath_unfold. cbv zeta. fold cell1 cell2.
    by rewrite Hline, (checkOneCorner_neither this h cell1 cell2 Hno1 Hno2), Htwo.
Qed.

(** ** The shape of connection paths *)

Section Paths.
Context (this : LinkGameAlgorithm.t) (h : Heap).

Lemma checkOneCorner_Some {A B : Type} `{Positioned A, Positioned B}
    (cell1 : A) (cell2 : B) res :
  checkOneCorner this h cell1 cell2 = Some res →
  ∃ corner, res = mkConnection "one-corner" [corner] ∧
            turnsAt this h cell1 cell2 corner.
Proof.
  destruct (turnsAt_dec this h cell1 cell2 (mkCorner (row cell1) (col cell2)))
    as [Hk1|Hk1].
  { rewrite checkOneCorner_first by done. intros [= <-]. eauto. }
  destruct (turnsAt_dec this h cell1 cell2 (mkCorner (row cell2) (col cell1)))
    as [Hk2|Hk2].
  { rewrite checkOneCorner_second by done. intros [= <-]. eauto. }
  rewrite checkOneCorner_neither by done. done.
Qed.

Lemma checkTwoCorners_corners {A B : Type} `{Positioned A, Positioned B}
    (cell1 : A) (cell2 : B) res :
  checkTwoCorners this h cell1 cell2 = Some res →
  ∃ corner1 corner2, res = mkConnection "two-corners" [corner1; corner2] ∧
    isValidCorner this h corner1 = true ∧ isValidCorner this h corner2 = true.
Proof.
  intros [(r & (_ & Hroute & _) & ->)|(_ & c & (_ & Hroute & _) & ->)]%checkTwoCorners_Some;
    destruct Hroute as (_ & _ & ? & ? & _); eauto 10.
Qed.

(** The three ways in which [getConnectionPath] produces a path. *)
Lemma getConnectionPath_Some a b path :
  getConnectionPath this h a b = Some path →
  let cell1 := deref h a in
  let cell2 := deref h b in
  (checkStraightLine this h cell1 cell2 = true ∧
   path = [pointOf cell1; pointOf cell2]) ∨
  (∃ corner, isValidCorner this h corner = true ∧
             path = [pointOf cell1; pointOf corner; pointOf cell2]) ∨
  (∃ corner1 corner2,
     isValidCorner this h corner1 = true ∧ isValidCorner this h corner2 = true ∧
     path = [pointOf cell1; pointOf corner1; pointOf corner2; pointOf cell2]).
Proof.
  rewrite getConnectionPath_unfold. cbv zeta.
  destruct (checkStraightLine _ _ _ _) eqn:Hline.
  { intros [= <-]. by left. }
  destruct (checkOneCorner _ _ _ _) as [res|] eqn:Hone.
  { apply checkOneCorner_Some in Hone as (corner & -> & Hvalid & _).
    simpl. intros [= <-]. right; left. eauto. }
  destruct (checkTwoCorners _ _ _ _) as [res|] eqn:Htwo; [|done].
  apply checkTwoCorners_corners in Htwo as (corner1 & corner2 & -> & ? & ?).
  simpl. intros [= <-]. right; right. by exists corner1, corner2.
Qed.

(** A path is found exactly when one of the three checks succeeds. *)
Lemma getConnectionPath_is_Some a b :
  is_Some (getConnectionPath this h a b) ↔
  checkStraightLine this h (deref h a) (deref h b) ||
  bool_decide (is_Some (checkOneCorner this h (deref h a) (deref h b))) ||
  bool_decide (is_Some (checkTwoCorners this h (deref h a) (deref h b))) = true.
Proof.
  rewrite getConnectionPath_unfold. cbv zeta.
  destruct (checkStraightLine _ _ _ _) eqn:Hline; [split; eauto|].
  destruct (checkOneCorner _ _ _ _) as [res|] eqn:Hone.
  { apply checkOneCorner_Some in Hone as (corner & -> & _). simpl. split; eauto. }
  destruct (checkTwoCorners _ _ _ _) as [res|] eqn:Htwo.
  { apply checkTwoCorners_corners in Htwo as (corner1 & corner2 & -> & _).
    simpl. split; eauto. }
  simpl. split; [by intros []|done].
Qed.

(** What [canConnect] tests before it searches for a path. *)
Lemma canConnect_unfold a b :
  canConnect this h (Some a) (Some b) =
    isValidCell this h (Some a) && isValidCell this h (Some b) &&
    negb (bool_decide (a = b)) &&
    match pattern (deref h a), pattern (deref h b) with
    | Some p1, Some p2 => id p1 =? id p2
    | _, _ => false
    end &&
    (checkStraightLine this h (deref h a) (deref h b) ||
     bool_decide (is_Some (checkOneCorner this h (deref h a) (deref h b))) ||
     bool_decide (is_Some (checkTwoCorners this h (deref h a) (deref h b)))).
Proof.
  unfold canConnect.
  destruct (isValidCell this h (Some a)), (isValidCell this h (Some b));
    cbn [negb orb andb]; try done.
  destruct (decide (a = b)) as [->|Hne].
  - rewrite !bool_decide_eq_true_2 by done. done.
  - rewrite (bool_decide_eq_false_2 (Some a = Some b)) by congruence.
    rewrite (bool_decide_eq_false_2 (a = b)) by done. cbn [negb orb andb].
    destruct (pattern (deref h a)) as [p1|]; [|done].
    destruct (pattern (deref h b)) as [p2|]; [|done].
    by destruct (id p1 =? id p2).
Qed.

Lemma isValidCell_inGrid a :
  wf this h → inGrid this a → isValidCell this h (Some a) = true.
Proof.
  intros Hwf Ha. destruct (inGrid_inBounds this h Hwf a Ha) as [Hr Hc].
  unfold isValidCell. cbv zeta.
  replace (_ || _) with false by (symmetry; rewrite orb_false_iff; lia).
  replace (_ || _) with false by (symmetry; rewrite orb_false_iff; lia).
  done.
Qed.

End Paths.

(** ** C1: paths and [canConnect] *)

(** C1, as the code has it. For every pair of cells of the grid: whenever
    [canConnect] holds, [getConnectionPath] returns a path; conversely a path
    implies [canConnect] for two distinct cells that hold patterns with the
    same id ([getConnectionPath] itself tests neither identity nor patterns);
    and a returned path has 2 to 4 points, the first at [a]'s [(col, row)]
    and the last at [b]'s. *)
Theorem path_connect_consistency this h a b :
  wf this h → inGrid this a → inGrid this b →
  (canConnect this h (Some a) (Some b) = true →
     is_Some (getConnectionPath this h a b)) ∧
  (a ≠ b → samePattern h a b →
     is_Some (getConnectionPath this h a b) →
     canConnect this h (Some a) (Some b) = true) ∧
  (∀ path, getConnectionPath this h a b = Some path →
     (2 ≤ length path ≤ 4)%nat ∧
     head path = Some (mkPoint (col (deref h a)) (row (deref h a))) ∧
     last path = Some (mkPoint (col (deref h b)) (row (deref h b)))).
Proof.
  intros Hwf Ha Hb. split; [|split].
  - rewrite canConnect_unfold, getConnectionPath_is_Some, !andb_true_iff. tauto.
  - intros Hne (p1 & p2 & Hp1 & Hp2 & Hid) Hpath.
    rewrite canConnect_unfold, Hp1, Hp2, !isValidCell_inGrid by done.
    rewrite bool_decide_eq_false_2 by done.
    apply getConnectionPath_is_Some in Hpath. rewrite Hpath.
    simpl. lia.
  - intros path Hpath. apply getConnectionPath_Some in Hpath.
    destruct Hpath as [[_ ->]|[(corner & _ & ->)|(corner1 & corner2 & _ & _ & ->)]];
      simpl; (split; [lia|done]).
Qed.

(** The equivalence claimed between a path and [canConnect] fails for two
    adjacent tiles of different patterns: there is a straight path between
    them, and [canConnect] rejects the pair. *)
Lemma path_without_connect :
  let picture := [[Examples.tile 1; Examples.tile 2]] in
  let this := Examples.algorithmOf picture in
  let h := Examples.heapOf picture in
  wf this h ∧ inGrid this 0%nat ∧ inGrid this 1%nat ∧
  ¬ (is_Some (getConnectionPath this h 0%nat 1%nat) ↔
     canConnect this h (Some 0%nat) (Some 1%nat) = true).
Proof.
  intros picture this h.
  split; [by apply wf_check_sound|].
  split; [by exists 0, 0|]. split; [by exists 0, 1|].
  intros [Hiff _]. assert (Hfalse : false = true); [|done].
  apply Hiff. by exists [mkPoint 0 0; mkPoint 1 0].
Qed.

(** ** C10: paths stay on the board *)

(** C10. [isCellEmpty] is false at every position outside the grid, and
    every point of a path returned by [getConnectionPath] for two cells of
    the grid lies within the bounds of the grid. *)
Theorem paths_stay_on_board this h a b :
  wf this h → inGrid this a → inGrid this b →
  (∀ r c, r < 0 ∨ gridRows this ≤ r ∨ c < 0 ∨ gridCols this ≤ c →
          isCellEmpty this h r c = false) ∧
  (∀ path p, getConnectionPath this h a b = Some path → p ∈ path →
             0 ≤ y p < gridRows this ∧ 0 ≤ x p < gridCols this).
Proof.
  intros Hwf Ha Hb. split; [apply isCellEmpty_outside|].
  intros path p Hpath Hp.
  pose proof (inGrid_inBounds this h Hwf a Ha) as Hina.
  pose proof (inGrid_inBounds this h Hwf b Hb) as Hinb.
  assert (Hcorner : ∀ corner, isValidCorner this h corner = true →
            0 ≤ y (pointOf corner) < gridRows this ∧
            0 ≤ x (pointOf corner) < gridCols this).
  { intros corner Hvalid. by apply isCellEmpty_inBounds in Hvalid. }
  apply getConnectionPath_Some in Hpath.
  destruct Hpath as [[_ ->]|[(corner & ? & ->)|(corner1 & corner2 & ? & ? & ->)]];
    repeat (apply elem_of_cons in Hp as [->|Hp]); try (by apply elem_of_nil in Hp);
    auto.
Qed.

(** ** C3: symmetry *)

Section Symmetry.
Context (this : LinkGameAlgorithm.t) (h : Heap).
Context {A B : Type} `{Positioned A, Positioned B} (cell1 : A) (cell2 : B).

Lemma turnsAt_sym corner :
  turnsAt this h cell1 cell2 corner ↔ turnsAt this h cell2 cell1 corner.
Proof.
  unfold turnsAt.
  rewrite (checkStraightLine_sym this h cell1 corner),
          (checkStraightLine_sym this h corner cell2).
  tauto.
Qed.

Lemma routeViaRow_sym r :
  routeViaRow this h cell1 cell2 r ↔ routeViaRow this h cell2 cell1 r.
Proof.
  unfold routeViaRow.
  rewrite (checkStraightLine_sym this h cell1 (mkCorner r (col cell1))),
          (checkStraightLine_sym this h (mkCorner r (col cell2)) cell2),
          (checkHorizontalLine_sym this h (mkCorner r (col cell1))
             (mkCorner r (col cell2))) by done.
  tauto.
Qed.

Lemma routeViaCol_sym c :
  routeViaCol this h cell1 cell2 c ↔ routeViaCol this h cell2 cell1 c.
Proof.
  unfold routeViaCol.
  rewrite (checkStraightLine_sym this h cell1 (mkCorner (row cell1) c)),
          (checkStraightLine_sym this h (mkCorner (row cell2) c) cell2),
          (checkVerticalLine_sym this h (mkCorner (row cell1) c)
             (mkCorner (row cell2) c)) by done.
  tauto.
Qed.

Lemma checkOneCorner_sym :
  is_Some (checkOneCorner this h cell1 cell2) ↔
  is_Some (checkOneCorner this h cell2 cell1).
Proof.
  rewrite !checkOneCorner_is_Some.
  rewrite (turnsAt_sym (mkCorner (row cell1) (col cell2))),
          (turnsAt_sym (mkCorner (row cell2) (col cell1))).
  tauto.
Qed.

Lemma checkTwoCorners_sym :
  is_Some (checkTwoCorners this h cell1 cell2) ↔
  is_Some (checkTwoCorners this h cell2 cell1).
Proof.
  rewrite !checkTwoCorners_is_Some.
  split; (intros [(r & ? & ?%routeViaRow_sym)|(c & ? & ?%routeViaCol_sym)]; eauto).
Qed.

End Symmetry.

(** The verdict of [canConnect] does not depend on the order of the two
    cells, whatever they hold. *)
Lemma canConnect_sym this h a b :
  canConnect this h (Some a) (Some b) = canConnect this h (Some b) (Some a).
Proof.
  rewrite !canConnect_unfold.
  rewrite (checkStraightLine_sym this h (deref h a) (deref h b)).
  rewrite (bool_decide_ext _ _ (checkOneCorner_sym this h (deref h a) (deref h b))).
  rewrite (bool_decide_ext _ _ (checkTwoCorners_sym this h (deref h a) (deref h b))).
  rewrite (bool_decide_ext (a = b) (b = a)) by done.
  rewrite (andb_comm (isValidCell this h (Some a))).
  f_equal. f_equal.
  destruct (pattern (deref h a)) as [p1|], (pattern (deref h b)) as [p2|]; try done.
  apply Z.eqb_sym.
Qed.

(** C3. For every pair of cells of the grid that are visible, not matched
    and hold patterns with the same id, [canConnect(a, b)] and
    [canConnect(b, a)] are the same boolean, whether the connection is a
    straight line, has one corner or has two. *)
Theorem canConnect_symmetric this h a b :
  wf this h → inGrid this a → inGrid this b →
  isTile h a → isTile h b → samePattern h a b →
  canConnect this h (Some a) (Some b) = canConnect this h (Some b) (Some a) ∧
  checkStraightLine this h (deref h a) (deref h b) =
    checkStraightLine this h (deref h b) (deref h a) ∧
  (is_Some (checkOneCorner this h (deref h a) (deref h b)) ↔
   is_Some (checkOneCorner this h (deref h b) (deref h a))) ∧
  (is_Some (checkTwoCorners this h (deref h a) (deref h b)) ↔
   is_Some (checkTwoCorners this h (deref h b) (deref h a))).
Proof.
  intros _ _ _ _ _ _. split; [apply canConnect_sym|].
  split; [apply checkStraightLine_sym|].
  split; [apply checkOneCorner_sym|apply checkTwoCorners_sym].
Qed.

(** ** C9: monotonicity in emptiness *)

Section Monotone.
Context (this this' : LinkGameAlgorithm.t) (h h' : Heap).
Context (Hrows : gridRows this' = gridRows this).
Context (Hcols : gridCols this' = gridCols this).
Context (Hempty : ∀ r c, isCellEmpty this h r c = true →
                         isCellEmpty this' h' r c = true).
Context {A B : Type} `{Positioned A, Positioned B}.

Lemma checkHorizontalLine_mono (cell1 : A) (cell2 : B) :
  checkHorizontalLine this h cell1 cell2 = true →
  checkHorizontalLine this' h' cell1 cell2 = true.
Proof. rewrite !checkHorizontalLine_true. auto. Qed.

Lemma checkVerticalLine_mono (cell1 : A) (cell2 : B) :
  checkVerticalLine this h cell1 cell2 = true →
  checkVerticalLine this' h' cell1 cell2 = true.
Proof. rewrite !checkVerticalLine_true. auto. Qed.

Lemma checkStraightLine_mono (cell1 : A) (cell2 : B) :
  checkStraightLine this h cell1 cell2 = true →
  checkStraightLine this' h' cell1 cell2 = true.
Proof.
  unfold checkStraightLine. destruct (row cell1 =? row cell2).
  - apply checkHorizontalLine_mono.
  - destruct (col cell1 =? col cell2); [apply checkVerticalLine_mono|done].
Qed.

End Monotone.

Section MonotoneSearch.
Context (this this' : LinkGameAlgorithm.t) (h h' : Heap).
Context (Hrows : gridRows this' = gridRows this).
Context (Hcols : gridCols this' = gridCols this).
Context (Hempty : ∀ r c, isCellEmpty this h r c = true →
                         isCellEmpty this' h' r c = true).
Context {A B : Type} `{Positioned A, Positioned B} (cell1 : A) (cell2 : B).

Lemma turnsAt_mono corner :
  turnsAt this h cell1 cell2 corner → turnsAt this' h' cell1 cell2 corner.
Proof.
  intros (Hvalid & H1 & H2). split; [by apply Hempty|].
  split; eapply checkStraightLine_mono; eauto.
Qed.

Lemma routeViaRow_mono r :
  routeViaRow this h cell1 cell2 r → routeViaRow this' h' cell1 cell2 r.
Proof.
  intros (? & ? & Hv1 & Hv2 & H1 & H2 & H3).
  repeat split; try done; try (by apply Hempty).
  - eapply checkStraightLine_mono; eauto.
  - eapply checkHorizontalLine_mono; eauto.
  - eapply checkStraightLine_mono; eauto.
Qed.

Lemma routeViaCol_mono c :
  routeViaCol this h cell1 cell2 c → routeViaCol this' h' cell1 cell2 c.
Proof.
  intros (? & ? & Hv1 & Hv2 & H1 & H2 & H3).
  repeat split; try done; try (by apply Hempty).
  - eapply checkStraightLine_mono; eauto.
  - eapply checkVerticalLine_mono; eauto.
  - eapply checkStraightLine_mono; eauto.
Qed.

Lemma checkOneCorner_mono :
  is_Some (checkOneCorner this h cell1 cell2) →
  is_Some (checkOneCorner this' h' cell1 cell2).
Proof.
  rewrite !checkOneCorner_is_Some. intros [?%turnsAt_mono|?%turnsAt_mono]; auto.
Qed.

Lemma checkTwoCorners_mono :
  is_Some (checkTwoCorners this h cell1 cell2) →
  is_Some (checkTwoCorners this' h' cell1 cell2).
Proof.
  rewrite !checkTwoCorners_is_Some, Hrows, Hcols.
  intros [(r & ? & ?%routeViaRow_mono)|(c & ? & ?%routeViaCol_mono)]; eauto.
Qed.

End MonotoneSearch.

Lemma checkStraightLine_position this h {A B : Type} `{Positioned A, Positioned B}
    (cell1 : A) (cell2 : B) :
  checkStraightLine this h cell1 cell2 =
  checkStraightLine this h (positionOf cell1) (positionOf cell2).
Proof. reflexivity. Qed.

Lemma checkOneCorner_position this h {A B : Type} `{Positioned A, Positioned B}
    (cell1 : A) (cell2 : B) :
  checkOneCorner this h cell1 cell2 =
  checkOneCorner this h (positionOf cell1) (positionOf cell2).
Proof. reflexivity. Qed.

Lemma checkTwoCorners_position this h {A B : Type} `{Positioned A, Positioned B}
    (cell1 : A) (cell2 : B) :
  checkTwoCorners this h cell1 cell2 =
  checkTwoCorners this h (positionOf cell1) (positionOf cell2).
Proof. reflexivity. Qed.

Lemma canConnect_mono this h this' h' a b a' b' :
  gridRows this' = gridRows this → gridCols this' = gridCols this →
  row (deref h' a') = row (deref h a) → col (deref h' a') = col (deref h a) →
  row (deref h' b') = row (deref h b) → col (deref h' b') = col (deref h b) →
  pattern (deref h' a') = pattern (deref h a) →
  pattern (deref h' b') = pattern (deref h b) →
  (a' = b' → a = b) →
  (∀ r c, isCellEmpty this h r c = true → isCellEmpty this' h' r c = true) →
  canConnect this h (Some a) (Some b) = true →
  canConnect this' h' (Some a') (Some b') = true.
Proof.
  intros Hrows Hcols Hra Hca Hrb Hcb Hpa Hpb Hsame Hempty.
  rewrite !canConnect_unfold, !andb_true_iff, !orb_true_iff, !bool_decide_eq_true.
  rewrite !negb_true_iff, !bool_decide_eq_false.
  intros ((((Hva & Hvb) & Hne) & Hpat) & Hconn).
  assert (Hposa : positionOf (deref h' a') = positionOf (deref h a))
    by (unfold positionOf; congruence).
  assert (Hposb : positionOf (deref h' b') = positionOf (deref h b))
    by (unfold positionOf; congruence).
  repeat split.
  - revert Hva. unfold isValidCell. cbv zeta. by rewrite Hra, Hca, Hrows, Hcols.
  - revert Hvb. unfold isValidCell. cbv zeta. by rewrite Hrb, Hcb, Hrows, Hcols.
  - auto.
  - by rewrite Hpa, Hpb.
  - rewrite checkStraightLine_position, checkOneCorner_position,
      checkTwoCorners_position, Hposa, Hposb.
    rewrite checkStraightLine_position, checkOneCorner_position,
      checkTwoCorners_position in Hconn.
    destruct Hconn as [[Hline|Hone]|Htwo].
    + left; left. by eapply checkStraightLine_mono.
    + left; right. by eapply checkOneCorner_mono.
    + right. by eapply checkTwoCorners_mono.
Qed.

(** C9. Let [G] and [G'] be two boards of the same dimensions that agree on
    the cells [a] and [b] (the cells [a'] and [b'] of [G'] have the
    coordinates and patterns of [a] and [b]), and let every position that is
    empty (not visible, or matched) on [G] be empty on [G']. If
    [canConnect(a, b)] is true on [G], then it is true on [G']. *)
Theorem canConnect_monotone this h this' h' a b a' b' :
  wf this h → wf this' h' →
  gridRows this' = gridRows this → gridCols this' = gridCols this →
  inGrid this a → inGrid this b → inGrid this' a' → inGrid this' b' →
  row (deref h' a') = row (deref h a) → col (deref h' a') = col (deref h a) →
  row (deref h' b') = row (deref h b) → col (deref h' b') = col (deref h b) →
  pattern (deref h' a') = pattern (deref h a) →
  pattern (deref h' b') = pattern (deref h b) →
  (∀ r c, emptyAt this h r c → emptyAt this' h' r c) →
  canConnect this h (Some a) (Some b) = true →
  canConnect this' h' (Some a') (Some b') = true.
Proof.
  intros Hwf Hwf' Hrows Hcols Ha Hb Ha' Hb' Hra Hca Hrb Hcb Hpa Hpb Hempty.
  apply canConnect_mono; try done.
  - intros <-. apply (inGrid_position_inj this h Hwf); congruence.
  - intros r c He. apply (isCellEmpty_true this' h' Hwf').
    by apply Hempty, (isCellEmpty_true this h Hwf).
Qed.

(** ** C2: matched endpoints *)

Lemma canConnectInGrid_matched this h grid a b :
  matched (deref h a) = true ∨ matched (deref h b) = true →
  canConnectInGrid this h (Some a) (Some b) grid = false.
Proof.
  intros Hmatched. unfold canConnectInGrid.
  destruct (negb _ || negb _); [done|].
  destruct (bool_decide _); [done|]. cbv zeta.
  destruct (pattern (deref h a)) as [p1|]; [|done].
  destruct (pattern (deref h b)) as [p2|]; [|done].
  destruct (negb (id p1 =? id p2)); [done|].
  replace (matched (deref h a) || matched (deref h b)) with true; [done|].
  symmetry. apply orb_true_iff. done.
Qed.

(** C2. For every pair of distinct in-bounds cells that hold patterns with
    the same id, [canConnectInGrid] is false as soon as one of the two is
    matched, in whatever grid it is asked; [canConnect] has no such test, and
    returns true for such a pair on the board below, where the removed tile
    at the left end of the row is joined to the tile at the right end. *)
Theorem matched_endpoint_asymmetry :
  (∀ this h grid a b,
     isValidCellInGrid this h (Some a) grid = true →
     isValidCellInGrid this h (Some b) grid = true →
     a ≠ b → samePattern h a b →
     matched (deref h a) = true ∨ matched (deref h b) = true →
     canConnectInGrid this h (Some a) (Some b) grid = false) ∧
  (let picture := [[Examples.removed 7; Examples.hole; Examples.tile 7]] in
   let this := Examples.algorithmOf picture in
   let h := Examples.heapOf picture in
   wf this h ∧ inGrid this 0%nat ∧ inGrid this 2%nat ∧
   samePattern h 0%nat 2%nat ∧ matched (deref h 0%nat) = true ∧
   canConnect this h (Some 0%nat) (Some 2%nat) = true ∧
   canConnectInGrid this h (Some 0%nat) (Some 2%nat) (grid this) = false).
Proof.
  split.
  - intros this h grid a b _ _ _ _. apply canConnectInGrid_matched.
  - intros picture this h.
    split; [by apply wf_check_sound|].
    split; [by exists 0, 0|]. split; [by exists 0, 2|].
    split; [|done]. eexists _, _. done.
Qed.

(** ** Reasoning about calls *)

Section Returns.
Context {A B : Type}.

Lemma returns_ret (a : A) w (post : A → World → Prop) :
  post a w → returns (mret a) w post.
Proof. done. Qed.

Lemma returns_bind (m : M A) (f : A → M B) w (post : B → World → Prop) :
  returns m w (λ a w', returns (f a) w' post) → returns (m ≫= f) w post.
Proof.
  unfold returns, mbind, M_bind. by destruct (m w).
Qed.

Lemma returns_bind_inv (m : M A) (f : A → M B) w (post : B → World → Prop) :
  returns (m ≫= f) w post → returns m w (λ a w', returns (f a) w' post).
Proof.
  unfold returns, mbind, M_bind. by destruct (m w).
Qed.

Lemma returns_mono (m : M A) w (post post' : A → World → Prop) :
  returns m w post → (∀ a w', post a w' → post' a w') → returns m w post'.
Proof. unfold returns. destruct (m w); auto. Qed.

Lemma returns_and (m : M A) w (post post' : A → World → Prop) :
  returns m w post → returns m w post' →
  returns m w (λ a w', post a w' ∧ post' a w').
Proof. unfold returns. destruct (m w); auto. Qed.

Lemma returns_eq (m : M A) w (post : A → World → Prop) :
  returns m w post ↔ ∃ a w', m w = Returns a w' ∧ post a w'.
Proof.
  unfold returns. destruct (m w) as [a w'| |].
  - split; [eauto|]. by intros (? & ? & [= <- <-] & ?).
  - split; [done|]. by intros (? & ? & ? & _).
  - split; [done|]. by intros (? & ? & ? & _).
Qed.
End Returns.

Lemma returns_getHeap w (post : Heap → World → Prop) :
  post (heap w) w → returns getHeap w post.
Proof. done. Qed.

Lemma returns_console_log line w (post : unit → World → Prop) :
  post () (mkWorld (heap w) (random w) (randomCalls w) (console w ++ [line])) →
  returns (console_log line) w post.
Proof. done. Qed.

Lemma returns_Math_random w (post : Q → World → Prop) :
  post (random w (randomCalls w))
       (mkWorld (heap w) (random w) (S (randomCalls w)) (console w)) →
  returns Math_random w post.
Proof. done. Qed.

Lemma returns_readCell l cell w (post : Cell → World → Prop) :
  heap w !! l = Some cell → post cell w → returns (readCell l) w post.
Proof. intros Hl Hpost. unfold returns, readCell. by rewrite Hl. Qed.

Lemma returns_writeCell l f cell w (post : unit → World → Prop) :
  heap w !! l = Some cell →
  post () (withHeap (<[l := f cell]> (heap w)) w) →
  returns (writeCell l f) w post.
Proof. intros Hl Hpost. unfold returns, writeCell. by rewrite Hl. Qed.

Lemma returns_alloc cell w (post : loc → World → Prop) :
  post (length (heap w)) (withHeap (heap w ++ [cell]) w) →
  returns (alloc cell) w post.
Proof. done. Qed.

Lemma returns_gridCell grid r c l w (post : loc → World → Prop) :
  gridAt grid r c = Some l → post l w → returns (gridCell grid r c) w post.
Proof. intros Hat Hpost. unfold gridCell. by rewrite Hat. Qed.

(** A loop keeps what every iteration keeps. *)
Lemma returns_foldM {A S : Type} (body : S → A → M S) (inv : list A → S → World → Prop)
    l s w :
  inv [] s w →
  (∀ done a s w, inv done s w → a ∈ l →
     returns (body s a) w (inv (done ++ [a]))) →
  returns (foldM body s l) w (inv l).
Proof.
  intros Hinit Hbody.
  assert (Hgen : ∀ rest done s w, done ++ rest = l → inv done s w →
            returns (foldM body s rest) w (inv l)).
  { induction rest as [|a rest IH]; intros done s' w' Hl Hinv; simpl.
    - rewrite app_nil_r in Hl. by subst.
    - apply returns_bind. eapply returns_mono.
      + apply Hbody; [done|]. subst l. apply elem_of_app. right. by left.
      + intros s'' w'' Hinv'. apply (IH (done ++ [a])); [|done].
        by rewrite <- app_assoc. }
  by apply (Hgen l []).
Qed.

(** The same for a loop that builds an array; the iteration on [a] knows
    the elements [done] that came before it. *)
Lemma returns_forM_prefix {A B : Type} (body : A → M B)
    (inv : list A → list B → World → Prop) l w :
  inv [] [] w →
  (∀ done bs a rest w, inv done bs w → l = done ++ a :: rest →
     returns (body a) w (λ b, inv (done ++ [a]) (bs ++ [b]))) →
  returns (forM l body) w (inv l).
Proof.
  intros Hinit Hbody.
  assert (Hgen : ∀ rest done bs w (post : list B → World → Prop),
            done ++ rest = l → inv done bs w →
            (∀ bs' w', inv l (bs ++ bs') w' → post bs' w') →
            returns (forM rest body) w post).
  { induction rest as [|a rest IH]; intros done bs w' post Hl Hinv Hpost; simpl.
    - rewrite app_nil_r in Hl. subst. apply returns_ret, Hpost.
      by rewrite app_nil_r.
    - apply returns_bind. eapply returns_mono.
      + by eapply Hbody.
      + intros b w'' Hinv'. simpl in Hinv'. apply returns_bind.
        apply (IH (done ++ [a]) (bs ++ [b])); [by rewrite <- app_assoc|done|].
        intros bs' w3 Hinv3. apply returns_ret, Hpost.
        by rewrite <- app_assoc in Hinv3. }
  apply (Hgen l [] [] w); [done..|]. auto.
Qed.

Lemma returns_forM {A B : Type} (body : A → M B) (inv : list A → list B → World → Prop)
    l w :
  inv [] [] w →
  (∀ done bs a w, inv done bs w → a ∈ l →
     returns (body a) w (λ b, inv (done ++ [a]) (bs ++ [b]))) →
  returns (forM l body) w (inv l).
Proof.
  intros Hinit Hbody. apply returns_forM_prefix; [done|].
  intros done bs a rest w' Hinv ->. apply Hbody; [done|].
  apply elem_of_app. right. by left.
Qed.

(** ** Dictionaries *)

Lemma JsObject_get_set {V} k k' (v : V) o :
  JsObject.get k' (JsObject.set k v o) =
    if k' =? k then Some v else JsObject.get k' o.
Proof.
  induction o as [|[k0 v0] o IH]; simpl.
  - done.
  - destruct (k =? k0) eqn:Hk; simpl.
    + apply Z.eqb_eq in Hk as ->. by destruct (k' =? k0).
    + destruct (k' =? k0) eqn:Hk'; [|done].
      apply Z.eqb_eq in Hk' as ->. by rewrite Z.eqb_sym, Hk.
Qed.

(** ** The cells that the pair enumeration can return *)

Section Enumeration.
Context (this : LinkGameAlgorithm.t) (h : Heap).

Lemma getVisibleCellsFromGrid_inGrid grid l :
  l ∈ getVisibleCellsFromGrid this h grid → inGridOf grid l.
Proof.
  unfold getVisibleCellsFromGrid.
  intros (r & Hl & _)%list_elem_of_bind. apply list_elem_of_bind in Hl as (c & Hl & _).
  destruct (gridAt grid r c) as [l'|] eqn:Hat; [|by apply elem_of_nil in Hl].
  destruct (_ && _); [|by apply elem_of_nil in Hl].
  apply list_elem_of_singleton in Hl as ->. by exists r, c.
Qed.

Lemma groupByPattern_elem (P : loc → Prop) visibleCells k cells l :
  (∀ l, l ∈ visibleCells → P l) →
  JsObject.get k (groupByPattern h visibleCells) = Some cells →
  l ∈ cells → P l.
Proof.
  unfold groupByPattern. intros Hvis.
  assert (Hgen : ∀ vis (o : JsObject.t (list loc)),
            (∀ l, l ∈ vis → P l) →
            (∀ k cells l, JsObject.get k o = Some cells → l ∈ cells → P l) →
            ∀ k cells l,
              JsObject.get k (foldl (λ patternGroups l,
                 let cell := deref h l in
                 match pattern cell with
                 | None => patternGroups
                 | Some p =>
                     let patternId := id p in
                     let patternGroups :=
                       match JsObject.get patternId patternGroups with
                       | None => JsObject.set patternId [] patternGroups
                       | Some _ => patternGroups
                       end in
                     JsObject.set patternId
                       (default [] (JsObject.get patternId patternGroups) ++ [l])
                       patternGroups
                 end) o vis) = Some cells → l ∈ cells → P l).
  { induction vis as [|l0 vis IH]; intros o HP Ho k0 cells0 l1; simpl.
    - apply Ho.
    - apply IH.
      + intros l' Hl'. apply HP. by right.
      + intros k1 cells1 l2. cbv zeta.
        destruct (pattern (deref h l0)) as [p|]; [|apply Ho].
        rewrite JsObject_get_set. destruct (k1 =? id p) eqn:Hk.
        * intros [= <-] [Hold|Hnew%list_elem_of_singleton]%elem_of_app.
          -- destruct (JsObject.get (id p) o) as [old|] eqn:Hget; simpl in Hold.
             ++ rewrite Hget in Hold. simpl in Hold. by eapply Ho.
             ++ rewrite JsObject_get_set, Z.eqb_refl in Hold. simpl in Hold.
                by apply elem_of_nil in Hold.
          -- subst. apply HP. by left.
        * destruct (JsObject.get (id p) o) eqn:Hget; [apply Ho|].
          rewrite JsObject_get_set, Hk. apply Ho. }
  intros Hget Hl. eapply (Hgen visibleCells JsObject.empty); eauto.
  intros k0 cells0 l0 Hempty. done.
Qed.

Lemma pairsOf_elem cells cell1 cell2 :
  (cell1, cell2) ∈ pairsOf cells → cell1 ∈ cells ∧ cell2 ∈ cells.
Proof.
  induction cells as [|c cells IH]; simpl.
  - by intros ?%elem_of_nil.
  - intros [Hin|Hin]%elem_of_app.
    + apply list_elem_of_In, in_map_iff in Hin as (c' & [= <- <-] & Hc').
      split; [by left|]. right. by apply list_elem_of_In.
    + destruct (IH Hin). split; by right.
Qed.

Lemma findAllConnectablePairsInGrid_inGrid grid cell1 cell2 :
  (cell1, cell2) ∈ findAllConnectablePairsInGrid this h grid →
  inGridOf grid cell1 ∧ inGridOf grid cell2.
Proof.
  unfold findAllConnectablePairsInGrid. cbv zeta.
  intros (k & Hin & _)%list_elem_of_bind.
  apply list_elem_of_In, filter_In in Hin as [Hin%list_elem_of_In _].
  apply pairsOf_elem in Hin as [H1 H2].
  destruct (JsObject.get k _) as [cells|] eqn:Hget; simpl in H1, H2;
    [|by apply elem_of_nil in H1].
  split; eapply (groupByPattern_elem (inGridOf grid)); eauto;
    apply getVisibleCellsFromGrid_inGrid.
Qed.

End Enumeration.

(** ** C7: the solvability check leaves the live grid alone *)

Lemma returns_validateGameState this w :
  returns (validateGameState this) w (λ _ w',
    heap w' = heap w ∧ random w' = random w ∧ randomCalls w' = randomCalls w).
Proof.
  unfold validateGameState. apply returns_bind, returns_getHeap. cbv zeta.
  destruct (oddPattern _) as [[patternId count]|]; [|done].
  apply returns_bind, returns_console_log. done.
Qed.

(** The objects of [createGridCopy] are new: they come after every object
    that existed before the call. *)
Lemma returns_createGridCopy this w :
  wf this (heap w) →
  returns (createGridCopy this) w (λ gridCopy w',
    unchanged (heap w) (heap w') ∧
    ∀ l, inGridOf gridCopy l → (length (heap w) ≤ l < length (heap w'))%nat).
Proof.
  intros Hwf. unfold createGridCopy. set (n0 := length (heap w)).
  pose (fresh := λ w' (l : loc), (n0 ≤ l < length (heap w'))%nat).
  pose (ext := λ w', ∃ news, heap w' = heap w ++ news).
  eapply returns_mono.
  - apply (returns_forM _ (λ _ rows w',
             ext w' ∧ Forall (Forall (fresh w')) rows)).
    + split; [by exists []; rewrite app_nil_r|done].
    + intros done rows r w1 [Hext Hrows] Hr.
      eapply returns_mono.
      * apply (returns_forM _ (λ _ line w',
                 ext w' ∧ (length (heap w1) ≤ length (heap w'))%nat ∧
                 Forall (fresh w') line)).
        -- split; [done|]. split; [done|]. done.
        -- intros done' line c w2 (Hext2 & Hlen & Hline) Hc.
           apply elem_of_seqZ in Hr, Hc.
           destruct (gridAt_defined this (heap w) Hwf r c) as (l & cell & Hat & Hcell & _);
             [unfold inBounds; lia|].
           apply returns_bind. apply returns_bind.
           eapply returns_gridCell; [done|].
           destruct Hext2 as [news Hnews].
           eapply returns_readCell.
           { rewrite Hnews. by apply lookup_app_l_Some. }
           apply returns_alloc. simpl. split; [|split].
           ++ exists (news ++ [mkCell r c
                 match pattern cell with Some p => Some p | None => None end
                 (visible cell) (matched cell) (cell_x cell) (cell_y cell)]).
              by rewrite Hnews, app_assoc.
           ++ rewrite length_app. lia.
           ++ apply Forall_app. split.
              ** eapply Forall_impl; [done|]. unfold fresh. simpl.
                 intros l' ?. rewrite length_app. simpl. lia.
              ** apply Forall_singleton. unfold fresh. simpl.
                 rewrite length_app, Hnews, length_app. simpl.
                 subst n0. lia.
      * simpl. intros line w2 (Hext2 & Hlen & Hline). split; [done|].
        apply Forall_app. split; [|by apply Forall_singleton].
        eapply Forall_impl; [done|]. intros line' Hline'.
        eapply Forall_impl; [done|]. unfold fresh. intros l' ?. lia.
  - simpl. intros gridCopy w' [[news Hnews] Hrows]. split.
    + intros l cell Hl. rewrite Hnews. by apply lookup_app_l_Some.
    + intros l (r & c & (_ & _ & line & Hline & Hl)%gridAt_Some).
      rewrite Forall_forall in Hrows.
      assert (Hfresh : Forall (fresh w') line).
      { apply Hrows. by eapply list_elem_of_lookup_2. }
      rewrite Forall_forall in Hfresh. apply Hfresh.
      by eapply list_elem_of_lookup_2.
Qed.

(** [simulateElimination] writes to cells of the grid it is given, and to
    no other. *)
Lemma returns_simulateLoop this grid totalCells n0 iterations eliminatedCount w :
  (∀ l, inGridOf grid l → (n0 ≤ l < length (heap w))%nat) →
  returns (simulateLoop this grid totalCells iterations eliminatedCount) w (λ _ w',
    ∀ l, (l < n0)%nat → heap w' !! l = heap w !! l).
Proof.
  revert eliminatedCount w.
  induction iterations as [|iterations IH]; intros eliminatedCount w Hgrid; simpl.
  - apply returns_bind, returns_console_log. done.
  - apply returns_bind, returns_getHeap.
    destruct (findAllConnectablePairsInGrid this (heap w) grid)
      as [|[cell1 cell2] pairs] eqn:Hpairs; [done|].
    assert (Hin : (cell1, cell2) ∈ findAllConnectablePairsInGrid this (heap w) grid)
      by (rewrite Hpairs; by left).
    apply findAllConnectablePairsInGrid_inGrid in Hin as [H1%Hgrid H2%Hgrid].
    destruct (lookup_lt_is_Some_2 (heap w) cell1) as [c1 Hc1]; [lia|].
    apply returns_bind. eapply returns_writeCell; [done|].
    destruct (lookup_lt_is_Some_2 (<[cell1:=set_matched true c1]> (heap w)) cell2)
      as [c2 Hc2]; [rewrite length_insert; lia|].
    apply returns_bind. eapply returns_writeCell; [done|]. simpl.
    assert (Hkeep : ∀ l, (l < n0)%nat →
              <[cell2:=set_matched true c2]> (<[cell1:=set_matched true c1]> (heap w)) !! l
              = heap w !! l).
    { intros l Hl. rewrite !list_lookup_insert_ne by lia. done. }
    destruct (_ >=? _); [done|].
    eapply returns_mono.
    + apply IH. simpl. intros l Hl%Hgrid. rewrite !length_insert. done.
    + simpl. intros _ w' Hw' l Hl. rewrite Hw' by done. by apply Hkeep.
Qed.

(** C7. On a well-formed board [isBoardSolvable] returns, and every cell
    object that existed before the call (the cells of the live grid among
    them) has the same fields after it, [pattern], [visible] and [matched]
    included: the elimination is simulated on the objects that
    [createGridCopy] has made. *)
Theorem isBoardSolvable_leaves_grid this w :
  wf this (heap w) →
  ∃ verdict w',
    isBoardSolvable this w = Returns verdict w' ∧
    (∀ l cell, heap w !! l = Some cell → heap w' !! l = Some cell) ∧
    (∀ l, inGrid this l →
       pattern (deref (heap w') l) = pattern (deref (heap w) l) ∧
       visible (deref (heap w') l) = visible (deref (heap w) l) ∧
       matched (deref (heap w') l) = matched (deref (heap w) l)).
Proof.
  intros Hwf.
  assert (Hret : returns (isBoardSolvable this) w (λ _ w', unchanged (heap w) (heap w'))).
  { unfold isBoardSolvable. apply returns_bind.
    eapply returns_mono; [apply returns_validateGameState|].
    simpl. intros valid w1 (Hheap & _ & _).
    destruct valid; simpl.
    - apply returns_bind. eapply returns_mono.
      + apply returns_createGridCopy. by rewrite Hheap.
      + simpl. intros gridCopy w2 [Hkeep Hfresh]. rewrite Hheap in Hkeep, Hfresh.
        eapply returns_mono; [by apply (returns_simulateLoop _ _ _ (length (heap w)))|].
        simpl. intros _ w3 Hw3 l cell Hl.
        rewrite Hw3 by (by eapply lookup_lt_Some). by apply Hkeep.
    - apply returns_ret. intros l cell. by rewrite Hheap. }
  apply returns_eq in Hret as (verdict & w' & Heq & Hkeep).
  exists verdict, w'. split; [done|]. split; [done|].
  intros l [Hl _]%(inGrid_deref this (heap w) Hwf).
  apply Hkeep in Hl as Hl'. unfold deref at 1 3 5.
  by rewrite (list_lookup_total_correct _ _ _ Hl').
Qed.

(** ** Row-major traversals *)

Lemma bind_ext_in {A B} (f g : A → list B) (l : list A) :
  (∀ a, a ∈ l → f a = g a) → l ≫= f = l ≫= g.
Proof.
  intros Hfg. apply Forall_bind_ext, Forall_forall. done.
Qed.

Lemma fmap_seqZ_lookup {A} (l : list A) :
  (λ i, l !! Z.to_nat i) <$> seqZ 0 (Z.of_nat (length l)) = Some <$> l.
Proof.
  apply list_eq. intros i. rewrite !list_lookup_fmap.
  destruct (decide (i < length l)%nat) as [Hlt|Hge].
  - rewrite lookup_seqZ_lt by lia. simpl.
    replace (Z.to_nat (0 + Z.of_nat i)) with i by lia.
    by destruct (lookup_lt_is_Some_2 l i Hlt) as [a ->].
  - rewrite lookup_seqZ_ge by lia. rewrite lookup_ge_None_2 by lia. done.
Qed.

Lemma join_bind {A B} (f : A → list B) (ls : list (list A)) :
  mjoin ls ≫= f = ls ≫= (λ l, l ≫= f).
Proof.
  induction ls as [|l ls IH]; [done|]. simpl. by rewrite bind_app, IH.
Qed.

(** Two nested loops over the rows and the columns of a rectangular grid
    visit the cells of the grid in row-major order. *)
Lemma nested_loops_cells {B} (grid : Grid) (rows cols : Z) (F : option loc → list B) :
  rows = Z.of_nat (length grid) →
  (∀ line, line ∈ grid → Z.of_nat (length line) = cols) →
  (r ← seqZ 0 rows; c ← seqZ 0 cols; F (gridAt grid r c)) =
  mjoin grid ≫= (λ l, F (Some l)).
Proof.
  intros -> Hcols.
  transitivity (seqZ 0 (Z.of_nat (length grid)) ≫= (λ r,
      match grid !! Z.to_nat r with
      | Some line => line ≫= (λ l, F (Some l))
      | None => []
      end)).
  - apply bind_ext_in. intros r Hr%elem_of_seqZ.
    destruct (lookup_lt_is_Some_2 grid (Z.to_nat r)) as [line Hline]; [lia|].
    rewrite Hline. rewrite <- (Hcols line) by (by eapply list_elem_of_lookup_2).
    transitivity (seqZ 0 (Z.of_nat (length line)) ≫= (λ c, F (line !! Z.to_nat c))).
    + apply bind_ext_in. intros c Hc%elem_of_seqZ. f_equal.
      unfold gridAt. replace ((r <? 0) || (c <? 0)) with false
        by (symmetry; apply orb_false_iff; lia).
      by rewrite Hline.
    + change (λ c, F (line !! Z.to_nat c)) with (F ∘ (λ c, line !! Z.to_nat c)).
      rewrite <- list_fmap_bind, fmap_seqZ_lookup, list_fmap_bind. done.
  - change (λ r, match grid !! Z.to_nat r with
                 | Some line => line ≫= (λ l, F (Some l))
                 | None => []
                 end)
      with ((λ oline : option (list loc),
               match oline with
               | Some line => line ≫= (λ l, F (Some l))
               | None => []
               end) ∘ (λ r, grid !! Z.to_nat r)).
    rewrite <- list_fmap_bind, fmap_seqZ_lookup, list_fmap_bind, join_bind. done.
Qed.

Lemma bind_filter {A} (P : A → bool) (l : list A) :
  l ≫= (λ a, if P a then [a] else []) = filter (λ a, P a = true) l.
Proof.
  induction l as [|a l IH]; [done|]. rewrite bind_cons, IH.
  destruct (P a) eqn:HP.
  - by rewrite filter_cons_True.
  - by rewrite filter_cons_False by congruence.
Qed.

(** The same for loops that carry a state. *)
Lemma foldM_ext {A S} (body body' : S → A → M S) s l w :
  (∀ s a w, a ∈ l → body s a w = body' s a w) →
  foldM body s l w = foldM body' s l w.
Proof.
  revert s w. induction l as [|a l IH]; intros s w Hext; [done|]. simpl.
  unfold mbind, M_bind. rewrite Hext by (by left).
  destruct (body' s a w); [|done..]. apply IH. intros. apply Hext. by right.
Qed.

Lemma foldM_app {A S} (body : S → A → M S) s l1 l2 w :
  foldM body s (l1 ++ l2) w = (s' ← foldM body s l1; foldM body s' l2) w.
Proof.
  revert s w. induction l1 as [|a l1 IH]; intros s w; [done|]. simpl.
  unfold mbind, M_bind. destruct (body s a w); [|done..]. apply IH.
Qed.

Lemma foldM_bind {A A' S} (body : S → A' → M S) (f : A → list A') s l w :
  foldM body s (l ≫= f) w = foldM (λ s a, foldM body s (f a)) s l w.
Proof.
  revert s w. induction l as [|a l IH]; intros s w; [done|].
  rewrite bind_cons, foldM_app. simpl. unfold mbind, M_bind.
  destruct (foldM body s (f a) w); [|done..]. apply IH.
Qed.

Lemma foldM_fmap {A A' S} (body : S → A' → M S) (f : A → A') s l w :
  foldM body s (f <$> l) w = foldM (λ s a, body s (f a)) s l w.
Proof.
  revert s w. induction l as [|a l IH]; intros s w; [done|]. simpl.
  unfold mbind, M_bind. destruct (body s (f a) w); [|done..]. apply IH.
Qed.

Lemma foldM_singleton {A S} (body : S → A → M S) s a w :
  foldM body s [a] w = body s a w.
Proof. simpl. unfold mbind, M_bind. by destruct (body s a w). Qed.

Lemma nested_loops_foldM {S} (grid : Grid) (rows cols : Z)
    (body : S → option loc → M S) s w :
  rows = Z.of_nat (length grid) →
  (∀ line, line ∈ grid → Z.of_nat (length line) = cols) →
  foldM (λ s r, foldM (λ s c, body s (gridAt grid r c)) s (seqZ 0 cols)) s (seqZ 0 rows) w =
  foldM (λ s l, body s (Some l)) s (mjoin grid) w.
Proof.
  intros Hrows Hcols.
  rewrite <- (foldM_fmap body Some).
  replace (Some <$> mjoin grid) with (mjoin grid ≫= (λ l, [Some l]))
    by (by induction (mjoin grid) as [|? ? IH]; [|rewrite bind_cons, IH]).
  rewrite <- (nested_loops_cells grid rows cols (λ ol, [ol])) by done.
  rewrite foldM_bind. apply foldM_ext. intros s' r w' _.
  rewrite foldM_bind. apply foldM_ext. intros s'' c w'' _.
  by rewrite foldM_singleton.
Qed.

(** ** The cells of a well-formed grid, in row-major order *)

Section Cells.
Context (this : LinkGameAlgorithm.t) (h : Heap) (Hwf : wf this h).

Lemma cells_inGrid l : l ∈ mjoin (grid this) ↔ inGrid this l.
Proof.
  rewrite list_elem_of_join. split.
  - intros (line & Hl & Hline).
    apply list_elem_of_lookup in Hl as [c Hc].
    apply list_elem_of_lookup in Hline as [r Hr].
    exists (Z.of_nat r), (Z.of_nat c). apply gridAt_Some.
    split; [lia|]. split; [lia|]. exists line. by rewrite !Nat2Z.id.
  - intros (r & c & (_ & _ & line & Hline & Hl)%gridAt_Some).
    exists line. split; by eapply list_elem_of_lookup_2.
Qed.

Lemma cells_allocated l : l ∈ mjoin (grid this) → (l < length h)%nat.
Proof.
  intros Hl%cells_inGrid. destruct (inGrid_deref this h Hwf l Hl) as [Hcell _].
  by eapply lookup_lt_Some.
Qed.

Lemma cells_positions :
  (λ l, (row (deref h l), col (deref h l))) <$> mjoin (grid this) =
  (r ← seqZ 0 (gridRows this); c ← seqZ 0 (gridCols this); [(r, c)]).
Proof.
  transitivity (mjoin (grid this) ≫= (λ l, [(row (deref h l), col (deref h l))])).
  { by induction (mjoin (grid this)) as [|? ? IH]; [|rewrite bind_cons, fmap_cons, IH]. }
  rewrite <- (nested_loops_cells (grid this) (gridRows this) (gridCols this)
    (λ ol, match ol with
           | Some l => [(row (deref h l), col (deref h l))]
           | None => []
           end)) by (apply Hwf).
  apply bind_ext_in. intros r Hr%elem_of_seqZ.
  apply bind_ext_in. intros c Hc%elem_of_seqZ.
  destruct (gridAt_defined this h Hwf r c) as (l & cell & -> & Hcell & <- & <-);
    [unfold inBounds; lia|].
  unfold deref. by rewrite (list_lookup_total_correct _ _ _ Hcell).
Qed.

Lemma cells_NoDup : NoDup (mjoin (grid this)).
Proof.
  apply (NoDup_fmap_1 (λ l, (row (deref h l), col (deref h l)))).
  rewrite cells_positions. apply NoDup_bind.
  - intros r1 r2 p _ _ (c1 & ->%list_elem_of_singleton & _)%list_elem_of_bind
      (c2 & [= -> _]%list_elem_of_singleton & _)%list_elem_of_bind. done.
  - intros r _. apply NoDup_bind.
    + intros c1 c2 p _ _ ->%list_elem_of_singleton [= ->]%list_elem_of_singleton. done.
    + intros. apply NoDup_singleton.
    + apply NoDup_seqZ.
  - apply NoDup_seqZ.
Qed.

Lemma cells_length :
  Z.of_nat (length (mjoin (grid this))) = gridRows this * gridCols this.
Proof.
  rewrite (wf_rows _ _ Hwf). pose proof (wf_cols _ _ Hwf) as Hcols.
  induction (grid this) as [|line g IH]; simpl; [lia|].
  rewrite length_app, Nat2Z.inj_add, IH.
  - rewrite (Hcols line) by (by left). lia.
  - intros line' Hin. apply Hcols. by right.
Qed.

Lemma getVisibleCells_cells :
  LinkGameAlgorithm.getVisibleCells this h =
  filter (λ l, visible (deref h l) && negb (matched (deref h l)) = true)
         (mjoin (grid this)).
Proof.
  unfold LinkGameAlgorithm.getVisibleCells.
  rewrite (nested_loops_cells (grid this) (gridRows this) (gridCols this)
    (λ ol, match ol with
           | Some l => if visible (deref h l) && negb (matched (deref h l))
                       then [l] else []
           | None => []
           end)) by (apply Hwf).
  apply (bind_filter (λ l, visible (deref h l) && negb (matched (deref h l)))).
Qed.

End Cells.

(** ** The shuffle *)

Lemma swap_Permutation {A} (i j : nat) (array : list A) : swap i j array ≡ₚ array.
Proof.
  unfold swap.
  destruct (array !! i) as [ai|] eqn:Hi; [|done].
  destruct (array !! j) as [aj|] eqn:Hj; [|done].
  apply Permutation_inj. split; [by rewrite !length_insert|].
  exists (λ k, if decide (k = i) then j else if decide (k = j) then i else k).
  split.
  - intros k1 k2. repeat case_decide; congruence.
  - intros k. cbv beta. apply lookup_lt_Some in Hi as Hi', Hj as Hj'.
    destruct (decide (k = i)) as [->|Hki].
    + destruct (decide (i = j)) as [->|Hij].
      * rewrite list_lookup_insert_eq by (by rewrite length_insert). congruence.
      * rewrite list_lookup_insert_ne by done.
        rewrite list_lookup_insert_eq by done. done.
    + destruct (decide (k = j)) as [->|Hkj].
      * rewrite list_lookup_insert_eq by (by rewrite length_insert). done.
      * rewrite !list_lookup_insert_ne by done. done.
Qed.

Lemma returns_shuffleArray {A} (array : list A) w :
  returns (shuffleArray array) w (λ array' w', array' ≡ₚ array ∧ sameBoard w w').
Proof.
  unfold shuffleArray.
  eapply returns_mono.
  - apply (returns_foldM _ (λ _ array' w', array' ≡ₚ array ∧ sameBoard w w')).
    + done.
    + intros done i array' w' [Hperm (Hheap & Hrandom & Hconsole)] _.
      apply returns_bind, returns_Math_random. apply returns_ret.
      split; [by rewrite swap_Permutation|]. done.
  - done.
Qed.

(** The index drawn by the shuffle lies in [0 .. i]: the swap is always
    between two slots of the array. *)
Lemma shuffle_index_in_range (u : Q) (i : nat) :
  (0 <= u)%Q → (u < 1)%Q →
  (Z.to_nat (Qfloor (u * inject_Z (Z.of_nat i + 1))) ≤ i)%nat.
Proof.
  intros Hu0 Hu1.
  assert (Hpos : (0 < inject_Z (Z.of_nat i + 1))%Q).
  { change 0%Q with (inject_Z 0). rewrite <- Zlt_Qlt. lia. }
  assert (Hlt : (u * inject_Z (Z.of_nat i + 1) < inject_Z (Z.of_nat i + 1))%Q).
  { rewrite <- (Qmult_1_l (inject_Z (Z.of_nat i + 1))) at 2.
    by apply Qmult_lt_compat_r. }
  assert (Hfloor : Qfloor (u * inject_Z (Z.of_nat i + 1)) < Z.of_nat i + 1).
  { rewrite Zlt_Qlt. eapply Qle_lt_trans; [apply Qfloor_le|done]. }
  lia.
Qed.

(** ** Loops that write to the cells of a list, one after the other *)

Lemma withHeap_withHeap h1 h2 w : withHeap h2 (withHeap h1 w) = withHeap h2 w.
Proof. done. Qed.

Lemma withHeap_heap w : withHeap (heap w) w = w.
Proof. by destruct w. Qed.

Lemma writeCell_eq l f cell w :
  heap w !! l = Some cell →
  writeCell l f w = Returns () (withHeap (<[l := f cell]> (heap w)) w).
Proof. intros Hl. unfold writeCell. by rewrite Hl. Qed.

Lemma writeCell_twice l f g cell w :
  heap w !! l = Some cell →
  (writeCell l f;; writeCell l g) w =
    Returns () (withHeap (<[l := g (f cell)]> (heap w)) w).
Proof.
  intros Hl. unfold mbind, M_bind. rewrite (writeCell_eq l f cell) by done.
  rewrite (writeCell_eq l g (f cell)).
  - simpl. by rewrite list_insert_insert_eq.
  - simpl. apply list_lookup_insert_eq. by eapply lookup_lt_Some.
Qed.

Lemma writeCell_thrice l f g k cell w :
  heap w !! l = Some cell →
  (writeCell l f;; writeCell l g;; writeCell l k) w =
    Returns () (withHeap (<[l := k (g (f cell))]> (heap w)) w).
Proof.
  intros Hl. unfold mbind at 1, M_bind at 1. rewrite (writeCell_eq l f cell) by done.
  rewrite (writeCell_twice l g k (f cell)).
  - simpl. by rewrite list_insert_insert_eq.
  - simpl. apply list_lookup_insert_eq. by eapply lookup_lt_Some.
Qed.

Section Writes.
Context {S : Type} (body : S → loc → M S) (next : S → S) (g : S → Cell → Cell).
Context (Hbody : ∀ s l w cell, heap w !! l = Some cell →
           body s l w = Returns (next s) (withHeap (<[l := g s cell]> (heap w)) w)).

Lemma foldM_writes cells s w :
  NoDup cells → (∀ l, l ∈ cells → (l < length (heap w))%nat) →
  ∃ h', foldM body s cells w =
          Returns (Nat.iter (length cells) next s) (withHeap h' w) ∧
        length h' = length (heap w) ∧
        (∀ j l, cells !! j = Some l →
                h' !! l = Some (g (Nat.iter j next s) (heap w !!! l))) ∧
        (∀ l, l ∉ cells → h' !! l = heap w !! l).
Proof.
  revert s w. induction cells as [|l cells IH]; intros s w Hnodup Halloc.
  - exists (heap w). simpl. unfold mret, M_ret. rewrite withHeap_heap.
    repeat split; done.
  - apply NoDup_cons in Hnodup as [Hnotin Hnodup].
    destruct (lookup_lt_is_Some_2 (heap w) l) as [cell Hcell];
      [apply Halloc; by left|].
    destruct (IH (next s) (withHeap (<[l := g s cell]> (heap w)) w) Hnodup)
      as (h' & Hrun & Hlen & Hcells & Hother).
    { simpl. intros l' Hl'. rewrite length_insert. apply Halloc. by right. }
    exists h'. split; [|split; [|split]].
    + cbn [foldM]. unfold mbind, M_bind. rewrite (Hbody s l w cell Hcell), Hrun.
      cbn [length]. by rewrite Nat.iter_succ_r.
    + rewrite Hlen. simpl. by rewrite length_insert.
    + intros [|j] l' Hl'; simpl in Hl'.
      * injection Hl' as <-. rewrite Hother by done. simpl.
        rewrite list_lookup_insert_eq by (by eapply lookup_lt_Some).
        by rewrite (list_lookup_total_correct _ _ _ Hcell).
      * rewrite (Hcells j l' Hl'), Nat.iter_succ_r. simpl heap.
        rewrite list_lookup_total_insert_ne; [done|].
        intros ->. apply Hnotin. by eapply list_elem_of_lookup_2.
    + intros l' Hl'. apply not_elem_of_cons in Hl' as [Hne Hl'].
      rewrite (Hother l' Hl'). simpl. by rewrite list_lookup_insert_ne.
Qed.
End Writes.

Lemma filter_prefix {A} (P : A → Prop) `{∀ a, Decision (P a)} (l : list A) (k : nat) :
  (∀ j a, l !! j = Some a → (P a ↔ (j < k)%nat)) → filter P l = take k l.
Proof.
  revert k. induction l as [|a l IH]; intros k HP; [by destruct k|].
  destruct k as [|k].
  - rewrite filter_cons_False by (rewrite (HP 0%nat a); [lia|done]).
    rewrite (IH 0%nat); [by destruct l|].
    intros j a' Hj. rewrite (HP (Datatypes.S j) a' Hj). lia.
  - rewrite filter_cons_True by (rewrite (HP 0%nat a); [lia|done]).
    simpl. f_equal. apply IH.
    intros j a' Hj. rewrite (HP (Datatypes.S j) a' Hj). lia.
Qed.

(** ** Filling the grid *)

Lemma getVisibleCells_asAlgorithm this h :
  LinkGame.getVisibleCells this h =
  LinkGameAlgorithm.getVisibleCells (asAlgorithm this) h.
Proof. reflexivity. Qed.

Lemma writeCell_bind {B} l f cell w (k : M B) :
  heap w !! l = Some cell →
  (writeCell l f;; k) w = k (withHeap (<[l := f cell]> (heap w)) w).
Proof.
  intros Hl. unfold mbind, M_bind. by rewrite (writeCell_eq l f cell).
Qed.

Section Fill.
Context (this : LinkGame.t) (patternPairs : list Pattern).

Let totalCells : Z := LinkGame.gridRows this * LinkGame.gridCols this.
Let count : Z := Z.min (Z.of_nat (length patternPairs)) totalCells.

Let fills (patternIndex : Z) : bool :=
  (patternIndex <? Z.of_nat (length patternPairs)) && (patternIndex <? totalCells).

Let next (patternIndex : Z) : Z :=
  if fills patternIndex then patternIndex + 1 else patternIndex.

Let write (patternIndex : Z) (cell : Cell) : Cell :=
  if fills patternIndex
  then set_matched false (set_visible true
         (set_pattern (patternPairs !! Z.to_nat patternIndex) cell))
  else set_matched true (set_visible false cell).

Let body (patternIndex : Z) (ol : option loc) : M Z :=
  cell ← match ol with Some l => mret l | None => throw end;
  if fills patternIndex
  then
    writeCell cell (set_pattern (patternPairs !! Z.to_nat patternIndex));;
    writeCell cell (set_visible true);;
    writeCell cell (set_matched false);;
    mret (patternIndex + 1)
  else
    writeCell cell (set_visible false);;
    writeCell cell (set_matched true);;
    mret patternIndex.

Lemma fill_body patternIndex l w cell :
  heap w !! l = Some cell →
  body patternIndex (Some l) w =
    Returns (next patternIndex)
            (withHeap (<[l := write patternIndex cell]> (heap w)) w).
Proof.
  intros Hl. unfold body, next, write.
  unfold mbind at 1, M_bind at 1. cbn [mret M_ret].
  assert (Hins : ∀ (h : Heap) c, h !! l = Some c →
            ∀ c', <[l := c']> h !! l = Some c').
  { intros h c Hc c'. apply list_lookup_insert_eq. by eapply lookup_lt_Some. }
  destruct (fills patternIndex).
  - rewrite (writeCell_bind l _ cell) by done.
    rewrite (writeCell_bind l _ (set_pattern (patternPairs !! Z.to_nat patternIndex) cell))
      by (simpl; eauto).
    rewrite (writeCell_bind l _ (set_visible true
               (set_pattern (patternPairs !! Z.to_nat patternIndex) cell)))
      by (simpl; eauto).
    simpl. by rewrite !list_insert_insert_eq.
  - rewrite (writeCell_bind l _ cell) by done.
    rewrite (writeCell_bind l _ (set_visible false cell)) by (simpl; eauto).
    simpl. by rewrite !list_insert_insert_eq.
Qed.

Lemma fill_index j : Nat.iter j next 0 = Z.min (Z.of_nat j) (Z.max count 0).
Proof.
  induction j as [|j IH]; [simpl; lia|].
  rewrite Nat.iter_succ, IH. unfold next, fills, count.
  repeat match goal with
         | |- context [?a <? ?b] => destruct (Z.ltb_spec a b)
         end; simpl; lia.
Qed.

Lemma fill_write j cell :
  write (Nat.iter j next 0) cell = filled patternPairs count j cell.
Proof.
  rewrite fill_index. unfold write, filled, fills, count.
  destruct (Z.ltb_spec (Z.of_nat j) (Z.min (Z.of_nat (length patternPairs)) totalCells))
    as [Hj|Hj].
  - replace (Z.min (Z.of_nat j) _) with (Z.of_nat j) by lia.
    rewrite Nat2Z.id.
    replace (_ && _) with true by (symmetry; apply andb_true_iff; lia). done.
  - replace (_ && _) with false; [done|].
    symmetry. apply andb_false_iff. lia.
Qed.

Lemma fillCells_spec w :
  wfGame this (heap w) →
  ∃ h', LinkGame.fillCells this patternPairs w = Returns () (withHeap h' w) ∧
        length h' = length (heap w) ∧
        (∀ j l, mjoin (LinkGame.grid this) !! j = Some l →
                h' !! l = Some (filled patternPairs count j (heap w !!! l))) ∧
        (∀ l, l ∉ mjoin (LinkGame.grid this) → h' !! l = heap w !! l).
Proof.
  intros [Hwf _].
  destruct (foldM_writes (λ s l, body s (Some l)) next write fill_body
              (mjoin (LinkGame.grid this)) 0 w) as (h' & Hrun & Hlen & Hcells & Hother).
  { apply (cells_NoDup (asAlgorithm this) (heap w) Hwf). }
  { apply (cells_allocated (asAlgorithm this) (heap w) Hwf). }
  exists h'. split; [|split; [done|split; [|done]]].
  - unfold LinkGame.fillCells. cbv zeta. unfold mbind at 1, M_bind at 1.
    pose proof (nested_loops_foldM (LinkGame.grid this) (LinkGame.gridRows this)
                  (LinkGame.gridCols this) body 0 w
                  (wf_rows _ _ Hwf) (wf_cols _ _ Hwf)) as Hflat.
    rewrite Hrun in Hflat. unfold gridCell.
    unfold body, fills, totalCells in Hflat. rewrite Hflat. done.
  - intros j l Hl. rewrite (Hcells j l Hl). by rewrite fill_write.
Qed.

End Fill.

(** ** The steps of one generation attempt *)

Lemma wf_sameShape this h h' :
  wf this h →
  (∀ l cell, h !! l = Some cell →
     ∃ cell', h' !! l = Some cell' ∧ row cell' = row cell ∧ col cell' = col cell) →
  wf this h'.
Proof.
  intros [Hrows Hcols Hcells] Hshape. split; [done..|].
  intros r c l Hat. destruct (Hcells r c l Hat) as (cell & Hcell & ? & ?).
  destruct (Hshape l cell Hcell) as (cell' & ? & ? & ?).
  exists cell'. split; [done|]. split; congruence.
Qed.

Lemma deepReshuffles_log w line :
  deepReshuffles (mkWorld (heap w) (random w) (randomCalls w) (console w ++ [line])) =
  (deepReshuffles w + if decide (line = LogDeepReshuffle) then 1 else 0)%nat.
Proof.
  unfold deepReshuffles. simpl. rewrite filter_app, length_app. f_equal.
  rewrite filter_cons. by case_decide.
Qed.

Lemma returns_validateGameState_quiet this w :
  returns (validateGameState this) w (λ _ w',
    heap w' = heap w ∧ random w' = random w ∧ deepReshuffles w' = deepReshuffles w).
Proof.
  unfold validateGameState. apply returns_bind, returns_getHeap. cbv zeta.
  destruct (oddPattern _) as [[patternId count]|]; [|done].
  apply returns_bind, returns_console_log. apply returns_ret.
  split; [done|]. split; [done|]. rewrite deepReshuffles_log. simpl. lia.
Qed.

Lemma newAlgorithm_eq this w :
  wfGame this (heap w) →
  LinkGame.newAlgorithm (LinkGame.grid this) w = Returns (asAlgorithm this) w.
Proof.
  intros [[Hrows Hcols _] Hpos]. simpl in Hrows, Hcols.
  unfold LinkGame.newAlgorithm, LinkGameAlgorithm.new.
  destruct (LinkGame.grid this) as [|row0 grid'] eqn:Hgrid; [simpl in Hrows; lia|].
  unfold asAlgorithm. rewrite Hgrid, Hrows, <- (Hcols row0) by (by left). done.
Qed.

Lemma callStrictBoardValidation_eq strictBoardValidation this algorithm w :
  LinkGame.algorithm this = Some algorithm →
  LinkGame.callStrictBoardValidation strictBoardValidation this w =
    Returns (strictBoardValidation algorithm (heap w)) w.
Proof. intros Halg. unfold LinkGame.callStrictBoardValidation. by rewrite Halg. Qed.

(** The state of the board after the cells have been filled. *)
Lemma fillCells_post this patternPairs w :
  wfGame this (heap w) →
  let count := Z.min (Z.of_nat (length patternPairs))
                     (LinkGame.gridRows this * LinkGame.gridCols this) in
  ∃ h', LinkGame.fillCells this patternPairs w = Returns () (withHeap h' w) ∧
        wfGame this h' ∧
        visiblePatterns this h' = Some <$> take (Z.to_nat count) patternPairs.
Proof.
  intros Hwfg count. pose proof Hwfg as [Hwf Hpos].
  destruct (fillCells_spec this patternPairs w Hwfg) as (h' & Hrun & Hlen & Hcells & Hother).
  fold count in Hcells.
  pose proof (cells_length (asAlgorithm this) (heap w) Hwf) as Htotal. simpl in Htotal.
  assert (Hshape : ∀ l cell, heap w !! l = Some cell →
            ∃ cell', h' !! l = Some cell' ∧ row cell' = row cell ∧ col cell' = col cell).
  { intros l cell Hcell.
    destruct (decide (l ∈ mjoin (LinkGame.grid this))) as [Hin|Hnotin].
    - apply list_elem_of_lookup in Hin as [j Hj].
      rewrite (Hcells j l Hj), (list_lookup_total_correct _ _ _ Hcell).
      eexists. split; [done|]. unfold filled. by destruct (_ <? _).
    - exists cell. by rewrite Hother. }
  assert (Hwf' : wf (asAlgorithm this) h') by (by eapply wf_sameShape).
  exists h'. split; [done|]. split; [done|].
  unfold visiblePatterns.
  rewrite getVisibleCells_asAlgorithm, (getVisibleCells_cells _ _ Hwf'). simpl.
  assert (Hderef : ∀ j l, mjoin (LinkGame.grid this) !! j = Some l →
            deref h' l = filled patternPairs count j (heap w !!! l)).
  { intros j l Hj. unfold deref.
    by rewrite (list_lookup_total_correct _ _ _ (Hcells j l Hj)). }
  rewrite (filter_prefix _ _ (Z.to_nat count)).
  - apply list_eq. intros j. rewrite !list_lookup_fmap.
    destruct (decide (j < Z.to_nat count)%nat) as [Hlt|Hge].
    + rewrite !lookup_take_lt by done.
      destruct (lookup_lt_is_Some_2 (mjoin (LinkGame.grid this)) j) as [l Hl]; [lia|].
      destruct (lookup_lt_is_Some_2 patternPairs j) as [p Hp]; [lia|].
      rewrite Hl, Hp. simpl. f_equal. rewrite (Hderef j l Hl). unfold filled.
      replace (Z.of_nat j <? count) with true by (symmetry; apply Z.ltb_lt; lia).
      done.
    + rewrite !lookup_take_ge by lia. done.
  - intros j l Hj. rewrite (Hderef j l Hj). unfold filled.
    destruct (Z.ltb_spec (Z.of_nat j) count); simpl; split; (done || lia).
Qed.

(** ** Reassigning patterns: [reshuffleGrid] and [deepReshuffleGrid] *)

Section Reassign.
Context (patterns : list Pattern).

Let next (patternIndex : nat) : nat :=
  match patterns !! patternIndex with
  | Some _ => Datatypes.S patternIndex
  | None => patternIndex
  end.

Let write (patternIndex : nat) (cell : Cell) : Cell :=
  match patterns !! patternIndex with
  | Some p => set_pattern (Some p) cell
  | None => cell
  end.

Let body (patternIndex : nat) (cell : loc) : M nat :=
  match patterns !! patternIndex with
  | Some p => writeCell cell (set_pattern (Some p));; mret (Datatypes.S patternIndex)
  | None => mret patternIndex
  end.

Lemma reassign_body patternIndex l w cell :
  heap w !! l = Some cell →
  body patternIndex l w =
    Returns (next patternIndex)
            (withHeap (<[l := write patternIndex cell]> (heap w)) w).
Proof.
  intros Hl. unfold body, next, write.
  destruct (patterns !! patternIndex) as [p|].
  - by rewrite (writeCell_bind l _ cell).
  - by rewrite list_insert_id, withHeap_heap.
Qed.

Lemma reassign_index j : Nat.iter j next 0%nat = (j `min` length patterns)%nat.
Proof.
  induction j as [|j IH]; [done|]. rewrite Nat.iter_succ, IH. unfold next.
  destruct (patterns !! _) as [p|] eqn:Hp.
  - apply lookup_lt_Some in Hp. lia.
  - apply lookup_ge_None in Hp. lia.
Qed.

Lemma reassign_write j cell :
  write (Nat.iter j next 0%nat) cell =
  match patterns !! j with
  | Some p => set_pattern (Some p) cell
  | None => cell
  end.
Proof.
  rewrite reassign_index. unfold write.
  destruct (decide (j < length patterns)%nat).
  - by replace (j `min` length patterns)%nat with j by lia.
  - rewrite !lookup_ge_None_2 by lia. done.
Qed.

Lemma reassignPatterns_spec visibleCells w :
  NoDup visibleCells → (∀ l, l ∈ visibleCells → (l < length (heap w))%nat) →
  ∃ h', reassignPatterns visibleCells patterns w = Returns () (withHeap h' w) ∧
        length h' = length (heap w) ∧
        (∀ j l, visibleCells !! j = Some l →
           h' !! l = Some match patterns !! j with
                          | Some p => set_pattern (Some p) (heap w !!! l)
                          | None => heap w !!! l
                          end) ∧
        (∀ l, l ∉ visibleCells → h' !! l = heap w !! l).
Proof.
  intros Hnodup Halloc.
  destruct (foldM_writes body next write reassign_body visibleCells 0%nat w Hnodup Halloc)
    as (h' & Hrun & Hlen & Hcells & Hother).
  exists h'. split; [|split; [done|split; [|done]]].
  - unfold reassignPatterns. unfold mbind at 1, M_bind at 1.
    unfold body in Hrun. by rewrite Hrun.
  - intros j l Hl. by rewrite (Hcells j l Hl), reassign_write.
Qed.
End Reassign.

Lemma fmap_omap_all {A B} (f : A → option B) (l : list A) :
  Forall (λ a, is_Some (f a)) l → f <$> l = Some <$> omap f l.
Proof.
  induction 1 as [|a l [b Hb] _ IH]; [done|]. csimpl. rewrite Hb. csimpl. by rewrite IH.
Qed.

Lemma filter_ext_in {A} (P Q : A → Prop) `{∀ a, Decision (P a), ∀ a, Decision (Q a)}
    (l : list A) :
  (∀ a, a ∈ l → (P a ↔ Q a)) → filter P l = filter Q l.
Proof.
  induction l as [|a l IH]; intros HPQ; [done|].
  rewrite !filter_cons, IH by (intros; apply HPQ; by right).
  destruct (decide (P a)) as [HP|HP], (decide (Q a)) as [HQ|HQ]; try done;
    exfalso; apply (HPQ a) in HP || apply (HPQ a) in HQ; by (done || left).
Qed.

Lemma returns_shuffles (patterns : list Pattern) (passes : list Z) w :
  returns (foldM (λ patterns _, shuffleArray patterns) patterns passes) w
    (λ patterns' w', patterns' ≡ₚ patterns ∧ sameBoard w w').
Proof.
  eapply returns_mono.
  - apply (returns_foldM _ (λ _ patterns' w', patterns' ≡ₚ patterns ∧ sameBoard w w')).
    + done.
    + intros done pass patterns' w' [Hperm (Hheap & Hrandom & Hconsole)] _.
      eapply returns_mono; [apply returns_shuffleArray|]. simpl.
      intros patterns'' w'' [Hperm' (Hheap' & Hrandom' & Hconsole')].
      split; [by rewrite Hperm'|]. unfold sameBoard. split_and!; congruence.
  - done.
Qed.

(** [deepReshuffleGrid] keeps the grid well formed, logs itself once, and
    permutes the patterns of the visible cells when each of them holds one. *)
Lemma returns_deepReshuffleGrid this w :
  wfGame this (heap w) →
  returns (LinkGame.deepReshuffleGrid this) w (λ this' w',
    this' = LinkGame.withAlgorithm (Some (asAlgorithm this)) this ∧
    wfGame this' (heap w') ∧
    random w' = random w ∧
    deepReshuffles w' = Datatypes.S (deepReshuffles w) ∧
    LinkGame.getVisibleCells this' (heap w') = LinkGame.getVisibleCells this (heap w) ∧
    (Forall is_Some (visiblePatterns this (heap w)) →
     visiblePatterns this' (heap w') ≡ₚ visiblePatterns this (heap w))).
Proof.
  intros Hwfg. pose proof Hwfg as [Hwf Hpos].
  unfold LinkGame.deepReshuffleGrid.
  apply returns_bind, returns_console_log.
  apply returns_bind, returns_getHeap. cbv zeta. cbn [heap].
  set (w0 := mkWorld (heap w) (random w) (randomCalls w) (console w ++ [LogDeepReshuffle])).
  set (visibleCells := LinkGame.getVisibleCells this (heap w)).
  assert (Hvis : visibleCells =
            filter (λ l, visible (deref (heap w) l) && negb (matched (deref (heap w) l)) = true)
                   (mjoin (LinkGame.grid this))).
  { unfold visibleCells.
    by rewrite getVisibleCells_asAlgorithm, (getVisibleCells_cells _ _ Hwf). }
  assert (Hnodup : NoDup visibleCells).
  { rewrite Hvis. apply NoDup_filter, (cells_NoDup (asAlgorithm this) (heap w) Hwf). }
  assert (Halloc : ∀ l, l ∈ visibleCells → (l < length (heap w))%nat).
  { intros l. rewrite Hvis. intros [_ Hl]%list_elem_of_filter.
    by apply (cells_allocated (asAlgorithm this) (heap w) Hwf). }
  apply returns_bind. eapply returns_mono; [apply returns_shuffles|].
  cbv beta. intros patterns w1 [Hperm (Hheap1 & Hrandom1 & Hconsole1)].
  simpl in Hheap1, Hrandom1, Hconsole1.
  destruct (reassignPatterns_spec patterns visibleCells w1 Hnodup)
    as (h' & Hrun & Hlen & Hcells & Hother).
  { rewrite Hheap1. done. }
  rewrite Hheap1 in Hlen, Hcells, Hother.
  assert (Hflags : ∀ l, visible (deref h' l) = visible (deref (heap w) l) ∧
                        matched (deref h' l) = matched (deref (heap w) l) ∧
                        row (deref h' l) = row (deref (heap w) l) ∧
                        col (deref h' l) = col (deref (heap w) l)).
  { intros l. unfold deref.
    destruct (decide (l ∈ visibleCells)) as [Hin|Hnotin].
    - apply list_elem_of_lookup in Hin as [j Hj].
      rewrite (list_lookup_total_correct _ _ _ (Hcells j l Hj)).
      by destruct (patterns !! j).
    - rewrite !list_lookup_total_alt, (Hother l Hnotin). done. }
  assert (Hshape : ∀ l cell, heap w !! l = Some cell →
            ∃ cell', h' !! l = Some cell' ∧ row cell' = row cell ∧ col cell' = col cell).
  { intros l cell Hcell.
    destruct (lookup_lt_is_Some_2 h' l) as [cell' Hcell'];
      [rewrite Hlen; by eapply lookup_lt_Some|].
    exists cell'. split; [done|]. destruct (Hflags l) as (_ & _ & Hr & Hc).
    unfold deref in Hr, Hc.
    by rewrite (list_lookup_total_correct _ _ _ Hcell),
               (list_lookup_total_correct _ _ _ Hcell') in Hr, Hc. }
  assert (Hwf' : wf (asAlgorithm this) h') by (by eapply wf_sameShape).
  unfold returns, mbind, M_bind. rewrite Hrun.
  rewrite newAlgorithm_eq by (split; done). cbn [mret M_ret].
  assert (Hvis' : LinkGame.getVisibleCells
                    (LinkGame.withAlgorithm (Some (asAlgorithm this)) this) h'
                  = visibleCells).
  { rewrite Hvis.
    change (LinkGame.getVisibleCells _ h')
      with (LinkGameAlgorithm.getVisibleCells (asAlgorithm this) h').
    rewrite (getVisibleCells_cells _ _ Hwf'). simpl.
    apply filter_ext_in. intros l _. destruct (Hflags l) as (-> & -> & _). done. }
  split; [done|]. split; [by split|]. split; [simpl; by rewrite Hrandom1|].
  split.
  { unfold deepReshuffles. simpl. rewrite Hconsole1. simpl.
    rewrite filter_app, length_app. simpl. lia. }
  split; [done|].
  intros Hall. unfold visiblePatterns. simpl. rewrite Hvis'. fold visibleCells.
  unfold visiblePatterns in Hall. fold visibleCells in Hall.
  rewrite Forall_fmap in Hall.
  rewrite (fmap_omap_all (λ l, pattern (deref (heap w) l)) visibleCells Hall).
  assert (Hlenp : length patterns = length visibleCells).
  { rewrite Hperm.
    rewrite <- (length_fmap Some (omap _ visibleCells)), <- fmap_omap_all by done.
    by rewrite length_fmap. }
  transitivity (Some <$> patterns); [|by rewrite Hperm].
  assert (Heq : (λ l, pattern (deref h' l)) <$> visibleCells = Some <$> patterns);
    [|by rewrite Heq].
  apply list_eq. intros j. rewrite !list_lookup_fmap.
  destruct (visibleCells !! j) as [l|] eqn:Hj; simpl.
  - destruct (lookup_lt_is_Some_2 patterns j) as [p Hp];
      [rewrite Hlenp; by eapply lookup_lt_Some|].
    rewrite Hp. simpl. f_equal. unfold deref.
    rewrite (list_lookup_total_correct _ _ _ (Hcells j l Hj)), Hp. done.
  - apply lookup_ge_None in Hj. rewrite lookup_ge_None_2 by lia. done.
Qed.

(** ** One attempt, and the loop *)

Lemma returns_bind_eq {A B} (m : M A) (f : A → M B) w a w' (post : B → World → Prop) :
  m w = Returns a w' → returns (f a) w' post → returns (m ≫= f) w post.
Proof. intros Hm Hf. apply returns_bind. unfold returns at 1. by rewrite Hm. Qed.

Lemma length_pairs (availablePatterns : list Pattern) :
  length (availablePatterns ≫= λ p, [p; p]) = (2 * length availablePatterns)%nat.
Proof.
  induction availablePatterns as [|p l IH]; [done|]. rewrite bind_cons. simpl. lia.
Qed.

Section Attempt.
Context (strictBoardValidation : LinkGameAlgorithm.t → Heap → bool).
Context (availablePatterns : list Pattern).

Lemma returns_attempt this locals w :
  wfGame this (heap w) →
  returns (LinkGame.attempt strictBoardValidation availablePatterns this locals) w
          (attempted availablePatterns this locals w).
Proof.
  intros Hwfg. unfold LinkGame.attempt. cbv zeta.
  rewrite length_pairs.
  replace (Z.rem (Z.of_nat (2 * length availablePatterns)) 2 =? 0) with true
    by (symmetry; apply Z.eqb_eq; rewrite Nat2Z.inj_mul, Z.mul_comm;
        apply Z.rem_mul; lia).
  cbn [negb].
  apply returns_bind. eapply returns_mono; [apply returns_shuffleArray|].
  cbv beta. intros patternPairs w1 [Hperm (Hheap1 & Hrandom1 & Hconsole1)].
  assert (Hdeep1 : deepReshuffles w1 = deepReshuffles w)
    by (unfold deepReshuffles; by rewrite Hconsole1).
  destruct (fillCells_post this patternPairs w1) as (h2 & Hfill & Hwfg2 & Hvis2);
    [by rewrite Hheap1|].
  eapply returns_bind_eq; [apply Hfill|].
  eapply returns_bind_eq; [by apply newAlgorithm_eq|].
  set (this' := LinkGame.withAlgorithm (Some (asAlgorithm this)) this).
  assert (Hpaired : ∀ h, visiblePatterns this' h ≡ₚ visiblePatterns this h2 →
            2 * Z.of_nat (length availablePatterns) ≤
              LinkGame.gridRows this * LinkGame.gridCols this →
            pairedBoard this' h availablePatterns).
  { intros h Hh Hfits. unfold pairedBoard. rewrite Hh, Hvis2.
    rewrite take_ge.
    - by rewrite Hperm.
    - rewrite (Permutation_length Hperm), length_pairs. lia. }
  apply returns_bind.
  eapply returns_mono; [apply returns_validateGameState_quiet|].
  cbv beta. intros patternValidation w3 (Hheap3 & Hrandom3 & Hdeep3).
  simpl in Hheap3, Hrandom3.
  assert (Hdeep3' : deepReshuffles w3 = deepReshuffles w)
    by (rewrite Hdeep3; unfold deepReshuffles; simpl; by rewrite Hconsole1).
  assert (Hwfg3 : wfGame this' (heap w3)) by (by rewrite Hheap3).
  assert (Hvis3 : visiblePatterns this' (heap w3) ≡ₚ visiblePatterns this h2)
    by (by rewrite Hheap3).
  destruct patternValidation; cbn [negb].
  - (* the pattern counts are even *)
    eapply returns_bind_eq; [by apply callStrictBoardValidation_eq|].
    destruct (strictBoardValidation (asAlgorithm this) (heap w3)); cbn [negb].
    + (* solvable *)
      apply returns_ret. unfold attempted. simpl.
      split_and!; auto; congruence.
    + cbv zeta. apply returns_bind, returns_console_log.
      set (w4 := mkWorld _ _ _ _).
      assert (Hdeep4 : deepReshuffles w4 = deepReshuffles w)
        by (unfold w4; rewrite deepReshuffles_log; simpl; lia).
      destruct (Z.geb_spec (LinkGame.retryCount locals + 1) LinkGame.maxRetries)
        as [Hmax|Hless].
      * (* the ceiling is reached: deep reshuffle *)
        apply returns_bind, returns_console_log.
        set (w5 := mkWorld _ _ _ _).
        assert (Hdeep5 : deepReshuffles w5 = deepReshuffles w)
          by (unfold w5; rewrite deepReshuffles_log; simpl; lia).
        apply returns_bind. eapply returns_mono.
        { apply returns_deepReshuffleGrid. exact Hwfg3. }
        cbv beta. intros this'' w6 (-> & Hwfg6 & Hrandom6 & Hdeep6 & _ & Hperm6).
        eapply returns_bind_eq; [by apply callStrictBoardValidation_eq|].
        apply returns_ret. unfold attempted. cbn [fst snd LinkGame.retryCount].
        split; [done|]. split; [done|].
        split; [simpl in Hrandom6; congruence|].
        split; [by right|]. split; [right; split; [congruence|lia]|].
        intros Hfits. apply Hpaired; [|done].
        etransitivity; [|exact Hvis3]. apply Hperm6.
        simpl. rewrite Hheap3. change (visiblePatterns this' h2)
          with (visiblePatterns this h2).
        rewrite Hvis2. apply Forall_fmap, Forall_true. by eexists.
      * (* another retry *)
        apply returns_ret. unfold attempted. simpl.
        split_and!; auto; congruence.
  - (* an odd pattern count *)
    apply returns_bind, returns_console_log. apply returns_ret.
    unfold attempted. simpl. rewrite deepReshuffles_log. simpl.
    split_and!; auto; try congruence. left. lia.
Qed.

End Attempt.

Section Loop.
Context (strictBoardValidation : LinkGameAlgorithm.t → Heap → bool).
Context (availablePatterns : list Pattern).

Lemma entered_dec locals : Decision (entered locals).
Proof. unfold entered. apply _. Qed.

Lemma loop_condition locals :
  negb (LinkGame.isSolvable locals) &&
    (LinkGame.retryCount locals <? LinkGame.maxRetries) = true ↔ entered locals.
Proof.
  unfold entered. rewrite andb_true_iff, negb_true_iff, Z.ltb_lt. done.
Qed.

Lemma loop_condition_false locals :
  ¬ entered locals →
  negb (LinkGame.isSolvable locals) &&
    (LinkGame.retryCount locals <? LinkGame.maxRetries) = false.
Proof. intros Hnot. apply not_true_is_false. by rewrite loop_condition. Qed.

Lemma returns_whileNotSolvable fuel this locals w :
  wfGame this (heap w) →
  ¬ entered locals ∨
    LinkGame.maxRetries - LinkGame.retryCount locals ≤ Z.of_nat fuel →
  returns (LinkGame.whileNotSolvable strictBoardValidation fuel availablePatterns
             this locals) w
          (generated availablePatterns this locals w).
Proof.
  revert this locals w.
  assert (Hexit : ∀ this locals w, wfGame this (heap w) → ¬ entered locals →
            generated availablePatterns this locals w (this, locals) w).
  { intros this locals w Hwfg Hnot. unfold generated. simpl.
    split_and!; auto; try lia. done. }
  induction fuel as [|fuel IH]; intros this locals w Hwfg Hfuel.
  - assert (Hnot : ¬ entered locals).
    { destruct Hfuel as [?|Hfuel]; [done|]. unfold entered. lia. }
    simpl. rewrite loop_condition_false by done.
    by apply returns_ret, Hexit.
  - simpl. destruct (entered_dec locals) as [Hin|Hnot].
    + rewrite (proj2 (loop_condition locals) Hin).
      apply returns_bind. eapply returns_mono; [by apply returns_attempt|].
      cbv beta. intros [this1 locals1] w1
        (Hthis1 & Hwfg1 & Hrandom1 & Hlocals1 & Hdeep1 & Hpaired1).
      simpl in Hthis1, Hwfg1, Hlocals1, Hdeep1, Hpaired1.
      eapply returns_mono.
      * apply IH; [done|].
        destruct Hlocals1 as [[_ Hs]|Hinc].
        -- left. unfold entered. intros [? _]. congruence.
        -- right. destruct Hfuel as [?|Hfuel]; [done|]. lia.
      * cbv beta. intros [this2 locals2] w2
          (Hexit2 & Hin2 & Hwfg2 & Hrandom2 & Hretry2 & Hmax2 & Hdeep2).
        simpl in Hin2, Hwfg2, Hretry2, Hmax2. destruct Hin as [Hs Hr].
        unfold generated. simpl.
        split; [intros []; by split|].
        assert (Hretry1 : LinkGame.retryCount locals ≤ LinkGame.retryCount locals1
                          ≤ LinkGame.maxRetries)
          by (destruct Hlocals1 as [[-> _]| ->]; lia).
        destruct (entered_dec locals1) as [Hin1|Hnot1].
        -- destruct (Hin2 Hin1) as [Hthis2 Hpaired2].
           assert (deepReshuffles w1 = deepReshuffles w)
             by (destruct Hdeep1 as [?|[_ ?]]; [done|]; destruct Hin1; lia).
           subst this1. split_and!; auto; try congruence; try lia.
        -- destruct (Hexit2 Hnot1) as [[= -> ->] ->].
           split_and!; auto; lia.
    + rewrite loop_condition_false by done.
      by apply returns_ret, Hexit.
Qed.

End Loop.

(** ** Counting patterns *)

Lemma length_filter_fmap {A B} (f : A → B) (P : B → Prop)
    `{HP : ∀ b, Decision (P b)} `{HPf : ∀ a, Decision (P (f a))} (l : list A) :
  length (filter (λ a, P (f a)) l) = length (filter P (f <$> l)).
Proof.
  induction l as [|a l IH]; [done|]. rewrite fmap_cons, !filter_cons.
  destruct (decide (P (f a))) as [?|?], (HP (f a)) as [?|?]; simpl;
    try done; by rewrite IH.
Qed.

Lemma count_pairs (availablePatterns : list Pattern) n :
  length (filter (λ p, id p = n) (availablePatterns ≫= λ p, [p; p])) =
  (2 * length (filter (λ p, id p = n) availablePatterns))%nat.
Proof.
  induction availablePatterns as [|p l IH]; [done|].
  rewrite bind_cons, filter_app, length_app, IH, !filter_cons.
  destruct (decide (id p = n)); simpl; lia.
Qed.

Lemma count_distinct (availablePatterns : list Pattern) n :
  NoDup (id <$> availablePatterns) →
  length (filter (λ p, id p = n) availablePatterns) =
  if decide (n ∈ id <$> availablePatterns) then 1%nat else 0%nat.
Proof.
  induction availablePatterns as [|p l IH]; [done|].
  rewrite fmap_cons, NoDup_cons. intros [Hnotin Hnodup].
  rewrite filter_cons.
  destruct (decide (id p = n)) as [<-|Hne]; simpl; rewrite (IH Hnodup).
  - rewrite decide_False by done. rewrite decide_True by (by left). done.
  - destruct (decide (n ∈ id <$> l)) as [Hin|Hnin].
    + rewrite decide_True by (by right). done.
    + rewrite decide_False; [done|].
      intros [?|?]%elem_of_cons; congruence.
Qed.

Lemma countVisible_patterns this h n :
  countVisible this h n =
  length (filter (λ op : option Pattern, id <$> op = Some n) (visiblePatterns this h)).
Proof.
  unfold countVisible, visiblePatterns.
  apply (length_filter_fmap (λ l, pattern (deref h l))
           (λ op : option Pattern, id <$> op = Some n)).
Qed.

Lemma count_of_paired this h availablePatterns n :
  pairedBoard this h availablePatterns → NoDup (id <$> availablePatterns) →
  countVisible this h n =
  if decide (n ∈ id <$> availablePatterns) then 2%nat else 0%nat.
Proof.
  intros Hpaired Hnodup. rewrite countVisible_patterns, Hpaired.
  rewrite <- (length_filter_fmap Some (λ op : option Pattern, id <$> op = Some n)).
  rewrite (filter_ext_in _ (λ p, id p = n)).
  - rewrite count_pairs, (count_distinct _ _ Hnodup). by case_decide.
  - intros p _. simpl. split; congruence.
Qed.

Lemma count_of_permutation this h this' h' n :
  visiblePatterns this' h' ≡ₚ visiblePatterns this h →
  countVisible this' h' n = countVisible this h n.
Proof. intros Hperm. by rewrite !countVisible_patterns, Hperm. Qed.

(** ** The generation as a whole *)

Section Generation.
Context (strictBoardValidation : LinkGameAlgorithm.t → Heap → bool).

Lemma returns_fillGridWithPatterns fuel this w levelConfig :
  wfGame this (heap w) →
  JsObject.get (LinkGame.currentLevel this) (LinkGame.levelConfigs this)
    = Some levelConfig →
  (100 ≤ fuel)%nat →
  let availablePatterns :=
    LinkGame.slice0 (LinkGame.patterns this) (LevelConfig.patterns levelConfig) in
  returns (LinkGame.fillGridWithPatterns strictBoardValidation fuel this) w
    (λ this' w',
       this' = LinkGame.withAlgorithm (Some (asAlgorithm this)) this ∧
       wfGame this' (heap w') ∧
       random w' = random w ∧
       (deepReshuffles w ≤ deepReshuffles w' ≤ deepReshuffles w + 1)%nat ∧
       (2 * Z.of_nat (length availablePatterns) ≤
          LinkGame.gridRows this * LinkGame.gridCols this →
        pairedBoard this' (heap w') availablePatterns)).
Proof.
  intros Hwfg Hlevel Hfuel availablePatterns.
  unfold LinkGame.fillGridWithPatterns. rewrite Hlevel. cbv zeta.
  fold availablePatterns.
  assert (Hin : entered (LinkGame.mkLocals 0 false)).
  { split; [done|]. unfold LinkGame.maxRetries. simpl. lia. }
  apply returns_bind. eapply returns_mono.
  - apply returns_whileNotSolvable; [done|]. right.
    unfold LinkGame.maxRetries. simpl. lia.
  - cbv beta. intros [this' locals] w1
      (_ & Hentered & Hwfg1 & Hrandom1 & _ & _ & Hdeep1).
    destruct (Hentered Hin) as [Hthis' Hpaired]. simpl in Hthis', Hpaired, Hwfg1.
    destruct (LinkGame.isSolvable locals).
    + apply returns_bind, returns_console_log.
      eapply returns_bind_eq.
      { apply callStrictBoardValidation_eq. by rewrite Hthis'. }
      set (w2 := mkWorld _ _ _ _).
      assert (Hdeep2 : deepReshuffles w2 = deepReshuffles w1)
        by (unfold w2; rewrite deepReshuffles_log; simpl; lia).
      destruct (strictBoardValidation _ _); cbn [negb].
      * apply returns_ret. rewrite Hdeep2. subst w2. simpl.
        split_and!; try done; lia.
      * apply returns_bind, returns_console_log. apply returns_ret.
        rewrite deepReshuffles_log, Hdeep2. subst w2. simpl.
        split_and!; try done; lia.
    + apply returns_bind, returns_console_log. apply returns_ret.
      rewrite deepReshuffles_log. simpl. split_and!; try done; lia.
Qed.

(** C8. On a well-formed grid and for any level that has a configuration,
    whatever its pattern count, the [while] loop of [fillGridWithPatterns]
    comes to its end within 100 iterations (a fuel of 100 is never
    exhausted), with [retryCount] at most 100 and at most one run of
    [deepReshuffleGrid]; and [fillGridWithPatterns] returns, with the grid
    still well formed. *)
Theorem generation_terminates fuel this w levelConfig :
  wfGame this (heap w) → randomInRange w →
  JsObject.get (LinkGame.currentLevel this) (LinkGame.levelConfigs this)
    = Some levelConfig →
  (100 ≤ fuel)%nat →
  let availablePatterns :=
    LinkGame.slice0 (LinkGame.patterns this) (LevelConfig.patterns levelConfig) in
  (∃ this1 locals w1,
     LinkGame.whileNotSolvable strictBoardValidation fuel availablePatterns this
       (LinkGame.mkLocals 0 false) w = Returns (this1, locals) w1 ∧
     0 ≤ LinkGame.retryCount locals ≤ 100 ∧
     (deepReshuffles w1 ≤ deepReshuffles w + 1)%nat) ∧
  (∃ this' w',
     LinkGame.fillGridWithPatterns strictBoardValidation fuel this w
       = Returns this' w' ∧
     wfGame this' (heap w') ∧
     (deepReshuffles w' ≤ deepReshuffles w + 1)%nat).
Proof.
  intros Hwfg _ Hlevel Hfuel availablePatterns. split.
  - pose proof (returns_whileNotSolvable strictBoardValidation availablePatterns
                  fuel this (LinkGame.mkLocals 0 false) w Hwfg) as Hloop.
    apply returns_eq in Hloop as ([this1 locals] & w1 & Hrun & Hgen).
    + exists this1, locals, w1. split; [done|].
      destruct Hgen as (_ & _ & _ & _ & Hlow & Hhigh & Hdeep).
      simpl in Hlow, Hhigh. unfold LinkGame.maxRetries in Hhigh.
      split; [|lia]. split; [done|]. apply Hhigh. lia.
    + right. unfold LinkGame.maxRetries. simpl. lia.
  - pose proof (returns_fillGridWithPatterns fuel this w levelConfig
                  Hwfg Hlevel Hfuel) as Hfill.
    apply returns_eq in Hfill as (this' & w' & Hrun & _ & Hwfg' & _ & Hdeep & _).
    exists this', w'. split; [done|]. split; [done|]. lia.
Qed.

(** The pairing of the patterns, for any grid that the pattern pairs of the
    level fit into. *)
Lemma fillGridWithPatterns_pairs fuel this w levelConfig :
wfGame this (heap w) →
JsObject.get (LinkGame.currentLevel this) (LinkGame.levelConfigs this)
  = Some levelConfig →
(100 ≤ fuel)%nat →
let availablePatterns :=
  LinkGame.slice0 (LinkGame.patterns this) (LevelConfig.patterns levelConfig) in
NoDup (id <$> availablePatterns) →
2 * Z.of_nat (length availablePatterns) ≤
  LinkGame.gridRows this * LinkGame.gridCols this →
∃ this' w',
  LinkGame.fillGridWithPatterns strictBoardValidation fuel this w
    = Returns this' w' ∧
  ∀ n, countVisible this' (heap w') n =
       if decide (n ∈ id <$> availablePatterns) then 2%nat else 0%nat.
Proof.
intros Hwfg Hlevel Hfuel availablePatterns Hnodup Hfits.
pose proof (returns_fillGridWithPatterns fuel this w levelConfig
              Hwfg Hlevel Hfuel) as Hfill.
apply returns_eq in Hfill as (this' & w' & Hrun & _ & _ & _ & _ & Hpaired).
exists this', w'. split; [done|]. intros n.
apply count_of_paired; [|done]. by apply Hpaired.
Qed.

(** The levels of the game: level [k] uses the patterns of ids 1 to
    [5 * (k + 1)], and two of each fit into the 80 cells. *)
Lemma levels_of_the_game this :
configured this → 1 ≤ LinkGame.currentLevel this ≤ 5 →
∃ levelConfig,
  JsObject.get (LinkGame.currentLevel this) (LinkGame.levelConfigs this)
    = Some levelConfig ∧
  LevelConfig.patterns levelConfig = 5 * (LinkGame.currentLevel this + 1) ∧
  id <$> LinkGame.slice0 (LinkGame.patterns this) (LevelConfig.patterns levelConfig)
    = seqZ 1 (LevelConfig.patterns levelConfig) ∧
  2 * Z.of_nat (length (LinkGame.slice0 (LinkGame.patterns this)
                          (LevelConfig.patterns levelConfig)))
    ≤ LinkGame.gridRows this * LinkGame.gridCols this.
Proof.
intros (Hrows & Hcols & Hlevels & Hpatterns) Hlevel.
rewrite Hrows, Hcols, Hlevels, Hpatterns.
assert (Hcases : LinkGame.currentLevel this = 1 ∨ LinkGame.currentLevel this = 2 ∨
                 LinkGame.currentLevel this = 3 ∨ LinkGame.currentLevel this = 4 ∨
                 LinkGame.currentLevel this = 5) by lia.
destruct Hcases as [-> | [-> | [-> | [-> | ->]]]];
  eexists; (split; [reflexivity|]); (split; [reflexivity|]);
  (split; [by vm_compute|by vm_compute]).
Qed.

(** C6. After [fillGridWithPatterns] has returned, at any of the five
    levels of the game, the number of visible, unmatched cells that hold a
    given pattern id is 2 for each of the level's patterns (the ids 1 to the
    pattern count of the level) and 0 for every other id, whether or not the
    run went through [deepReshuffleGrid]. And [deepReshuffleGrid], run on a
    board where every visible cell holds a pattern, keeps the visible cells
    and permutes their patterns, so that it keeps every such count. *)
Theorem generation_pairs_patterns fuel this w :
configured this → 1 ≤ LinkGame.currentLevel this ≤ 5 →
wfGame this (heap w) → randomInRange w → (100 ≤ fuel)%nat →
(∃ levelConfig this' w',
   JsObject.get (LinkGame.currentLevel this) (LinkGame.levelConfigs this)
     = Some levelConfig ∧
   LinkGame.fillGridWithPatterns strictBoardValidation fuel this w
     = Returns this' w' ∧
   ∀ n, countVisible this' (heap w') n =
        if decide (1 ≤ n ≤ LevelConfig.patterns levelConfig) then 2%nat else 0%nat) ∧
(∀ board w1,
   wfGame board (heap w1) →
   Forall is_Some (visiblePatterns board (heap w1)) →
   ∃ board' w2,
     LinkGame.deepReshuffleGrid board w1 = Returns board' w2 ∧
     LinkGame.getVisibleCells board' (heap w2) =
       LinkGame.getVisibleCells board (heap w1) ∧
     visiblePatterns board' (heap w2) ≡ₚ visiblePatterns board (heap w1) ∧
     ∀ n, countVisible board' (heap w2) n = countVisible board (heap w1) n).
Proof.
intros Hconf Hlevel Hwfg _ Hfuel. split.
- destruct (levels_of_the_game this Hconf Hlevel)
    as (levelConfig & Hget & _ & Hids & Hfits).
  destruct (fillGridWithPatterns_pairs fuel this w levelConfig Hwfg Hget Hfuel)
    as (this' & w' & Hrun & Hcount); [rewrite Hids; apply NoDup_seqZ|done|].
  exists levelConfig, this', w'. split; [done|]. split; [done|].
  intros n. rewrite Hcount, Hids.
  destruct (decide (1 ≤ n ≤ LevelConfig.patterns levelConfig)) as [Hn|Hn].
  + rewrite decide_True; [done|]. apply elem_of_seqZ. lia.
  + rewrite decide_False; [done|]. rewrite elem_of_seqZ. lia.
- intros board w1 Hwfg1 Hall.
  pose proof (returns_deepReshuffleGrid board w1 Hwfg1) as Hdeep.
  apply returns_eq in Hdeep as (board' & w2 & Hrun & _ & _ & _ & _ & Hvis & Hperm).
  exists board', w2. split; [done|]. split; [done|].
  split; [by apply Hperm|]. intros n. by apply count_of_permutation, Hperm.
Qed.

End Generation.

(** * The theorems at work on concrete boards *)

Import Examples.

Lemma path_connect_consistency_witness :
  let this := Examples.algorithmOf gapRow in
  let h := Examples.heapOf gapRow in
  wf this h ∧ inGrid this 0%nat ∧ inGrid this 2%nat ∧
  canConnect this h (Some 0%nat) (Some 2%nat) = true ∧
  is_Some (getConnectionPath this h 0%nat 2%nat).
Proof.
  intros this h.
  assert (Hwf : wf this h) by (apply wf_check_sound; reflexivity).
  assert (Ha : inGrid this 0%nat) by (exists 0, 0; reflexivity).
  assert (Hb : inGrid this 2%nat) by (exists 0, 2; reflexivity).
  split; [exact Hwf|]. split; [exact Ha|]. split; [exact Hb|].
  split; [reflexivity|].
  apply (proj1 (path_connect_consistency this h 0%nat 2%nat Hwf Ha Hb)).
  reflexivity.
Defined.

Lemma matched_endpoint_asymmetry_witness :
  let picture := [[Examples.removed 7; Examples.hole; Examples.tile 7]] in
  let this := Examples.algorithmOf picture in
  let h := Examples.heapOf picture in
  isValidCellInGrid this h (Some 0%nat) (grid this) = true ∧
  isValidCellInGrid this h (Some 2%nat) (grid this) = true ∧
  0%nat ≠ 2%nat ∧ samePattern h 0%nat 2%nat ∧
  matched (deref h 0%nat) = true ∧
  canConnectInGrid this h (Some 0%nat) (Some 2%nat) (grid this) = false.
Proof.
  intros picture this h.
  assert (Hsame : samePattern h 0%nat 2%nat).
  { eexists _, _. split; [reflexivity|]. split; reflexivity. }
  split; [reflexivity|]. split; [reflexivity|]. split; [lia|].
  split; [exact Hsame|]. split; [reflexivity|].
  apply (proj1 matched_endpoint_asymmetry this h (grid this) 0%nat 2%nat);
    [reflexivity|reflexivity|lia|exact Hsame|left; reflexivity].
Defined.

Lemma canConnect_symmetric_witness :
  let this := Examples.algorithmOf detour in
  let h := Examples.heapOf detour in
  wf this h ∧ inGrid this 3%nat ∧ inGrid this 5%nat ∧
  isTile h 3%nat ∧ isTile h 5%nat ∧ samePattern h 3%nat 5%nat ∧
  canConnect this h (Some 3%nat) (Some 5%nat) = true ∧
  canConnect this h (Some 3%nat) (Some 5%nat) =
    canConnect this h (Some 5%nat) (Some 3%nat).
Proof.
  intros this h.
  assert (Hwf : wf this h) by (apply wf_check_sound; reflexivity).
  assert (Ha : inGrid this 3%nat) by (exists 1, 0; reflexivity).
  assert (Hb : inGrid this 5%nat) by (exists 1, 2; reflexivity).
  assert (Hta : isTile h 3%nat) by (split; reflexivity).
  assert (Htb : isTile h 5%nat) by (split; reflexivity).
  assert (Hsame : samePattern h 3%nat 5%nat).
  { eexists _, _. split; [reflexivity|]. split; reflexivity. }
  split; [exact Hwf|]. split; [exact Ha|]. split; [exact Hb|].
  split; [exact Hta|]. split; [exact Htb|]. split; [exact Hsame|].
  split; [reflexivity|].
  exact (proj1 (canConnect_symmetric this h 3%nat 5%nat Hwf Ha Hb Hta Htb Hsame)).
Defined.

Lemma straight_line_connectivity_witness :
  let this := Examples.algorithmOf gapRow in
  let h := Examples.heapOf gapRow in
  let h' := <[1%nat := set_matched false (set_visible true (Examples.hole 0 1))]> h in
  wf this h ∧ inGrid this 0%nat ∧ inGrid this 2%nat ∧ 0%nat ≠ 2%nat ∧
  checkStraightLine this h (deref h 0%nat) (deref h 2%nat) = true ∧
  checkStraightLine this h' (deref h' 0%nat) (deref h' 2%nat) = false.
Proof.
  intros this h h'.
  assert (Hwf : wf this h) by (apply wf_check_sound; reflexivity).
  assert (Ha : inGrid this 0%nat) by (exists 0, 0; reflexivity).
  assert (Hb : inGrid this 2%nat) by (exists 0, 2; reflexivity).
  assert (Hne : 0%nat ≠ 2%nat) by lia.
  split; [exact Hwf|]. split; [exact Ha|]. split; [exact Hb|]. split; [exact Hne|].
  split; [reflexivity|].
  apply (proj2 (proj2 (proj2
           (straight_line_connectivity this h 0%nat 2%nat Hwf Ha Hb Hne)))
         0 1 1%nat (Examples.hole 0 1)).
  - left. split; [reflexivity|]. split; [reflexivity|]. simpl. lia.
  - reflexivity.
  - reflexivity.
Defined.

Lemma path_search_order_witness :
  (let this := Examples.algorithmOf diagonal in
   let h := Examples.heapOf diagonal in
   turnsAt this h (deref h 0%nat) (deref h 3%nat) (mkCorner 0 1) ∧
   checkStraightLine this h (deref h 0%nat) (deref h 3%nat) = false ∧
   getConnectionPath this h 0%nat 3%nat =
     Some [mkPoint 0 0; mkPoint 1 0; mkPoint 1 1]) ∧
  (let this := Examples.algorithmOf detour in
   let h := Examples.heapOf detour in
   firstIndex (routeViaRow this h (deref h 3%nat) (deref h 5%nat)) (gridRows this) 2 ∧
   getConnectionPath this h 3%nat 5%nat =
     Some [mkPoint 0 1; mkPoint 0 2; mkPoint 2 2; mkPoint 2 1]).
Proof.
  split.
  - intros this h.
    assert (Hturn : turnsAt this h (deref h 0%nat) (deref h 3%nat) (mkCorner 0 1)).
    { split; [reflexivity|]. split; reflexivity. }
    split; [exact Hturn|]. split; [reflexivity|].
    apply (proj1 (path_search_order this h 0%nat 3%nat) Hturn). reflexivity.
  - intros this h.
    assert (Hno : ∀ corner, isValidCorner this h corner = false →
              ¬ turnsAt this h (deref h 3%nat) (deref h 5%nat) corner).
    { intros corner Hinvalid [Hvalid _]. congruence. }
    assert (Hfirst : firstIndex (routeViaRow this h (deref h 3%nat) (deref h 5%nat))
                       (gridRows this) 2).
    { split; [simpl; lia|]. split.
      - repeat split; simpl; (lia || reflexivity).
      - intros k Hk [Hne1 [_ [Hvalid _]]]. simpl in Hne1.
        assert (k = 0) as -> by lia. discriminate Hvalid. }
    split; [exact Hfirst|].
    apply (proj1 (proj2 (proj2 (path_search_order this h 3%nat 5%nat))) 2 Hfirst).
    + reflexivity.
    + split; apply Hno; reflexivity.
Defined.

Lemma paths_stay_on_board_witness :
  let this := Examples.algorithmOf detour in
  let h := Examples.heapOf detour in
  wf this h ∧ inGrid this 3%nat ∧ inGrid this 5%nat ∧
  (0 ≤ y (mkPoint 0 2) < gridRows this ∧ 0 ≤ x (mkPoint 0 2) < gridCols this).
Proof.
  intros this h.
  assert (Hwf : wf this h) by (apply wf_check_sound; reflexivity).
  assert (Ha : inGrid this 3%nat) by (exists 1, 0; reflexivity).
  assert (Hb : inGrid this 5%nat) by (exists 1, 2; reflexivity).
  split; [exact Hwf|]. split; [exact Ha|]. split; [exact Hb|].
  apply (proj2 (paths_stay_on_board this h 3%nat 5%nat Hwf Ha Hb)
           [mkPoint 0 1; mkPoint 0 2; mkPoint 2 2; mkPoint 2 1]).
  - reflexivity.
  - apply elem_of_cons. right. apply elem_of_cons. left. reflexivity.
Defined.

Lemma canConnect_monotone_witness :
  let this := Examples.algorithmOf detour in
  let h := Examples.heapOf detour in
  let this' := Examples.algorithmOf detourCleared in
  let h' := Examples.heapOf detourCleared in
  wf this h ∧ wf this' h' ∧
  (∀ r c, emptyAt this h r c → emptyAt this' h' r c) ∧
  canConnect this h (Some 3%nat) (Some 5%nat) = true ∧
  canConnect this' h' (Some 3%nat) (Some 5%nat) = true.
Proof.
  intros this h this' h'.
  assert (Hwf : wf this h) by (apply wf_check_sound; reflexivity).
  assert (Hwf' : wf this' h') by (apply wf_check_sound; reflexivity).
  assert (Ha : inGrid this 3%nat) by (exists 1, 0; reflexivity).
  assert (Hb : inGrid this 5%nat) by (exists 1, 2; reflexivity).
  assert (Ha' : inGrid this' 3%nat) by (exists 1, 0; reflexivity).
  assert (Hb' : inGrid this' 5%nat) by (exists 1, 2; reflexivity).
  assert (Hempty : ∀ r c, emptyAt this h r c → emptyAt this' h' r c).
  { intros r c He. apply (isCellEmpty_true this' h' Hwf').
    apply (isCellEmpty_true this h Hwf) in He.
    destruct (isCellEmpty_inBounds _ _ _ _ He) as [Hr Hc]. simpl in Hr, Hc.
    assert (Hrs : r = 0 ∨ r = 1 ∨ r = 2) by lia.
    assert (Hcs : c = 0 ∨ c = 1 ∨ c = 2) by lia.
    destruct Hrs as [Hr0|[Hr1|Hr2]]; destruct Hcs as [Hc0|[Hc1|Hc2]]; subst r c;
      (reflexivity || discriminate He). }
  split; [exact Hwf|]. split; [exact Hwf'|]. split; [exact Hempty|].
  split; [reflexivity|].
  apply (canConnect_monotone this h this' h' 3%nat 5%nat 3%nat 5%nat Hwf Hwf');
    (reflexivity || assumption).
Defined.

Lemma isBoardSolvable_leaves_grid_witness :
  let this := Examples.algorithmOf threePairs in
  let w := mkWorld (Examples.heapOf threePairs) Examples.thirds 0 [] in
  wf this (heap w) ∧
  ∃ w',
    isBoardSolvable this w = Returns true w' ∧
    length (heap w) = 9%nat ∧ length (heap w') = 18%nat ∧
    (∀ l cell, heap w !! l = Some cell → heap w' !! l = Some cell) ∧
    (∀ l, inGrid this l →
       pattern (deref (heap w') l) = pattern (deref (heap w) l) ∧
       visible (deref (heap w') l) = visible (deref (heap w) l) ∧
       matched (deref (heap w') l) = matched (deref (heap w) l)).
Proof.
  intros this w.
  assert (Hwf : wf this (heap w)) by (apply wf_check_sound; reflexivity).
  split; [exact Hwf|].
  destruct (isBoardSolvable_leaves_grid this w Hwf)
    as (verdict & w' & Hrun & Hkeep & Hgrid).
  assert (Hcomp : ∃ w0, isBoardSolvable this w = Returns true w0 ∧
                        length (heap w0) = 18%nat)
    by (eexists; split; vm_compute; reflexivity).
  destruct Hcomp as (w0 & Hrun0 & Hlen).
  exists w'. rewrite Hrun0 in Hrun. injection Hrun as <- <-.
  split; [exact Hrun0|]. split; [reflexivity|]. split; [exact Hlen|].
  split; [exact Hkeep|exact Hgrid].
Defined.

Lemma newGame_wf : wfGame Examples.newGame (heap Examples.newWorld).
Proof.
  split; [apply wf_check_sound; vm_compute; reflexivity|reflexivity].
Defined.

Lemma thirds_inRange : randomInRange Examples.newWorld.
Proof. intros k. split; unfold Qle, Qlt; simpl; lia. Defined.

Lemma generation_terminates_witness :
  wfGame Examples.newGame (heap Examples.newWorld) ∧
  randomInRange Examples.newWorld ∧
  ∃ this' w',
    LinkGame.fillGridWithPatterns Examples.validateBySimulation 100
      Examples.newGame Examples.newWorld = Returns this' w' ∧
    wfGame this' (heap w') ∧
    (deepReshuffles w' ≤ deepReshuffles Examples.newWorld + 1)%nat.
Proof.
  split; [exact newGame_wf|]. split; [exact thirds_inRange|].
  apply (proj2 (generation_terminates Examples.validateBySimulation 100
                  Examples.newGame Examples.newWorld levelOne
                  newGame_wf thirds_inRange eq_refl (le_n 100))).
Defined.

Lemma newGame_configured : configured Examples.newGame.
Proof. split; [reflexivity|]. split; [reflexivity|]. split; reflexivity. Defined.

Lemma generation_pairs_patterns_witness :
  configured Examples.newGame ∧
  1 ≤ LinkGame.currentLevel Examples.newGame ≤ 5 ∧
  wfGame Examples.newGame (heap Examples.newWorld) ∧
  randomInRange Examples.newWorld ∧
  ∃ levelConfig this' w',
    JsObject.get (LinkGame.currentLevel Examples.newGame)
                 (LinkGame.levelConfigs Examples.newGame) = Some levelConfig ∧
    LinkGame.fillGridWithPatterns Examples.validateBySimulation 100
      Examples.newGame Examples.newWorld = Returns this' w' ∧
    ∀ n, countVisible this' (heap w') n =
         if decide (1 ≤ n ≤ LevelConfig.patterns levelConfig) then 2%nat else 0%nat.
Proof.
  assert (Hlevel : 1 ≤ LinkGame.currentLevel Examples.newGame ≤ 5)
    by (simpl; lia).
  split; [exact newGame_configured|]. split; [exact Hlevel|].
  split; [exact newGame_wf|]. split; [exact thirds_inRange|].
  apply (proj1 (generation_pairs_patterns Examples.validateBySimulation 100
                  Examples.newGame Examples.newWorld
                  newGame_configured Hlevel newGame_wf thirds_inRange (le_n 100))).
Defined.

(** ** From [initializeGrid] on *)

Lemma seqZ_prefix (n : Z) (done rest : list Z) (a : Z) :
  seqZ 0 n = done ++ a :: rest → a = Z.of_nat (length done).
Proof.
  intros Hl.
  assert (Hlook : seqZ 0 n !! length done = Some a)
    by (rewrite Hl; by apply list_lookup_middle).
  apply lookup_seqZ in Hlook as [-> _]. lia.
Qed.

(** The two loops of [initializeGrid] that create the cells leave a
    well-formed grid, and every object that existed before as it was. *)
Lemma returns_createCells this w :
  0 < LinkGame.gridRows this → 0 ≤ LinkGame.gridCols this →
  returns
    (forM (seqZ 0 (LinkGame.gridRows this)) (λ r,
       forM (seqZ 0 (LinkGame.gridCols this)) (λ c,
         alloc {| cell_row := r;
                  cell_col := c;
                  pattern := None;
                  visible := false;
                  matched := false;
                  cell_x := LinkGame.gridX this + inject_Z c * LinkGame.gridSize this;
                  cell_y := LinkGame.gridY this + inject_Z r * LinkGame.gridSize this |})))
    w
    (λ grid w', wfGame (LinkGame.withGrid grid this) (heap w') ∧
                unchanged (heap w) (heap w') ∧
                random w' = random w ∧ console w' = console w).
Proof.
  intros Hrows Hcols.
  pose (placed := λ (w' : World) (r : Z) (line : list loc),
          ∀ (c : nat) l, line !! c = Some l →
            ∃ cell, heap w' !! l = Some cell ∧ row cell = r ∧ col cell = Z.of_nat c).
  pose (ext := λ (w0 w' : World),
          (∃ news, heap w' = heap w0 ++ news) ∧
          random w' = random w0 ∧ console w' = console w0).
  assert (Hext_trans : ∀ w0 w1 w2, ext w0 w1 → ext w1 w2 → ext w0 w2).
  { intros w0 w1 w2 ([n1 H1] & ? & ?) ([n2 H2] & ? & ?). split; [|split; congruence].
    exists (n1 ++ n2). by rewrite H2, H1, app_assoc. }
  assert (Hplaced_ext : ∀ w1 w2 r line, ext w1 w2 → placed w1 r line → placed w2 r line).
  { intros w1 w2 r line ([news Hnews] & _) Hp c l Hl.
    destruct (Hp c l Hl) as (cell & Hcell & ? & ?). exists cell.
    split; [|done]. rewrite Hnews. by apply lookup_app_l_Some. }
  eapply returns_mono.
  - apply (returns_forM_prefix _ (λ done grid w',
             ext w w' ∧ length grid = length done ∧
             Forall (λ line, length line = Z.to_nat (LinkGame.gridCols this)) grid ∧
             ∀ (r : nat) line, grid !! r = Some line → placed w' (Z.of_nat r) line)).
    + split; [|split; [done|split; [done|]]].
      * split; [by exists []; rewrite app_nil_r|done].
      * intros r line Hr. by rewrite lookup_nil in Hr.
    + intros done grid r rest w1 (Hext1 & Hlen1 & Hcols1 & Hplaced1) Hr%seqZ_prefix.
      eapply returns_mono.
      * apply (returns_forM_prefix _ (λ done' line w',
                 ext w1 w' ∧ length line = length done' ∧ placed w' r line)).
        -- split; [|split; [done|]].
           ++ split; [by exists []; rewrite app_nil_r|done].
           ++ intros c l Hc. by rewrite lookup_nil in Hc.
        -- intros done' line c rest' w2 (Hext2 & Hlen2 & Hplaced2) Hc%seqZ_prefix.
           apply returns_alloc. simpl.
           set (w3 := withHeap _ w2).
           assert (Hext23 : ext w2 w3) by (split; [by eexists|done]).
           split; [by eapply Hext_trans|]. split; [by rewrite !length_app, Hlen2|].
           intros c' l Hl. apply lookup_app_Some in Hl as [Hl|[Hge Hl]].
           ++ by apply (Hplaced_ext w2 w3 r line Hext23 Hplaced2).
           ++ apply list_lookup_singleton_Some in Hl as [Hc' <-].
              eexists. split; [apply list_lookup_middle; done|].
              simpl. split; [done|]. lia.
      * cbv beta. intros line w2 (Hext2 & Hlen2 & Hplaced2).
        split; [by eapply Hext_trans|]. split; [by rewrite !length_app, Hlen1|].
        split.
        { apply Forall_app. split; [done|]. apply Forall_singleton.
          by rewrite Hlen2, length_seqZ. }
        intros r' line' Hr'. apply lookup_app_Some in Hr' as [Hr'|[Hge Hr']].
        -- apply (Hplaced_ext w1 w2 _ _ Hext2). by apply Hplaced1.
        -- apply list_lookup_singleton_Some in Hr' as [Hr'' <-].
           replace (Z.of_nat r') with r by lia. done.
  - cbv beta. intros grid w' (Hext & Hlen & Hlines & Hplaced).
    rewrite length_seqZ in Hlen. rewrite Forall_forall in Hlines.
    destruct Hext as ([news Hnews] & Hrandom & Hconsole).
    split; [|split; [|done]].
    + split; [|done]. split; simpl.
      * lia.
      * intros line Hline. rewrite (Hlines line Hline). lia.
      * intros r c l (Hr & Hc & line & Hline & Hl)%gridAt_Some.
        destruct (Hplaced _ _ Hline _ _ Hl) as (cell & ? & Hrow & Hcol).
        exists cell. split; [done|]. change (row cell = r ∧ col cell = c).
        rewrite Hrow, Hcol. split; lia.
    + intros l cell Hl. rewrite Hnews. by apply lookup_app_l_Some.
Qed.

(** The game as the program runs it: for a game configured by
    [constructor], whatever the screen, the state of the store, the random
    numbers and the validation, [initializeGrid] at one of the five levels
    returns a board on which every pattern id from 1 to the pattern count of
    the level is held by two visible cells, and no other id by any; the loop
    never needs more than 100 iterations. *)
Lemma initializeGrid_pairs_patterns
    (strictBoardValidation : LinkGameAlgorithm.t → Heap → bool)
    (this : LinkGame.t) (fuel : nat) (w : World) :
  configured this → 1 ≤ LinkGame.currentLevel this ≤ 5 → (100 ≤ fuel)%nat →
  ∃ this' w',
    LinkGame.initializeGrid strictBoardValidation fuel this w = Returns this' w' ∧
    wfGame this' (heap w') ∧
    ∀ n, countVisible this' (heap w') n =
         if decide (1 ≤ n ≤ 5 * (LinkGame.currentLevel this + 1))
         then 2%nat else 0%nat.
Proof.
  intros Hconf Hlevel Hfuel.
  assert (Hrows : 0 < LinkGame.gridRows this) by (destruct Hconf as (-> & _); lia).
  assert (Hcols : 0 ≤ LinkGame.gridCols this) by (destruct Hconf as (_ & -> & _); lia).
  pose proof (returns_createCells this w Hrows Hcols) as Hcells.
  apply returns_eq in Hcells as (grid & w1 & Hrun1 & Hwfg & _).
  assert (Hconf1 : configured (LinkGame.withGrid grid this)) by exact Hconf.
  destruct (levels_of_the_game (LinkGame.withGrid grid this) Hconf1 Hlevel)
    as (levelConfig & Hget & Hcount & Hids & Hfits).
  pose proof (returns_fillGridWithPatterns strictBoardValidation fuel
                (LinkGame.withGrid grid this) w1 levelConfig Hwfg Hget Hfuel) as Hfill.
  apply returns_eq in Hfill as (this' & w' & Hrun & _ & Hwfg' & _ & _ & Hpaired).
  exists this', w'. split; [|split; [done|]].
  - unfold LinkGame.initializeGrid, mbind, M_bind. by rewrite Hrun1.
  - intros n. rewrite (count_of_paired this' (heap w') _ n (Hpaired Hfits)).
    + rewrite Hids, Hcount. simpl.
      destruct (decide (1 ≤ n ≤ 5 * (LinkGame.currentLevel this + 1))) as [Hn|Hn].
      * rewrite decide_True; [done|]. apply elem_of_seqZ. lia.
      * rewrite decide_False; [done|]. rewrite elem_of_seqZ. lia.
    + rewrite Hids. apply NoDup_seqZ.
Qed.

(** The game that [constructor] builds is configured, for every screen. *)
Lemma new_configured (gridSize gridX gridY : Q) :
  configured (LinkGame.new gridSize gridX gridY) ∧
  LinkGame.currentLevel (LinkGame.new gridSize gridX gridY) = 1.
Proof. repeat split. Qed.

(** * Further properties of the connection engine *)

Import Simulation.

(** ** The checks that take the grid as an argument *)

Lemma for_from_fmap {R R'} (g : R → R') (body : Z → option R) i n :
  for_from (λ k, g <$> body k) i n = g <$> for_from body i n.
Proof.
  revert i. induction n as [|n IH]; intros i; simpl; [done|].
  destruct (body i); simpl; [done|]. apply IH.
Qed.

Lemma for_range_fmap {R R'} (g : R → R') (body : Z → option R) lo hi :
  for_range lo hi (λ k, g <$> body k) = g <$> for_range lo hi body.
Proof. apply for_from_fmap. Qed.

Lemma for_range_ext {R} (body body' : Z → option R) lo hi :
  (∀ k, body k = body' k) → for_range lo hi body = for_range lo hi body'.
Proof.
  intros Hext. unfold for_range. generalize (Z.to_nat (hi - lo)) as n.
  intros n. revert lo. induction n as [|n IH]; intros lo; simpl; [done|].
  rewrite Hext. destruct (body' lo); [done|]. apply IH.
Qed.

Section Copies.
Context (this : LinkGameAlgorithm.t) (h : Heap) (grid : Grid).
Context {A B : Type} `{Positioned A, Positioned B} (cell1 : A) (cell2 : B).

Lemma checkStraightLineInGrid_eq :
  checkStraightLineInGrid this h cell1 cell2 grid =
  checkStraightLine (onGrid this grid) h cell1 cell2.
Proof. reflexivity. Qed.

Lemma checkOneCornerInGrid_eq :
  checkOneCornerInGrid this h cell1 cell2 grid =
  bool_decide (is_Some (checkOneCorner (onGrid this grid) h cell1 cell2)).
Proof.
  unfold checkOneCornerInGrid, checkOneCorner. cbv zeta.
  change (isValidCornerInGrid this h ?c grid) with (isValidCorner (onGrid this grid) h c).
  change (checkStraightLineInGrid this h ?a ?b grid)
    with (checkStraightLine (onGrid this grid) h a b).
  repeat match goal with
         | |- context [if ?b then _ else _] => destruct b
         end; done.
Qed.

Lemma rowScanInGrid_eq r :
  rowScanInGrid this h cell1 cell2 grid r =
  (λ _, true) <$> rowScan (onGrid this grid) h cell1 cell2 r.
Proof.
  unfold rowScanInGrid, rowScan. cbv zeta.
  change (isValidCornerInGrid this h ?c grid) with (isValidCorner (onGrid this grid) h c).
  change (checkStraightLineInGrid this h ?a ?b grid)
    with (checkStraightLine (onGrid this grid) h a b).
  change (checkHorizontalLineInGrid this h ?a ?b grid)
    with (checkHorizontalLine (onGrid this grid) h a b).
  repeat match goal with
         | |- context [if ?b then _ else _] => destruct b
         end; done.
Qed.

Lemma colScanInGrid_eq c :
  colScanInGrid this h cell1 cell2 grid c =
  (λ _, true) <$> colScan (onGrid this grid) h cell1 cell2 c.
Proof.
  unfold colScanInGrid, colScan. cbv zeta.
  change (isValidCornerInGrid this h ?c grid) with (isValidCorner (onGrid this grid) h c).
  change (checkStraightLineInGrid this h ?a ?b grid)
    with (checkStraightLine (onGrid this grid) h a b).
  change (checkVerticalLineInGrid this h ?a ?b grid)
    with (checkVerticalLine (onGrid this grid) h a b).
  repeat match goal with
         | |- context [if ?b then _ else _] => destruct b
         end; done.
Qed.

Lemma checkTwoCornersInGrid_eq :
  checkTwoCornersInGrid this h cell1 cell2 grid =
  bool_decide (is_Some (checkTwoCorners (onGrid this grid) h cell1 cell2)).
Proof.
  unfold checkTwoCornersInGrid, checkTwoCorners.
  rewrite (for_range_ext _ _ _ _ rowScanInGrid_eq), for_range_fmap.
  rewrite (for_range_ext _ _ _ _ colScanInGrid_eq), for_range_fmap.
  change (gridRows (onGrid this grid)) with (gridRows this).
  change (gridCols (onGrid this grid)) with (gridCols this).
  destruct (for_range 0 (gridRows this) _); simpl; [done|].
  by destruct (for_range 0 (gridCols this) _).
Qed.

End Copies.

Lemma canConnectInGrid_eq this h grid a b :
  canConnectInGrid this h (Some a) (Some b) grid =
  canConnect (onGrid this grid) h (Some a) (Some b) &&
  negb (matched (deref h a)) && negb (matched (deref h b)).
Proof.
  rewrite canConnect_unfold. unfold canConnectInGrid.
  change (isValidCellInGrid this h ?c grid) with (isValidCell (onGrid this grid) h c).
  rewrite checkOneCornerInGrid_eq, checkTwoCornersInGrid_eq.
  change (checkStraightLineInGrid this h ?a ?b grid)
    with (checkStraightLine (onGrid this grid) h a b).
  destruct (isValidCell _ h (Some a)), (isValidCell _ h (Some b));
    cbn [negb orb andb]; try done.
  destruct (decide (a = b)) as [->|Hne].
  - rewrite !bool_decide_eq_true_2 by done. done.
  - rewrite (bool_decide_eq_false_2 (Some a = Some b)) by congruence.
    rewrite (bool_decide_eq_false_2 (a = b)) by done. cbn [negb orb andb].
    destruct (pattern (deref h a)) as [p1|]; [|done].
    destruct (pattern (deref h b)) as [p2|]; [|done].
    destruct (id p1 =? id p2); cbn [negb orb andb]; [|done].
    destruct (matched (deref h a)), (matched (deref h b)); cbn [negb orb andb];
      rewrite ?andb_false_r, ?andb_true_r; done.
Qed.

Lemma getVisibleCells_tile this h l :
  l ∈ LinkGameAlgorithm.getVisibleCells this h → inGrid this l ∧ isTile h l.
Proof.
  unfold LinkGameAlgorithm.getVisibleCells.
  intros (r & Hl & _)%list_elem_of_bind. apply list_elem_of_bind in Hl as (c & Hl & _).
  destruct (gridAt (grid this) r c) as [l'|] eqn:Hat; [|by apply elem_of_nil in Hl].
  destruct (visible _ && negb _) eqn:Htile; [|by apply elem_of_nil in Hl].
  apply list_elem_of_singleton in Hl as ->. split; [by exists r, c|].
  apply andb_true_iff in Htile as [? ?%negb_true_iff]. done.
Qed.

(** The members of the groups are visible cells. *)
Lemma findAllConnectablePairs_candidates this h k cells cell1 cell2 :
  JsObject.get k (groupByPattern h (LinkGameAlgorithm.getVisibleCells this h)) = Some cells →
  (cell1, cell2) ∈ pairsOf cells →
  (inGrid this cell1 ∧ isTile h cell1) ∧ (inGrid this cell2 ∧ isTile h cell2).
Proof.
  intros Hget [H1 H2]%pairsOf_elem.
  split; eapply (groupByPattern_elem h (λ l, inGrid this l ∧ isTile h l)); eauto;
    apply getVisibleCells_tile.
Qed.

Lemma findAllConnectablePairsInGrid_eq this h grid :
  findAllConnectablePairsInGrid this h grid =
  findAllConnectablePairs (onGrid this grid) h.
Proof.
  unfold findAllConnectablePairsInGrid, findAllConnectablePairs. cbv zeta.
  change (getVisibleCellsFromGrid this h grid)
    with (LinkGameAlgorithm.getVisibleCells (onGrid this grid) h).
  apply bind_ext_in. intros k _.
  destruct (JsObject.get k _) as [cells|] eqn:Hget; [|done]. simpl.
  apply List.filter_ext_in. intros [cell1 cell2] Hin%list_elem_of_In.
  destruct (findAllConnectablePairs_candidates _ _ _ _ _ _ Hget Hin)
    as [[_ [_ Hm1]] [_ [_ Hm2]]].
  simpl. by rewrite canConnectInGrid_eq, Hm1, Hm2, !andb_true_r.
Qed.

(** X1. The copies of the checks that the solvability simulation uses
    ([canConnectInGrid] and the methods it calls, which take the grid as an
    argument) decide what the checks of live play decide on the same grid,
    but for one more test: [canConnectInGrid] also refuses a pair with a
    matched endpoint. The pair search reaches visible, unmatched cells only,
    so [findAllConnectablePairsInGrid] returns the very list that
    [findAllConnectablePairs] returns; on [this.grid] both speak of the
    live board. *)
Theorem simulation_checks_agree this h grid :
  (∀ a b,
     canConnectInGrid this h (Some a) (Some b) grid =
     canConnect (onGrid this grid) h (Some a) (Some b) &&
     negb (matched (deref h a)) && negb (matched (deref h b))) ∧
  getVisibleCellsFromGrid this h grid =
    LinkGameAlgorithm.getVisibleCells (onGrid this grid) h ∧
  findAllConnectablePairsInGrid this h grid =
    findAllConnectablePairs (onGrid this grid) h ∧
  onGrid this (LinkGameAlgorithm.grid this) = this.
Proof.
  split; [intros a b; apply canConnectInGrid_eq|]. split; [done|].
  split; [apply findAllConnectablePairsInGrid_eq|by destruct this].
Qed.

(** X2. On a well-formed grid [getVisibleCells] returns exactly the cells
    of the grid that are visible and not matched, each of them once, so
    never more cells than the grid has. *)
Theorem getVisibleCells_exact this h :
  wf this h →
  (∀ l, l ∈ LinkGameAlgorithm.getVisibleCells this h ↔ inGrid this l ∧ isTile h l) ∧
  NoDup (LinkGameAlgorithm.getVisibleCells this h) ∧
  Z.of_nat (length (LinkGameAlgorithm.getVisibleCells this h))
    ≤ gridRows this * gridCols this.
Proof.
  intros Hwf. split; [|split].
  - intros l. split; [apply getVisibleCells_tile|]. intros [Hl [Hv Hm]].
    rewrite (getVisibleCells_cells _ _ Hwf). apply list_elem_of_filter.
    split; [by rewrite Hv, Hm|by apply cells_inGrid].
  - rewrite (getVisibleCells_cells _ _ Hwf). apply NoDup_filter, (cells_NoDup _ _ Hwf).
  - rewrite (getVisibleCells_cells _ _ Hwf), <- (cells_length this h Hwf).
    apply Nat2Z.inj_le, length_filter.
Qed.

(** ** The pair search *)

Lemma JsObject_get_fst {V} k (o : JsObject.t V) :
  is_Some (JsObject.get k o) ↔ k ∈ map fst o.
Proof.
  induction o as [|[k' v] o IH]; simpl.
  - split; [by intros []|by intros ?%elem_of_nil].
  - destruct (Z.eqb_spec k k') as [->|Hne].
    + split; [left|eauto].
    + rewrite IH, elem_of_cons. simpl. tauto.
Qed.

Lemma insertSorted_elem k k' ks :
  k ∈ JsObject.insertSorted k' ks ↔ k = k' ∨ k ∈ ks.
Proof.
  induction ks as [|k0 ks IH]; simpl.
  - rewrite list_elem_of_singleton, elem_of_nil. tauto.
  - destruct (k' <=? k0); rewrite !elem_of_cons; [done|]. rewrite IH. tauto.
Qed.

Lemma ascending_elem k ks : k ∈ JsObject.ascending ks ↔ k ∈ ks.
Proof.
  unfold JsObject.ascending. induction ks as [|k0 ks IH]; simpl; [done|].
  by rewrite insertSorted_elem, IH, elem_of_cons.
Qed.

(** [for (const k in o)] visits the keys that [o] holds. *)
Lemma JsObject_keys_elem {V} k (o : JsObject.t V) :
  k ∈ JsObject.keys o ↔ is_Some (JsObject.get k o).
Proof.
  rewrite JsObject_get_fst. unfold JsObject.keys. cbv zeta.
  rewrite elem_of_app, ascending_elem, !list_elem_of_In, !filter_In.
  destruct (JsObject.isArrayIndex k); simpl; intuition congruence.
Qed.

Section Groups.
Context (h : Heap).

(** The cells of [cells] that hold the pattern id [k], in their order. *)
Lemma groupByPattern_get cells k :
  JsObject.get k (groupByPattern h cells) =
    match holding h k cells with
    | [] => None
    | group => Some group
    end.
Proof.
  unfold groupByPattern, holding.
  induction cells as [|l cells IH] using rev_ind; [done|].
  rewrite foldl_app, filter_app. simpl.
  set (o := foldl _ JsObject.empty cells) in *. cbv zeta.
  destruct (pattern (deref h l)) as [p|] eqn:Hp.
  - rewrite JsObject_get_set. destruct (Z.eqb_spec k (id p)) as [->|Hne].
    + rewrite filter_cons_True by (by rewrite Hp). rewrite filter_nil.
      destruct (JsObject.get (id p) o) as [old|] eqn:Hget.
      * rewrite Hget. simpl. destruct (filter _ cells); [done|].
        injection IH as ->. done.
      * rewrite JsObject_get_set, Z.eqb_refl. simpl.
        by destruct (filter _ cells).
    + rewrite filter_cons_False by (rewrite Hp; simpl; congruence).
      rewrite filter_nil, app_nil_r.
      destruct (JsObject.get (id p) o); [apply IH|].
      rewrite JsObject_get_set.
      destruct (Z.eqb_spec k (id p)); [done|]. apply IH.
  - rewrite filter_cons_False by (by rewrite Hp). rewrite filter_nil, app_nil_r.
    apply IH.
Qed.

End Groups.

Lemma pairsOf_complete cells a b :
  a ∈ cells → b ∈ cells → a ≠ b →
  (a, b) ∈ pairsOf cells ∨ (b, a) ∈ pairsOf cells.
Proof.
  induction cells as [|c cells IH]; [by intros ?%elem_of_nil|].
  intros [->|Ha]%elem_of_cons [->|Hb]%elem_of_cons Hne; simpl.
  - done.
  - left. apply elem_of_app. left. apply list_elem_of_In, in_map, list_elem_of_In, Hb.
  - right. apply elem_of_app. left. apply list_elem_of_In, in_map, list_elem_of_In, Ha.
  - destruct (IH Ha Hb Hne); [left|right]; apply elem_of_app; by right.
Qed.

Lemma findAllConnectablePairs_elem this h cell1 cell2 :
  (cell1, cell2) ∈ findAllConnectablePairs this h ↔
  ∃ k, (cell1, cell2) ∈ pairsOf (holding h k (LinkGameAlgorithm.getVisibleCells this h)) ∧
       canConnect this h (Some cell1) (Some cell2) = true.
Proof.
  unfold findAllConnectablePairs. cbv zeta. rewrite list_elem_of_bind.
  split.
  - intros (k & Hin & _). exists k.
    apply list_elem_of_In, filter_In in Hin as [Hin%list_elem_of_In Hcan].
    rewrite groupByPattern_get in Hin.
    destruct (holding h k _); [by apply elem_of_nil in Hin|]. done.
  - intros (k & Hin & Hcan). exists k.
    assert (Hget : JsObject.get k (groupByPattern h (LinkGameAlgorithm.getVisibleCells this h))
                   = Some (holding h k (LinkGameAlgorithm.getVisibleCells this h))).
    { rewrite groupByPattern_get.
      destruct (holding h k _); [by apply elem_of_nil in Hin|done]. }
    split.
    + rewrite Hget. simpl. apply list_elem_of_In, filter_In.
      split; [by apply list_elem_of_In|done].
    + apply JsObject_keys_elem. rewrite Hget. eauto.
Qed.

Lemma findAllConnectablePairs_sound this h a b :
  (a, b) ∈ findAllConnectablePairs this h →
  a ≠ b ∧ move this h a b.
Proof.
  intros (k & [Ha Hb]%pairsOf_elem & Hcan)%findAllConnectablePairs_elem.
  apply list_elem_of_filter in Ha as [_ [? ?]%getVisibleCells_tile].
  apply list_elem_of_filter in Hb as [_ [? ?]%getVisibleCells_tile].
  split; [|done].
  rewrite canConnect_unfold, !andb_true_iff in Hcan.
  by destruct Hcan as [[[_ Hne%negb_true_iff%bool_decide_eq_false] _] _].
Qed.

Lemma findAllConnectablePairs_complete this h a b :
  wf this h → move this h a b →
  (a, b) ∈ findAllConnectablePairs this h ∨ (b, a) ∈ findAllConnectablePairs this h.
Proof.
  intros Hwf (Ha & Hb & [Hva Hma] & [Hvb Hmb] & Hcan).
  pose proof Hcan as Hcan'. rewrite canConnect_unfold, !andb_true_iff in Hcan'.
  destruct Hcan' as [[[_ Hne%negb_true_iff%bool_decide_eq_false] Hpat] _].
  destruct (pattern (deref h a)) as [p1|] eqn:Hp1; [|done].
  destruct (pattern (deref h b)) as [p2|] eqn:Hp2; [|done].
  apply Z.eqb_eq in Hpat.
  assert (Hin : ∀ l p, inGrid this l → visible (deref h l) = true →
            matched (deref h l) = false → pattern (deref h l) = Some p →
            l ∈ holding h (id p) (LinkGameAlgorithm.getVisibleCells this h)).
  { intros l p Hl Hv Hm Hp. apply list_elem_of_filter. split; [by rewrite Hp|].
    rewrite (getVisibleCells_cells this h Hwf). apply list_elem_of_filter.
    split; [by rewrite Hv, Hm|]. by apply cells_inGrid. }
  pose proof (Hin a p1 Ha Hva Hma Hp1) as Hina.
  pose proof (Hin b p2 Hb Hvb Hmb Hp2) as Hinb. rewrite <- Hpat in Hinb.
  destruct (pairsOf_complete _ a b Hina Hinb Hne) as [Hpair|Hpair]; [left|right];
    apply findAllConnectablePairs_elem; exists (id p1); (split; [done|]).
  - done.
  - by rewrite canConnect_sym.
Qed.

Lemma move_sym this h a b : move this h a b → move this h b a.
Proof.
  intros (? & ? & ? & ? & Hcan). rewrite canConnect_sym in Hcan.
  unfold move. done.
Qed.

(** X3. On a well-formed board the pair search is exact: a pair of cells
    is in the list of [findAllConnectablePairs], in one order or the other,
    exactly when it is a move of the game, that is when both are visible,
    unmatched cells of the grid that [canConnect] accepts; the two cells of
    a pair of the list are distinct and hold one pattern id; and
    [isGameContinue] tells whether a move exists. *)
Theorem findAllConnectablePairs_exact this h :
  wf this h →
  (∀ a b,
     (a, b) ∈ findAllConnectablePairs this h ∨ (b, a) ∈ findAllConnectablePairs this h ↔
     inGrid this a ∧ inGrid this b ∧ isTile h a ∧ isTile h b ∧
     canConnect this h (Some a) (Some b) = true) ∧
  (∀ a b, (a, b) ∈ findAllConnectablePairs this h → a ≠ b ∧ samePattern h a b) ∧
  (isGameContinue this h = true ↔
   ∃ a b, inGrid this a ∧ inGrid this b ∧ isTile h a ∧ isTile h b ∧
          canConnect this h (Some a) (Some b) = true).
Proof.
  intros Hwf. split; [|split].
  - intros a b. split.
    + intros [Hab|Hba].
      * by apply findAllConnectablePairs_sound in Hab as [_ ?].
      * by apply findAllConnectablePairs_sound in Hba as [_ ?%move_sym].
    + by apply findAllConnectablePairs_complete.
  - intros a b Hab.
    destruct (findAllConnectablePairs_sound _ _ _ _ Hab) as (Hne & _ & _ & _ & _ & Hcan).
    rewrite canConnect_unfold, !andb_true_iff in Hcan.
    destruct Hcan as [[_ Hpat] _].
    split; [done|]. unfold samePattern.
    destruct (pattern (deref h a)) as [p1|]; [|done].
    destruct (pattern (deref h b)) as [p2|]; [|done].
    exists p1, p2. apply Z.eqb_eq in Hpat. done.
  - unfold isGameContinue. rewrite bool_decide_eq_true. split.
    + destruct (findAllConnectablePairs this h) as [|[a b] pairs] eqn:Hpairs;
        [simpl; lia|].
      intros _. exists a, b.
      apply (findAllConnectablePairs_sound this h a b). rewrite Hpairs. by left.
    + intros (a & b & Hmove).
      destruct (findAllConnectablePairs_complete this h a b Hwf Hmove) as [Hin|Hin];
        destruct (findAllConnectablePairs this h); simpl;
        (by apply elem_of_nil in Hin) || lia.
Qed.

Import Numbers.

(** ** Random choices *)

Lemma floor_scaled (u : Q) (m : Z) :
  (0 <= u)%Q → (u < 1)%Q → 0 < m → 0 ≤ Qfloor (u * inject_Z m) < m.
Proof.
  intros Hu0 Hu1 Hm.
  assert (Hpos : (0 < inject_Z m)%Q).
  { change 0%Q with (inject_Z 0). rewrite <- Zlt_Qlt. lia. }
  split.
  - change 0 with (Qfloor 0). apply Qfloor_resp_le.
    apply Qmult_le_0_compat; [done|]. by apply Qlt_le_weak.
  - assert (Hlt : (u * inject_Z m < inject_Z m)%Q).
    { rewrite <- (Qmult_1_l (inject_Z m)) at 2. by apply Qmult_lt_compat_r. }
    rewrite Zlt_Qlt. eapply Qle_lt_trans; [apply Qfloor_le|done].
Qed.

(** X4. [randomInt(min, max)] on safe integers [min <= max] whose span
    [max - min + 1] is a safe integer too, with a draw of [Math.random()]
    in [0, 1): it returns an integer of [min .. max], both ends included.
    It makes that one draw and touches neither the cells nor the
    console. *)
Theorem randomInt_range min max w :
  min ≤ max →
  isSafeInteger min → isSafeInteger max → isSafeInteger (max - min + 1) →
  randomInRange w →
  ∃ n w', randomInt min max w = Returns n w' ∧ min ≤ n ≤ max ∧
          heap w' = heap w ∧ console w' = console w ∧ random w' = random w ∧
          randomCalls w' = S (randomCalls w).
Proof.
  intros Hle _ _ _ Hrandom.
  destruct (Hrandom (randomCalls w)) as [Hu0 Hu1].
  pose proof (floor_scaled _ (max - min + 1) Hu0 Hu1 ltac:(lia)) as Hfloor.
  unfold randomInt, Math_random, mbind, M_bind. cbn [mret M_ret].
  eexists _, _. split; [reflexivity|]. split; [lia|done].
Qed.

(** X5. [findHint()] returns [null] exactly when the search finds no
    connectable pair, and then draws no random number; otherwise it returns
    one of the pairs of [findAllConnectablePairs], which [canConnect]
    accepts: the index [randomInt(0, pairs.length - 1)] never falls outside
    the array. It changes no cell. *)
Theorem findHint_connectable this w :
  randomInRange w →
  ∃ hint w',
    findHint this w = Returns hint w' ∧
    heap w' = heap w ∧ console w' = console w ∧
    match hint with
    | None => findAllConnectablePairs this (heap w) = [] ∧ w' = w
    | Some (cell1, cell2) =>
        (cell1, cell2) ∈ findAllConnectablePairs this (heap w) ∧
        canConnect this (heap w) (Some cell1) (Some cell2) = true ∧
        randomCalls w' = S (randomCalls w)
    end.
Proof.
  intros Hrandom. unfold findHint, getHeap, mbind at 1, M_bind at 1. cbv zeta.
  destruct (findAllConnectablePairs this (heap w)) as [|pair pairs] eqn:Hpairs.
  - eexists None, w. simpl. done.
  - rewrite bool_decide_eq_true_2 by (simpl; lia).
    destruct (Hrandom (randomCalls w)) as [Hu0 Hu1].
    pose proof (floor_scaled _ (Z.of_nat (length (pair :: pairs)) - 1 - 0 + 1)
                  Hu0 Hu1 ltac:(simpl; lia)) as Hfloor.
    unfold randomInt, Math_random, mbind, M_bind. cbn [mret M_ret].
    set (randomIndex := Qfloor _ + 0) in *.
    assert (Hidx : 0 ≤ randomIndex < Z.of_nat (length (pair :: pairs)))
      by (subst randomIndex; simpl in *; lia).
    destruct (lookup_lt_is_Some_2 (pair :: pairs) (Z.to_nat randomIndex))
      as [[cell1 cell2] Hpair]; [lia|].
    eexists (Some (cell1, cell2)), _. split.
    { f_equal. destruct (Z.ltb_spec randomIndex 0); [lia|]. exact Hpair. }
    simpl. split; [done|]. split; [done|].
    apply list_elem_of_lookup_2 in Hpair as Hin. split; [done|]. split; [|done].
    rewrite <- Hpairs in Hin. unfold findAllConnectablePairs in Hin.
    apply list_elem_of_bind in Hin as (k & Hin & _).
    by apply list_elem_of_In, filter_In in Hin as [_ Hcan].
Qed.

(** ** The parity check *)

Lemma countPatterns_get h cells k :
  JsObject.get k (countPatterns h cells) =
    match length (holding h k cells) with
    | O => None
    | count => Some (Z.of_nat count)
    end.
Proof.
  unfold countPatterns, holding.
  induction cells as [|l cells IH] using rev_ind; [done|].
  rewrite foldl_app, filter_app, length_app. simpl.
  set (o := foldl _ JsObject.empty cells) in *. cbv zeta.
  destruct (pattern (deref h l)) as [p|] eqn:Hp.
  - rewrite JsObject_get_set. destruct (Z.eqb_spec k (id p)) as [->|Hne].
    + rewrite filter_cons_True by (by rewrite Hp). rewrite filter_nil. simpl.
      rewrite IH. destruct (length (filter _ cells)) as [|n]; simpl.
      * done.
      * replace (n + 1)%nat with (Datatypes.S n) by lia. f_equal. lia.
    + rewrite filter_cons_False by (rewrite Hp; simpl; congruence).
      rewrite filter_nil. simpl. rewrite Nat.add_0_r. apply IH.
  - rewrite filter_cons_False by (by rewrite Hp). rewrite filter_nil. simpl.
    rewrite Nat.add_0_r. apply IH.
Qed.

Lemma oddPattern_Some {o : JsObject.t Z} {k c} :
  oddPattern o = Some (k, c) →
  k ∈ JsObject.keys o ∧ c = default 0 (JsObject.get k o) ∧ Z.rem c 2 ≠ 0.
Proof.
  unfold oddPattern. induction (JsObject.keys o) as [|k0 ks IH]; [done|].
  rewrite bind_cons. cbv zeta.
  destruct (Z.eqb_spec (Z.rem (default 0 (JsObject.get k0 o)) 2) 0) as [Heq|Hne]; simpl.
  - intros (? & ? & ?)%IH. split; [by right|done].
  - intros [= <- <-]. split; [by left|done].
Qed.

Lemma oddPattern_None {o : JsObject.t Z} :
  oddPattern o = None →
  ∀ k, k ∈ JsObject.keys o → Z.rem (default 0 (JsObject.get k o)) 2 = 0.
Proof.
  unfold oddPattern. induction (JsObject.keys o) as [|k0 ks IH]; [by intros _ k ?%elem_of_nil|].
  rewrite bind_cons. cbv zeta.
  destruct (Z.eqb_spec (Z.rem (default 0 (JsObject.get k0 o)) 2) 0) as [Heq|Hne]; simpl.
  - intros Hnone k [->|Hk]%elem_of_cons; [done|]. by apply IH.
  - done.
Qed.

Lemma rem_Even (n : nat) : Z.rem (Z.of_nat n) 2 = 0 ↔ Nat.Even n.
Proof.
  rewrite Z.rem_mod_nonneg by lia. split.
  - intros Hmod. exists (Z.to_nat (Z.of_nat n / 2)).
    pose proof (Z.div_mod (Z.of_nat n) 2 ltac:(lia)) as Hdiv.
    pose proof (Z.div_pos (Z.of_nat n) 2 ltac:(lia) ltac:(lia)). lia.
  - intros [m ->]. rewrite Nat2Z.inj_mul, Z.mul_comm. apply Z.mod_mul. lia.
Qed.

Lemma validateGameState_run this w :
  ∃ verdict w',
    validateGameState this w = Returns verdict w' ∧
    heap w' = heap w ∧ randomCalls w' = randomCalls w ∧
    (verdict = true ↔ ∀ k, Nat.Even (tilesOf this (heap w) k)) ∧
    (verdict = true → console w' = console w) ∧
    (verdict = false →
     ∃ k, Nat.Odd (tilesOf this (heap w) k) ∧
          console w' =
            console w ++ [WarnOddPattern k (Z.of_nat (tilesOf this (heap w) k))]).
Proof.
  set (count := tilesOf this (heap w)).
  unfold validateGameState, getHeap, mbind at 1, M_bind at 1. cbv zeta.
  set (o := countPatterns (heap w) (LinkGameAlgorithm.getVisibleCells this (heap w))).
  assert (Hget : ∀ k, default 0 (JsObject.get k o) = Z.of_nat (count k)).
  { intros k. unfold o. rewrite countPatterns_get.
    change (length (holding _ k _)) with (count k). by destruct (count k). }
  destruct (oddPattern o) as [[k c]|] eqn:Hodd.
  - apply oddPattern_Some in Hodd as (Hk & -> & Hrem). rewrite Hget in Hrem |- *.
    assert (Hnot : ¬ Nat.Even (count k)) by (by rewrite <- rem_Even).
    eexists false, _. split; [reflexivity|]. simpl.
    split; [done|]. split; [done|]. split; [|split; [done|]].
    + split; [done|]. intros Hall. destruct (Hnot (Hall k)).
    + intros _. exists k. split; [|done].
      destruct (Nat.Even_or_Odd (count k)); done.
  - pose proof (oddPattern_None Hodd) as Hall.
    eexists true, w. split; [reflexivity|].
    split; [done|]. split; [done|]. split; [|done].
    split; [|done]. intros _ k.
    destruct (count k) as [|n] eqn:Hcount; [by exists 0%nat|].
    rewrite <- Hcount. apply rem_Even. rewrite <- Hget. apply Hall.
    apply JsObject_keys_elem. unfold o. rewrite countPatterns_get.
    change (length (holding _ k _)) with (count k). rewrite Hcount. eauto.
Qed.

(** X6. [validateGameState()] returns [true] exactly when every pattern
    id is held by an even number of visible, unmatched cells. When it
    returns [false] it has written one warning to the console, which names
    an id held by an odd number of such cells, and that number. It changes
    no cell and draws no random number. *)
Theorem validateGameState_parity this w :
  ∃ verdict w',
    validateGameState this w = Returns verdict w' ∧
    heap w' = heap w ∧ randomCalls w' = randomCalls w ∧
    (verdict = true ↔ ∀ k, Nat.Even (tilesOf this (heap w) k)) ∧
    (verdict = true → console w' = console w) ∧
    (verdict = false →
     ∃ k, Nat.Odd (tilesOf this (heap w) k) ∧
          console w' =
            console w ++ [WarnOddPattern k (Z.of_nat (tilesOf this (heap w) k))]).
Proof. apply validateGameState_run. Qed.

(** ** Shuffles *)

Lemma shuffleArray_draws {A} (array : list A) w :
  returns (shuffleArray array) w (λ array' w',
    array' ≡ₚ array ∧ sameBoard w w' ∧
    randomCalls w' = (randomCalls w + (length array - 1))%nat ∧
    ((length array ≤ 1)%nat → array' = array)).
Proof.
  unfold shuffleArray.
  destruct (decide (length array ≤ 1)%nat) as [Hshort|Hlong].
  { replace (length array - 1)%nat with 0%nat by lia. simpl.
    apply returns_ret. rewrite Nat.add_0_r. done. }
  eapply returns_mono.
  - apply (returns_foldM _ (λ done array' w',
             array' ≡ₚ array ∧ sameBoard w w' ∧
             randomCalls w' = (randomCalls w + length done)%nat)).
    + rewrite Nat.add_0_r. done.
    + intros done i array' w' (Hperm & (Hheap & Hrandom & Hconsole) & Hcalls) _.
      apply returns_bind, returns_Math_random. apply returns_ret.
      split; [by rewrite swap_Permutation|]. split; [done|]. simpl.
      rewrite length_app. simpl. lia.
  - simpl. intros array' w' (Hperm & Hsame & Hcalls).
    rewrite length_rev, length_seq in Hcalls. split; [done|]. split; [done|].
    split; [done|]. lia.
Qed.

(** X7. [shuffleArray(array)] returns, and leaves in the array a
    permutation of what it held: no element is lost, none is duplicated. It
    makes [array.length - 1] draws of [Math.random()] (none for an empty
    array), leaves an array of at most one element as it is, and touches
    neither the cells nor the console. *)
Theorem shuffleArray_permutes {A} (array : list A) w :
  ∃ array' w',
    shuffleArray array w = Returns array' w' ∧
    array' ≡ₚ array ∧
    heap w' = heap w ∧ console w' = console w ∧ random w' = random w ∧
    randomCalls w' = (randomCalls w + (length array - 1))%nat ∧
    ((length array ≤ 1)%nat → array' = array).
Proof.
  pose proof (shuffleArray_draws array w) as Hret.
  apply returns_eq in Hret as (array' & w' & Hrun & Hperm & (? & ? & ?) & ? & ?).
  by exists array', w'.
Qed.

(** X8. On a well-formed board [reshuffleGrid()] returns and keeps the
    board well formed. The flags [visible] and [matched] of every cell, and
    so the list of visible cells, are as before, and a cell that is not
    visible is not written to. The result is [true] exactly when some
    visible cell holds a pattern. When every visible cell holds a pattern,
    the patterns of the visible cells after the call are a permutation of
    those before it, and the number of visible cells that hold a given
    pattern id is as before. *)
Theorem reshuffleGrid_permutes this w :
  wf this (heap w) →
  let visibleCells := LinkGameAlgorithm.getVisibleCells this (heap w) in
  ∃ verdict w',
    reshuffleGrid this w = Returns verdict w' ∧
    wf this (heap w') ∧
    LinkGameAlgorithm.getVisibleCells this (heap w') = visibleCells ∧
    (∀ l, visible (deref (heap w') l) = visible (deref (heap w) l) ∧
          matched (deref (heap w') l) = matched (deref (heap w) l)) ∧
    (∀ l, l ∉ visibleCells → heap w' !! l = heap w !! l) ∧
    (verdict = true ↔ ∃ l, l ∈ visibleCells ∧ is_Some (pattern (deref (heap w) l))) ∧
    (Forall (λ l, is_Some (pattern (deref (heap w) l))) visibleCells →
     (λ l, pattern (deref (heap w') l)) <$> visibleCells ≡ₚ
     (λ l, pattern (deref (heap w) l)) <$> visibleCells ∧
     ∀ k, tilesOf this (heap w') k = tilesOf this (heap w) k).
Proof.
  intros Hwf visibleCells.
  unfold reshuffleGrid, getHeap, mbind at 1, M_bind at 1. cbv zeta.
  fold visibleCells.
  assert (Hvis : visibleCells =
            filter (λ l, visible (deref (heap w) l) && negb (matched (deref (heap w) l)) = true)
                   (mjoin (grid this))).
  { unfold visibleCells. by rewrite (getVisibleCells_cells _ _ Hwf). }
  assert (Hnodup : NoDup visibleCells).
  { rewrite Hvis. apply NoDup_filter, (cells_NoDup this (heap w) Hwf). }
  assert (Halloc : ∀ l, l ∈ visibleCells → (l < length (heap w))%nat).
  { intros l. rewrite Hvis. intros [_ Hl]%list_elem_of_filter.
    by apply (cells_allocated this (heap w) Hwf). }
  set (patterns0 := omap (λ cell, pattern (deref (heap w) cell)) visibleCells).
  pose proof (shuffleArray_draws patterns0 w) as Hshuffle.
  apply returns_eq in Hshuffle
    as (patterns & w1 & Hrun1 & Hperm & (Hheap1 & Hrandom1 & Hconsole1) & _).
  destruct (reassignPatterns_spec patterns visibleCells w1 Hnodup)
    as (h' & Hrun & Hlen & Hcells & Hother).
  { rewrite Hheap1. done. }
  rewrite Hheap1 in Hlen, Hcells, Hother.
  assert (Hflags : ∀ l, visible (deref h' l) = visible (deref (heap w) l) ∧
                        matched (deref h' l) = matched (deref (heap w) l) ∧
                        row (deref h' l) = row (deref (heap w) l) ∧
                        col (deref h' l) = col (deref (heap w) l)).
  { intros l. unfold deref.
    destruct (decide (l ∈ visibleCells)) as [Hin|Hnotin].
    - apply list_elem_of_lookup in Hin as [j Hj].
      rewrite (list_lookup_total_correct _ _ _ (Hcells j l Hj)).
      by destruct (patterns !! j).
    - rewrite !list_lookup_total_alt, (Hother l Hnotin). done. }
  assert (Hshape : ∀ l cell, heap w !! l = Some cell →
            ∃ cell', h' !! l = Some cell' ∧ row cell' = row cell ∧ col cell' = col cell).
  { intros l cell Hcell.
    destruct (lookup_lt_is_Some_2 h' l) as [cell' Hcell'];
      [rewrite Hlen; by eapply lookup_lt_Some|].
    exists cell'. split; [done|]. destruct (Hflags l) as (_ & _ & Hr & Hc).
    unfold deref in Hr, Hc.
    by rewrite (list_lookup_total_correct _ _ _ Hcell),
               (list_lookup_total_correct _ _ _ Hcell') in Hr, Hc. }
  assert (Hwf' : wf this h') by (by eapply wf_sameShape).
  eexists _, (withHeap h' w1). split.
  { unfold mbind, M_bind. rewrite Hrun1. unfold mbind, M_bind. rewrite Hrun.
    reflexivity. }
  cbn [heap withHeap].
  assert (Hvis' : LinkGameAlgorithm.getVisibleCells this h' = visibleCells).
  { rewrite Hvis, (getVisibleCells_cells _ _ Hwf').
    apply filter_ext_in. intros l _. destruct (Hflags l) as (-> & -> & _). done. }
  split; [done|]. split; [|split; [|split; [done|split]]].
  - done.
  - intros l. destruct (Hflags l) as (? & ? & _). done.
  - rewrite bool_decide_eq_true.
    assert (Hlenp : length patterns = length patterns0) by (by rewrite Hperm).
    rewrite Hlenp. unfold patterns0. split.
    + intros Hpos. destruct (omap _ visibleCells) as [|p ps] eqn:Homap;
        [simpl in Hpos; lia|].
      assert (Hp : p ∈ omap (λ cell, pattern (deref (heap w) cell)) visibleCells)
        by (rewrite Homap; by left).
      apply list_elem_of_omap in Hp as (l & Hl & Hp). exists l. split; [done|eauto].
    + intros (l & Hl & [p Hp]).
      assert (Hin : p ∈ omap (λ cell, pattern (deref (heap w) cell)) visibleCells)
        by (apply list_elem_of_omap; eauto).
      destruct (omap _ visibleCells); [by apply elem_of_nil in Hin|simpl; lia].
  - intros Hall.
    cut ((λ l, pattern (deref h' l)) <$> visibleCells ≡ₚ
         (λ l, pattern (deref (heap w) l)) <$> visibleCells).
    { intros Hpatterns. split; [done|]. intros k. unfold tilesOf, holding.
      rewrite Hvis'. fold visibleCells.
      rewrite (length_filter_fmap (λ l, pattern (deref h' l))
                 (λ op : option Pattern, id <$> op = Some k)).
      rewrite (length_filter_fmap (λ l, pattern (deref (heap w) l))
                 (λ op : option Pattern, id <$> op = Some k)).
      by rewrite Hpatterns. }
    rewrite (fmap_omap_all (λ l, pattern (deref (heap w) l)) visibleCells Hall).
    fold patterns0.
    assert (Hlenp : length patterns = length visibleCells).
    { rewrite Hperm. unfold patterns0.
      rewrite <- (length_fmap Some (omap _ visibleCells)), <- fmap_omap_all by done.
      by rewrite length_fmap. }
    transitivity (Some <$> patterns); [|by rewrite Hperm].
    assert (Heq : (λ l, pattern (deref h' l)) <$> visibleCells = Some <$> patterns);
      [|by rewrite Heq].
    apply list_eq. intros j. rewrite !list_lookup_fmap.
    destruct (visibleCells !! j) as [l|] eqn:Hj; simpl.
    + destruct (lookup_lt_is_Some_2 patterns j) as [p Hp];
        [rewrite Hlenp; by eapply lookup_lt_Some|].
      rewrite Hp. simpl. f_equal. unfold deref.
      rewrite (list_lookup_total_correct _ _ _ (Hcells j l Hj)), Hp. done.
    + apply lookup_ge_None in Hj. rewrite lookup_ge_None_2 by lia. done.
Qed.

(** ** The deep copy *)

Lemma createGridCopy_run this w :
  wf this (heap w) →
  ∃ gridCopy w',
    createGridCopy this w = Returns gridCopy w' ∧
    unchanged (heap w) (heap w') ∧
    random w' = random w ∧ randomCalls w' = randomCalls w ∧ console w' = console w ∧
    wf (onGrid this gridCopy) (heap w') ∧
    (∀ l, inGridOf gridCopy l → (length (heap w) ≤ l)%nat) ∧
    (∀ r c l l',
       gridAt (grid this) r c = Some l → gridAt gridCopy r c = Some l' →
       pattern (deref (heap w') l') = pattern (deref (heap w) l) ∧
       visible (deref (heap w') l') = visible (deref (heap w) l) ∧
       matched (deref (heap w') l') = matched (deref (heap w) l) ∧
       cell_x (deref (heap w') l') = cell_x (deref (heap w) l) ∧
       cell_y (deref (heap w') l') = cell_y (deref (heap w) l)).
Proof.
  intros Hwf.
  pose (copyOf := λ (cell : Cell) (r c : Z),
          ∃ l0 orig, gridAt (grid this) r c = Some l0 ∧ heap w !! l0 = Some orig ∧
                     pattern cell = pattern orig ∧ visible cell = visible orig ∧
                     matched cell = matched orig ∧ cell_x cell = cell_x orig ∧
                     cell_y cell = cell_y orig).
  pose (placed := λ (w' : World) (r : Z) (line : list loc),
          ∀ (c : nat) l, line !! c = Some l →
            (length (heap w) ≤ l)%nat ∧
            ∃ cell, heap w' !! l = Some cell ∧ row cell = r ∧ col cell = Z.of_nat c ∧
                    copyOf cell r (Z.of_nat c)).
  pose (ext := λ (w0 w' : World),
          (∃ news, heap w' = heap w0 ++ news) ∧
          random w' = random w0 ∧ randomCalls w' = randomCalls w0 ∧
          console w' = console w0).
  assert (Hext_trans : ∀ w0 w1 w2, ext w0 w1 → ext w1 w2 → ext w0 w2).
  { intros w0 w1 w2 ([n1 Hn1] & ? & ? & ?) ([n2 Hn2] & ? & ? & ?).
    split; [|split_and!; congruence].
    exists (n1 ++ n2). by rewrite Hn2, Hn1, app_assoc. }
  assert (Hplaced_ext : ∀ w1 w2 r line, ext w1 w2 → placed w1 r line → placed w2 r line).
  { intros w1 w2 r line ([news Hnews] & _) Hp c l Hl.
    destruct (Hp c l Hl) as (Hfresh & cell & Hcell & ? & ? & ?). split; [done|].
    exists cell. split; [|done]. rewrite Hnews. by apply lookup_app_l_Some. }
  assert (Hret : returns (createGridCopy this) w (λ gridCopy w',
            ext w w' ∧ length gridCopy = Z.to_nat (gridRows this) ∧
            Forall (λ line, length line = Z.to_nat (gridCols this)) gridCopy ∧
            ∀ (r : nat) line, gridCopy !! r = Some line → placed w' (Z.of_nat r) line)).
  { unfold createGridCopy. eapply returns_mono.
    - apply (returns_forM_prefix _ (λ done gridCopy w',
               ext w w' ∧ length gridCopy = length done ∧
               Forall (λ line, length line = Z.to_nat (gridCols this)) gridCopy ∧
               ∀ (r : nat) line, gridCopy !! r = Some line → placed w' (Z.of_nat r) line)).
      + split; [|split; [done|split; [done|]]].
        * split; [by exists []; rewrite app_nil_r|done].
        * intros r line Hr. by rewrite lookup_nil in Hr.
      + intros done gridCopy r rest w1 (Hext1 & Hlen1 & Hcols1 & Hplaced1) Hseq.
        assert (Hr : r ∈ seqZ 0 (gridRows this))
          by (rewrite Hseq; apply elem_of_app; right; by left).
        apply elem_of_seqZ in Hr. apply seqZ_prefix in Hseq as Hrlen.
        eapply returns_mono.
        * apply (returns_forM_prefix _ (λ done' line w',
                   ext w1 w' ∧ length line = length done' ∧ placed w' r line)).
          -- split; [|split; [done|]].
             ++ split; [by exists []; rewrite app_nil_r|done].
             ++ intros c l Hc. by rewrite lookup_nil in Hc.
          -- intros done' line c rest' w2 (Hext2 & Hlen2 & Hplaced2) Hseq'.
             assert (Hc : c ∈ seqZ 0 (gridCols this))
               by (rewrite Hseq'; apply elem_of_app; right; by left).
             apply elem_of_seqZ in Hc. apply seqZ_prefix in Hseq' as Hclen.
             destruct (gridAt_defined this (heap w) Hwf r c)
               as (l0 & orig & Hat & Horig & _); [unfold inBounds; lia|].
             pose proof (Hext_trans _ _ _ Hext1 Hext2) as ([news Hnews] & _).
             apply returns_bind. apply returns_bind.
             eapply returns_gridCell; [done|].
             eapply returns_readCell.
             { rewrite Hnews. by apply lookup_app_l_Some. }
             apply returns_alloc. simpl.
             set (w3 := withHeap _ w2).
             assert (Hext23 : ext w2 w3) by (split; [by eexists|done]).
             split; [by eapply Hext_trans|]. split; [by rewrite !length_app, Hlen2|].
             intros c' l Hl. apply lookup_app_Some in Hl as [Hl|[Hge Hl]].
             ++ by apply (Hplaced_ext w2 w3 r line Hext23 Hplaced2).
             ++ apply list_lookup_singleton_Some in Hl as [Hc' <-].
                split; [rewrite Hnews, length_app; lia|].
                eexists. split; [apply list_lookup_middle; done|].
                simpl. split; [done|]. split; [lia|].
                exists l0, orig. replace (Z.of_nat c') with c by lia.
                split; [done|]. split; [done|]. simpl.
                split; [by destruct (pattern orig)|done].
        * cbv beta. intros line w2 (Hext2 & Hlen2 & Hplaced2).
          split; [by eapply Hext_trans|]. split; [by rewrite !length_app, Hlen1|].
          split.
          { apply Forall_app. split; [done|]. apply Forall_singleton.
            by rewrite Hlen2, length_seqZ. }
          intros r' line' Hr'. apply lookup_app_Some in Hr' as [Hr'|[Hge Hr']].
          -- apply (Hplaced_ext w1 w2 _ _ Hext2). by apply Hplaced1.
          -- apply list_lookup_singleton_Some in Hr' as [Hr'' <-].
             replace (Z.of_nat r') with r by lia. done.
    - cbv beta. intros gridCopy w' (Hext & Hlen & Hlines & Hplaced).
      rewrite length_seqZ in Hlen. done. }
  apply returns_eq in Hret as (gridCopy & w' & Hrun & Hext & Hlen & Hlines & Hplaced).
  destruct Hext as ([news Hnews] & Hrandom & Hcalls & Hconsole).
  rewrite Forall_forall in Hlines.
  pose proof (wf_rows _ _ Hwf) as Hrows.
  exists gridCopy, w'. split; [done|]. split.
  { intros l cell Hl. rewrite Hnews. by apply lookup_app_l_Some. }
  split; [done|]. split; [done|]. split; [done|]. split; [|split].
  - split; simpl.
    + lia.
    + intros line Hline. rewrite (Hlines line Hline).
      destruct (decide (0 ≤ gridCols this)); [lia|].
      apply list_elem_of_lookup in Hline as [r Hr].
      apply lookup_lt_Some in Hr as Hr'.
      destruct (lookup_lt_is_Some_2 (grid this) r) as [line0 Hline0]; [lia|].
      pose proof (wf_cols _ _ Hwf line0 (list_elem_of_lookup_2 _ _ _ Hline0)). lia.
    + intros r c l (Hr & Hc & line & Hline & Hl)%gridAt_Some.
      destruct (Hplaced _ _ Hline _ _ Hl) as (_ & cell & ? & Hrow & Hcol & _).
      exists cell. split; [done|]. change (row cell = r ∧ col cell = c).
      rewrite Hrow, Hcol. split; lia.
  - intros l (r & c & (Hr & Hc & line & Hline & Hl)%gridAt_Some).
    by destruct (Hplaced _ _ Hline _ _ Hl) as (? & _).
  - intros r c l l' Hat (Hr & Hc & line & Hline & Hl)%gridAt_Some.
    destruct (Hplaced _ _ Hline _ _ Hl)
      as (_ & cell & Hcell & _ & _ & l0 & orig & Hat0 & Horig & Hcopy).
    rewrite !Z2Nat.id in Hat0 by done. rewrite Hat in Hat0. injection Hat0 as <-.
    unfold deref. rewrite (list_lookup_total_correct _ _ _ Hcell),
      (list_lookup_total_correct _ _ _ Horig). done.
Qed.

(** X9. On a well-formed board [createGridCopy()] returns a deep copy:
    a well-formed grid of the same size whose cells are new objects, none
    of them an object that existed before, and the copy at each position
    has the [pattern], [visible], [matched], [x] and [y] of the original
    at that position. Every object that existed before is as it was;
    nothing is logged and no random number is drawn. *)
Theorem createGridCopy_copies this w :
  wf this (heap w) →
  ∃ gridCopy w',
    createGridCopy this w = Returns gridCopy w' ∧
    unchanged (heap w) (heap w') ∧
    random w' = random w ∧ randomCalls w' = randomCalls w ∧ console w' = console w ∧
    wf (onGrid this gridCopy) (heap w') ∧
    (∀ l, inGridOf gridCopy l → (length (heap w) ≤ l)%nat) ∧
    (∀ r c l l',
       gridAt (grid this) r c = Some l → gridAt gridCopy r c = Some l' →
       pattern (deref (heap w') l') = pattern (deref (heap w) l) ∧
       visible (deref (heap w') l') = visible (deref (heap w) l) ∧
       matched (deref (heap w') l') = matched (deref (heap w) l) ∧
       cell_x (deref (heap w') l') = cell_x (deref (heap w) l) ∧
       cell_y (deref (heap w') l') = cell_y (deref (heap w) l)).
Proof. apply createGridCopy_run. Qed.

(** ** The elimination simulated *)

Lemma filter_all {A} (P : A → Prop) `{∀ a, Decision (P a)} (l : list A) :
  (∀ a, a ∈ l → P a) → filter P l = l.
Proof.
  induction l as [|a l IH]; intros HP; [done|].
  rewrite filter_cons_True by (apply HP; by left).
  rewrite IH; [done|]. intros. apply HP. by right.
Qed.

Lemma length_filter_remove {A} `{EqDecision A} (a : A) (l : list A) :
  NoDup l → a ∈ l → (length (filter (λ x, x ≠ a) l) + 1 = length l)%nat.
Proof.
  induction 1 as [|x l Hnotin Hnodup IH]; [by intros ?%elem_of_nil|].
  intros [->|Hin]%elem_of_cons.
  - rewrite filter_cons_False by (intros Hne; by apply Hne).
    rewrite filter_all by (intros y Hy ->; done). simpl. lia.
  - rewrite filter_cons_True by (intros ->; done). simpl. rewrite IH by done. done.
Qed.

Section Eliminate.
Context (this : LinkGameAlgorithm.t) (h : Heap) (Hwf : wf this h).
Context (a b : loc) (Hne : a ≠ b) (Hmove : move this h a b).

Lemma eliminate_deref l :
  deref (eliminate a b h) l =
    if decide (l = a ∨ l = b) then set_matched true (deref h l) else deref h l.
Proof.
  destruct Hmove as (Ha & Hb & _).
  destruct (inGrid_deref this h Hwf a Ha) as [Hca _].
  destruct (inGrid_deref this h Hwf b Hb) as [Hcb _].
  apply lookup_lt_Some in Hca, Hcb.
  unfold eliminate, deref. cbv zeta.
  destruct (decide (l = b)) as [->|Hlb].
  - rewrite list_lookup_total_insert_eq by (by rewrite length_insert).
    rewrite list_lookup_total_insert_ne by done. rewrite decide_True by auto. done.
  - rewrite list_lookup_total_insert_ne by done.
    destruct (decide (l = a)) as [->|Hla].
    + rewrite list_lookup_total_insert_eq by done. rewrite decide_True by auto. done.
    + rewrite list_lookup_total_insert_ne by done. rewrite decide_False by tauto. done.
Qed.

Lemma eliminate_wf : wf this (eliminate a b h).
Proof.
  eapply wf_sameShape; [done|]. intros l cell Hcell.
  assert (Hl : (l < length (eliminate a b h))%nat).
  { unfold eliminate. cbv zeta. rewrite !length_insert. by eapply lookup_lt_Some. }
  destruct (lookup_lt_is_Some_2 _ _ Hl) as [cell' Hcell']. exists cell'.
  split; [done|].
  pose proof (eliminate_deref l) as Hd. unfold deref in Hd.
  rewrite (list_lookup_total_correct _ _ _ Hcell'),
    (list_lookup_total_correct _ _ _ Hcell) in Hd.
  rewrite Hd. by case_decide.
Qed.

Lemma eliminate_visible :
  LinkGameAlgorithm.getVisibleCells this (eliminate a b h) =
  filter (λ l, l ≠ b) (filter (λ l, l ≠ a) (LinkGameAlgorithm.getVisibleCells this h)).
Proof.
  rewrite (getVisibleCells_cells _ _ Hwf), (getVisibleCells_cells _ _ eliminate_wf).
  rewrite !list_filter_filter. apply filter_ext_in. intros l _.
  rewrite eliminate_deref.
  destruct Hmove as (_ & _ & [Hva Hma] & [Hvb Hmb] & _).
  destruct (decide (l = a ∨ l = b)) as [[->| ->]|Hnot]; simpl.
  - rewrite andb_false_r. split; [done|]. intros [[_ Hla] _]. done.
  - rewrite andb_false_r. split; [done|]. intros [[Hlb _] _]. done.
  - tauto.
Qed.

Lemma eliminate_count :
  (length (LinkGameAlgorithm.getVisibleCells this (eliminate a b h)) + 2 =
   length (LinkGameAlgorithm.getVisibleCells this h))%nat.
Proof.
  rewrite eliminate_visible.
  destruct Hmove as (Ha & Hb & [Hva Hma] & [Hvb Hmb] & _).
  assert (Hin : ∀ l, inGrid this l → visible (deref h l) = true →
            matched (deref h l) = false →
            l ∈ LinkGameAlgorithm.getVisibleCells this h).
  { intros l Hl Hv Hm. rewrite (getVisibleCells_cells _ _ Hwf).
    apply list_elem_of_filter. split; [by rewrite Hv, Hm|by apply cells_inGrid]. }
  assert (Hnodup : NoDup (LinkGameAlgorithm.getVisibleCells this h)).
  { rewrite (getVisibleCells_cells _ _ Hwf). apply NoDup_filter, (cells_NoDup _ _ Hwf). }
  pose proof (length_filter_remove a _ Hnodup (Hin a Ha Hva Hma)) as H1.
  pose proof (length_filter_remove b (filter (λ l, l ≠ a) _)
                (NoDup_filter _ _ Hnodup)) as H2.
  rewrite list_elem_of_filter in H2. specialize (H2 (conj (not_eq_sym Hne) (Hin b Hb Hvb Hmb))).
  lia.
Qed.

End Eliminate.

Lemma eliminate_writes {B} a b ca cb w (k : M B) :
  a ≠ b → heap w !! a = Some ca → heap w !! b = Some cb →
  (writeCell a (set_matched true);; writeCell b (set_matched true);; k) w =
  k (withHeap (eliminate a b (heap w)) w).
Proof.
  intros Hne Ha Hb.
  rewrite (writeCell_bind a _ ca) by done.
  rewrite (writeCell_bind b _ cb) by (simpl; by rewrite list_lookup_insert_ne).
  simpl. unfold eliminate, deref. cbv zeta.
  rewrite list_lookup_total_insert_ne by done.
  by rewrite (list_lookup_total_correct _ _ _ Ha), (list_lookup_total_correct _ _ _ Hb).
Qed.

(** What a run of the simulation guarantees, from a state in which
    [eliminatedCount] cells have been eliminated. *)
Lemma returns_simulateLoop_sound this grid iterations eliminatedCount w :
  let sim := onGrid this grid in
  let totalCells := gridRows this * gridCols this in
  wf sim (heap w) → eliminatedCount < totalCells →
  eliminatedCount +
    Z.of_nat (length (LinkGameAlgorithm.getVisibleCells sim (heap w))) ≤ totalCells →
  totalCells - eliminatedCount < 2 * Z.of_nat iterations →
  returns (simulateLoop this grid totalCells iterations eliminatedCount) w
    (λ verdict w',
       (console w' = console w ∧ random w' = random w ∧
        randomCalls w' = randomCalls w) ∧
       wf sim (heap w') ∧
       (verdict = true ↔ LinkGameAlgorithm.getVisibleCells sim (heap w') = []) ∧
       (verdict = true → clearable sim (heap w)) ∧
       (verdict = false → findAllConnectablePairs sim (heap w') = []) ∧
       (∀ l, deref (heap w') l = deref (heap w) l ∨
             deref (heap w') l = set_matched true (deref (heap w) l))).
Proof.
  intros sim totalCells. revert eliminatedCount w.
  induction iterations as [|iterations IH]; intros e w Hwf He Hcount Hfuel; [lia|].
  cbn [simulateLoop]. apply returns_bind, returns_getHeap. cbv zeta.
  rewrite findAllConnectablePairsInGrid_eq. fold sim.
  destruct (findAllConnectablePairs sim (heap w)) as [|[a b] pairs] eqn:Hpairs.
  - apply returns_ret. split; [done|]. split; [done|].
    change (getVisibleCellsFromGrid this (heap w) grid)
      with (LinkGameAlgorithm.getVisibleCells sim (heap w)).
    split; [|split; [|split; [done|by left]]].
    + rewrite bool_decide_eq_true. apply length_zero_iff_nil.
    + rewrite bool_decide_eq_true. intros ?%length_zero_iff_nil. by constructor.
  - assert (Hin : (a, b) ∈ findAllConnectablePairs sim (heap w))
      by (rewrite Hpairs; by left).
    apply findAllConnectablePairs_sound in Hin as [Hne Hmove].
    pose proof Hmove as (Ha & Hb & _).
    destruct (inGrid_deref sim (heap w) Hwf a Ha) as [Hca _].
    destruct (inGrid_deref sim (heap w) Hwf b Hb) as [Hcb _].
    unfold returns. rewrite (eliminate_writes a b _ _ w _ Hne Hca Hcb).
    set (w1 := withHeap (eliminate a b (heap w)) w).
    pose proof (eliminate_wf sim (heap w) Hwf a b Hne Hmove) as Hwf1.
    pose proof (eliminate_count sim (heap w) Hwf a b Hne Hmove) as Hcount1.
    pose proof (eliminate_deref sim (heap w) Hwf a b Hne Hmove) as Hderef1.
    destruct (Z.geb_spec (e + 2) totalCells) as [Hall|Hmore].
    + cbn [mret M_ret]. split; [done|]. split; [done|].
      assert (Hnil : LinkGameAlgorithm.getVisibleCells sim (heap w1) = []).
      { apply length_zero_iff_nil. simpl. lia. }
      split; [done|]. split; [|split; [done|]].
      * intros _. eapply clearable_move; [done|]. by constructor.
      * intros l. simpl. rewrite Hderef1. case_decide; auto.
    + specialize (IH (e + 2) w1 Hwf1 ltac:(lia) ltac:(simpl; lia) ltac:(lia)).
      unfold returns in IH.
      destruct (simulateLoop this grid totalCells iterations (e + 2) w1)
        as [verdict w'| |]; [|done..].
      destruct IH as (Hsame & Hwf' & Hiff & Hclear & Hstuck & Hmatched).
      split; [done|]. split; [done|]. split; [done|]. split; [|split; [done|]].
      * intros Htrue. eapply clearable_move; [done|]. by apply Hclear.
      * intros l. destruct (Hmatched l) as [-> | ->]; simpl; rewrite Hderef1;
          case_decide; auto.
Qed.

Lemma simulateElimination_run this grid w :
  let sim := onGrid this grid in
  wf sim (heap w) →
  ∃ verdict w',
    simulateElimination this grid w = Returns verdict w' ∧
    random w' = random w ∧ randomCalls w' = randomCalls w ∧
    wf sim (heap w') ∧
    (∀ l, deref (heap w') l = deref (heap w) l ∨
          deref (heap w') l = set_matched true (deref (heap w) l)) ∧
    (0 < gridRows this * gridCols this →
       console w' = console w ∧
       (verdict = true ↔ LinkGameAlgorithm.getVisibleCells sim (heap w') = []) ∧
       (verdict = true → clearable sim (heap w)) ∧
       (verdict = false → findAllConnectablePairs sim (heap w') = [])) ∧
    (gridRows this * gridCols this ≤ 0 →
       verdict = false ∧ heap w' = heap w ∧
       console w' = console w ++ [WarnMaxIterations]).
Proof.
  intros sim Hwf. unfold simulateElimination. cbv zeta.
  destruct (decide (0 < gridRows this * gridCols this)) as [Hpos|Hzero].
  - pose proof (cells_length sim (heap w) Hwf) as Htotal. simpl in Htotal.
    assert (Hvis : Z.of_nat (length (LinkGameAlgorithm.getVisibleCells sim (heap w)))
                   ≤ gridRows this * gridCols this).
    { rewrite (getVisibleCells_cells _ _ Hwf), <- Htotal.
      apply Nat2Z.inj_le, length_filter. }
    pose proof (returns_simulateLoop_sound this grid
                  (Z.to_nat (gridRows this * gridCols this * 2)) 0 w
                  Hwf Hpos ltac:(fold sim; lia) ltac:(lia)) as Hret.
    apply returns_eq in Hret
      as (verdict & w' & Hrun & (? & ? & ?) & ? & ? & ? & ? & ?).
    exists verdict, w'. split; [done|]. split; [done|]. split; [done|].
    split; [done|]. split; [done|]. split; [done|]. lia.
  - replace (Z.to_nat (gridRows this * gridCols this * 2)) with 0%nat by lia.
    eexists false, _. split; [reflexivity|]. simpl.
    split; [done|]. split; [done|]. split; [done|]. split; [by left|].
    split; [lia|done].
Qed.

(** X10. [simulateElimination(grid)] on a well-formed grid with at least
    one cell returns without reaching its iteration ceiling: nothing is
    logged. It returns [true] exactly when no visible, unmatched cell is
    left on the grid, and then the moves it has made clear the board it was
    given; when it returns [false], no move is left although cells remain.
    It changes cells by setting [matched] and in no other way. On a grid
    without cells the loop is not entered: the result is [false], with the
    warning of the ceiling. *)
Theorem simulateElimination_sound this grid w :
  let sim := onGrid this grid in
  wf sim (heap w) →
  ∃ verdict w',
    simulateElimination this grid w = Returns verdict w' ∧
    random w' = random w ∧ randomCalls w' = randomCalls w ∧
    wf sim (heap w') ∧
    (∀ l, deref (heap w') l = deref (heap w) l ∨
          deref (heap w') l = set_matched true (deref (heap w) l)) ∧
    (0 < gridRows this * gridCols this →
       console w' = console w ∧
       (verdict = true ↔ LinkGameAlgorithm.getVisibleCells sim (heap w') = []) ∧
       (verdict = true → clearable sim (heap w)) ∧
       (verdict = false → findAllConnectablePairs sim (heap w') = [])) ∧
    (gridRows this * gridCols this ≤ 0 →
       verdict = false ∧ heap w' = heap w ∧
       console w' = console w ++ [WarnMaxIterations]).
Proof. apply simulateElimination_run. Qed.


(** ** Boards that show the same *)

Section Alike.
Context (this : LinkGameAlgorithm.t) (h : Heap) (Hwf : wf this h).
Context (this' : LinkGameAlgorithm.t) (h' : Heap) (Hwf' : wf this' h').
Context (Halike : alike this h this' h').

(** The cell of the first board at the position of a cell of the second. *)
Lemma alike_cell l' :
  inGrid this' l' →
  ∃ l, inGrid this l ∧
       gridAt (grid this) (row (deref h' l')) (col (deref h' l')) = Some l ∧
       row (deref h l) = row (deref h' l') ∧ col (deref h l) = col (deref h' l') ∧
       pattern (deref h' l') = pattern (deref h l) ∧
       visible (deref h' l') = visible (deref h l) ∧
       matched (deref h' l') = matched (deref h l).
Proof.
  intros Hl'. destruct Halike as (Hrows & Hcols & Hsame).
  destruct (inGrid_deref this' h' Hwf' l' Hl') as [_ Hat'].
  pose proof (inGrid_inBounds this' h' Hwf' l' Hl') as Hin. unfold inBounds in Hin.
  rewrite Hrows, Hcols in Hin.
  destruct (gridAt_defined this h Hwf _ _ Hin) as (l & cell & Hat & Hcell & Hr & Hc).
  exists l. split; [by eexists _, _|]. split; [done|].
  unfold deref at 1 3. rewrite (list_lookup_total_correct _ _ _ Hcell).
  split; [done|]. split; [done|]. by apply (Hsame _ _ _ _ Hat Hat').
Qed.

Lemma alike_empty r c :
  isCellEmpty this' h' r c = true → isCellEmpty this h r c = true.
Proof.
  destruct Halike as (Hrows & Hcols & Hsame).
  rewrite (isCellEmpty_true this' h' Hwf'), (isCellEmpty_true this h Hwf).
  intros (l' & cell' & Hat' & Hcell' & Hempty).
  pose proof (gridAt_inBounds this' h' Hwf' _ _ _ Hat') as Hin. unfold inBounds in Hin.
  rewrite Hrows, Hcols in Hin.
  destruct (gridAt_defined this h Hwf _ _ Hin) as (l & cell & Hat & Hcell & _).
  exists l, cell. split; [done|]. split; [done|].
  destruct (Hsame _ _ _ _ Hat Hat') as (_ & Hv & Hm). unfold deref in Hv, Hm.
  rewrite (list_lookup_total_correct _ _ _ Hcell),
    (list_lookup_total_correct _ _ _ Hcell') in Hv, Hm.
  destruct Hempty; [left|right]; congruence.
Qed.

Lemma alike_visible :
  LinkGameAlgorithm.getVisibleCells this' h' = [] →
  LinkGameAlgorithm.getVisibleCells this h = [].
Proof.
  destruct Halike as (Hrows & Hcols & Hsame). intros Hnil.
  destruct (LinkGameAlgorithm.getVisibleCells this h) as [|l vis] eqn:Hvis; [done|].
  exfalso.
  assert (Hl : l ∈ LinkGameAlgorithm.getVisibleCells this h) by (rewrite Hvis; by left).
  apply getVisibleCells_tile in Hl as [Hl [Hv Hm]].
  destruct (inGrid_deref this h Hwf l Hl) as [_ Hat].
  pose proof (inGrid_inBounds this h Hwf l Hl) as Hin. unfold inBounds in Hin.
  rewrite <- Hrows, <- Hcols in Hin.
  destruct (gridAt_defined this' h' Hwf' _ _ Hin) as (l' & cell' & Hat' & Hcell' & _).
  destruct (Hsame _ _ _ _ Hat Hat') as (_ & Hv' & Hm').
  assert (Hl' : l' ∈ LinkGameAlgorithm.getVisibleCells this' h').
  { rewrite (getVisibleCells_cells _ _ Hwf'). apply list_elem_of_filter.
    split; [by rewrite Hv', Hm', Hv, Hm|]. apply cells_inGrid.
    by eexists _, _. }
  rewrite Hnil in Hl'. by apply elem_of_nil in Hl'.
Qed.

End Alike.

Lemma alike_sym this h this' h' :
  wf this h → wf this' h' → alike this h this' h' → alike this' h' this h.
Proof.
  intros Hwf Hwf' (Hrows & Hcols & Hsame). split; [done|]. split; [done|].
  intros r c l' l Hat' Hat. destruct (Hsame _ _ _ _ Hat Hat') as (? & ? & ?). done.
Qed.

(** A board can be cleared when a board that shows the same can. *)
Lemma clearable_alike this' h' :
  clearable this' h' →
  ∀ this h, wf this h → wf this' h' → alike this h this' h' → clearable this h.
Proof.
  induction 1 as [h' Hnil|h' a' b' Hmove' _ IH]; intros this h Hwf Hwf' Halike.
  - constructor. by eapply alike_visible.
  - destruct Hmove' as (Ha' & Hb' & [Hva' Hma'] & [Hvb' Hmb'] & Hcan').
    destruct (alike_cell this h Hwf this' h' Hwf' Halike a' Ha')
      as (a & Ha & Hata & Hra & Hca & Hpa & Hva & Hma).
    destruct (alike_cell this h Hwf this' h' Hwf' Halike b' Hb')
      as (b & Hb & Hatb & Hrb & Hcb & Hpb & Hvb & Hmb).
    pose proof Halike as (Hrows & Hcols & Hsame).
    assert (Hne' : a' ≠ b').
    { rewrite canConnect_unfold, !andb_true_iff in Hcan'.
      by destruct Hcan' as [[[_ Hne%negb_true_iff%bool_decide_eq_false] _] _]. }
    assert (Hne : a ≠ b).
    { intros <-. apply Hne'. apply (inGrid_position_inj this' h' Hwf'); congruence. }
    assert (Hmove : move this h a b).
    { split; [done|]. split; [done|].
      split; [split; congruence|]. split; [split; congruence|].
      apply (canConnect_mono this' h' this h a' b' a b); try done.
      by apply alike_empty. }
    assert (Hmove' : move this' h' a' b') by (by repeat split).
    apply (clearable_move this h a b Hmove).
    apply IH.
    + by apply eliminate_wf.
    + by apply eliminate_wf.
    + split; [done|]. split; [done|]. intros r c l l' Hat Hat'.
      rewrite (eliminate_deref this h Hwf a b Hne Hmove),
        (eliminate_deref this' h' Hwf' a' b' Hne' Hmove').
      destruct (Hsame _ _ _ _ Hat Hat') as (Hp & Hv & Hm).
      assert (Hiff : l = a ∨ l = b ↔ l' = a' ∨ l' = b').
      { assert (Hpos : ∀ x x' rx cx, gridAt (grid this) rx cx = Some x →
                  gridAt (grid this') rx cx = Some x' → (l = x ↔ l' = x')).
        { intros x x' rx cx Hx Hx'.
          destruct (wf_cells _ _ Hwf _ _ _ Hat) as (cl & Hcl & Hrl & Hcl').
          destruct (wf_cells _ _ Hwf _ _ _ Hx) as (cx0 & Hcx & Hrx & Hcx').
          split; intros ->.
          - assert (r = rx ∧ c = cx) as [-> ->] by (split; congruence). congruence.
          - destruct (wf_cells _ _ Hwf' _ _ _ Hat') as (cl2 & Hcl2 & Hrl2 & Hcl2').
            destruct (wf_cells _ _ Hwf' _ _ _ Hx') as (cx2 & Hcx2 & Hrx2 & Hcx2').
            assert (r = rx ∧ c = cx) as [-> ->] by (split; congruence). congruence. }
        destruct (inGrid_deref this' h' Hwf' a' Ha') as [_ Hata'].
        destruct (inGrid_deref this' h' Hwf' b' Hb') as [_ Hatb'].
        rewrite (Hpos a a' _ _ Hata Hata'), (Hpos b b' _ _ Hatb Hatb'). done. }
      destruct (decide (l = a ∨ l = b)) as [Hl|Hl];
        [rewrite decide_True by tauto|rewrite decide_False by tauto]; simpl; done.
Qed.

(** ** The solvability check *)

(** X11. On a well-formed board with at least one cell [isBoardSolvable()]
    returns. If it returns [true], every pattern id is held by an even
    number of visible cells, the live board can be cleared by a sequence of
    moves of the game, and nothing has been logged. If some pattern id is
    held by an odd number of visible cells it returns [false] without
    running the simulation. On a board without visible cells it returns
    [true]. *)
Theorem isBoardSolvable_sound this w :
  wf this (heap w) → 0 < gridRows this * gridCols this →
  ∃ verdict w',
    isBoardSolvable this w = Returns verdict w' ∧
    (verdict = true →
       (∀ k, Nat.Even (tilesOf this (heap w) k)) ∧ clearable this (heap w) ∧
       console w' = console w) ∧
    ((∃ k, Nat.Odd (tilesOf this (heap w) k)) → verdict = false ∧ heap w' = heap w) ∧
    (LinkGameAlgorithm.getVisibleCells this (heap w) = [] → verdict = true).
Proof.
  intros Hwf Hpos. unfold isBoardSolvable.
  destruct (validateGameState_run this w)
    as (valid & w1 & Hrun1 & Hheap1 & Hcalls1 & Heven & Hquiet & Hodd).
  unfold mbind at 1, M_bind at 1. rewrite Hrun1.
  destruct valid; simpl.
  - assert (Hwf1 : wf this (heap w1)) by (by rewrite Hheap1).
    destruct (createGridCopy_run this w1 Hwf1)
      as (gridCopy & w2 & Hrun2 & Hkeep & _ & _ & Hconsole2 & Hwf2 & _ & Hcopy).
    unfold mbind, M_bind. rewrite Hrun2.
    destruct (simulateElimination_run this gridCopy w2 Hwf2)
      as (verdict & w3 & Hrun3 & _ & _ & Hwf3 & Hmatched & Hsim & _).
    destruct (Hsim Hpos) as (Hconsole3 & Hiff & Hclear & _).
    assert (Halike : alike this (heap w) (onGrid this gridCopy) (heap w2)).
    { split; [done|]. split; [done|]. rewrite <- Hheap1.
      intros r c l l' Hat Hat'. destruct (Hcopy r c l l' Hat Hat') as (? & ? & ? & _).
      done. }
    exists verdict, w3. split; [done|]. split; [|split].
    + intros Htrue. split; [by apply Heven|]. split.
      * by apply (clearable_alike _ _ (Hclear Htrue)).
      * rewrite Hconsole3, Hconsole2. by apply Hquiet.
    + intros [k Hk]. exfalso. apply (Nat.Even_Odd_False (tilesOf this (heap w) k)); [|done].
      by apply Heven.
    + intros Hnil. apply Hiff.
      assert (Hnil2 : LinkGameAlgorithm.getVisibleCells (onGrid this gridCopy) (heap w2) = []).
      { apply (alike_visible _ _ Hwf2 this (heap w) Hwf); [|done].
        by apply alike_sym. }
      destruct (LinkGameAlgorithm.getVisibleCells _ (heap w3)) as [|l vis] eqn:Hvis;
        [done|]. exfalso.
      assert (Hl : l ∈ LinkGameAlgorithm.getVisibleCells (onGrid this gridCopy) (heap w3))
        by (rewrite Hvis; by left).
      apply getVisibleCells_tile in Hl as [Hl [Hv Hm]].
      assert (Hl2 : l ∈ LinkGameAlgorithm.getVisibleCells (onGrid this gridCopy) (heap w2)).
      { rewrite (getVisibleCells_cells _ _ Hwf2). apply list_elem_of_filter.
        split; [|by apply cells_inGrid].
        destruct (Hmatched l) as [Heq|Heq]; rewrite Heq in Hv, Hm; [|done].
        by rewrite Hv, Hm. }
      rewrite Hnil2 in Hl2. by apply elem_of_nil in Hl2.
  - exists false, w1. split; [done|]. split; [done|]. split; [done|].
    intros Hnil. exfalso. destruct (Hodd eq_refl) as (k & [m Hk] & _).
    unfold tilesOf in Hk. rewrite Hnil in Hk. unfold holding in Hk. simpl in Hk. lia.
Qed.

Import Routes.

(** ** Routes *)

Section Legs.
Context (this : LinkGameAlgorithm.t) (h : Heap) (Hwf : wf this h).

Lemma horizontal_clearLeg {A B : Type} `{Positioned A, Positioned B}
    (cell1 : A) (cell2 : B) :
  row cell1 = row cell2 → checkHorizontalLine this h cell1 cell2 = true →
  clearLeg this h (pointOf cell1) (pointOf cell2).
Proof.
  intros Hr Hline. left. split; [done|]. simpl. intros c Hc.
  apply (isCellEmpty_true this h Hwf).
  by apply (proj1 (checkHorizontalLine_true this h cell1 cell2) Hline).
Qed.

Lemma vertical_clearLeg {A B : Type} `{Positioned A, Positioned B}
    (cell1 : A) (cell2 : B) :
  col cell1 = col cell2 → checkVerticalLine this h cell1 cell2 = true →
  clearLeg this h (pointOf cell1) (pointOf cell2).
Proof.
  intros Hc Hline. right. split; [done|]. simpl. intros r Hr.
  apply (isCellEmpty_true this h Hwf).
  by apply (proj1 (checkVerticalLine_true this h cell1 cell2) Hline).
Qed.

Lemma straight_clearLeg {A B : Type} `{Positioned A, Positioned B}
    (cell1 : A) (cell2 : B) :
  checkStraightLine this h cell1 cell2 = true →
  clearLeg this h (pointOf cell1) (pointOf cell2).
Proof.
  unfold checkStraightLine.
  destruct (Z.eqb_spec (row cell1) (row cell2)) as [Hr|Hr];
    [by apply horizontal_clearLeg|].
  destruct (Z.eqb_spec (col cell1) (col cell2)) as [Hc|Hc]; [|done].
  by apply vertical_clearLeg.
Qed.

Lemma clearLeg_horizontal {A B : Type} `{Positioned A, Positioned B}
    (cell1 : A) (cell2 : B) :
  clearLeg this h (pointOf cell1) (pointOf cell2) → row cell1 = row cell2 →
  checkHorizontalLine this h cell1 cell2 = true.
Proof.
  intros Hleg Hr. apply checkHorizontalLine_true. intros c Hc.
  apply (isCellEmpty_true this h Hwf).
  destruct Hleg as [[_ Hclear]|[Hx _]]; simpl in *; [by apply Hclear|lia].
Qed.

Lemma clearLeg_vertical {A B : Type} `{Positioned A, Positioned B}
    (cell1 : A) (cell2 : B) :
  clearLeg this h (pointOf cell1) (pointOf cell2) → col cell1 = col cell2 →
  checkVerticalLine this h cell1 cell2 = true.
Proof.
  intros Hleg Hc. apply checkVerticalLine_true. intros r Hr.
  apply (isCellEmpty_true this h Hwf).
  destruct Hleg as [[Hy _]|[_ Hclear]]; simpl in *; [lia|by apply Hclear].
Qed.

Lemma clearLeg_straight {A B : Type} `{Positioned A, Positioned B}
    (cell1 : A) (cell2 : B) :
  clearLeg this h (pointOf cell1) (pointOf cell2) →
  checkStraightLine this h cell1 cell2 = true.
Proof.
  intros Hleg. unfold checkStraightLine.
  destruct (Z.eqb_spec (row cell1) (row cell2)) as [Hr|Hr];
    [by apply clearLeg_horizontal|].
  destruct Hleg as [[Hy _]|[Hx Hclear]]; simpl in *; [done|].
  rewrite (proj2 (Z.eqb_eq _ _) Hx). apply clearLeg_vertical; [|done].
  right. by split.
Qed.

(** Two legs in one line, joined at an empty cell, make one clear leg. *)
Lemma clearLeg_join p t q :
  clearLeg this h p t → emptyAt this h (y t) (x t) → clearLeg this h t q →
  (y p = y t ∧ y t = y q) ∨ (x p = x t ∧ x t = x q) →
  clearLeg this h p q.
Proof.
  intros Hpt Ht Htq [[Hy1 Hy2]|[Hx1 Hx2]].
  - left. split; [congruence|]. intros c Hc.
    destruct (decide (c = x t)) as [->|Hne]; [by rewrite Hy1|].
    destruct (decide (Z.min (x p) (x t) < c < Z.max (x p) (x t))) as [Hin|Hout].
    + destruct Hpt as [[_ Hclear]|[Hx _]]; [by apply Hclear|lia].
    + rewrite Hy1. destruct Htq as [[_ Hclear]|[Hx _]]; [apply Hclear|]; lia.
  - right. split; [congruence|]. intros r Hr.
    destruct (decide (r = y t)) as [->|Hne]; [by rewrite Hx1|].
    destruct (decide (Z.min (y p) (y t) < r < Z.max (y p) (y t))) as [Hin|Hout].
    + destruct Hpt as [[Hy _]|[_ Hclear]]; [lia|by apply Hclear].
    + rewrite Hx1. destruct Htq as [[Hy _]|[_ Hclear]]; [|apply Hclear]; lia.
Qed.

Lemma emptyAt_corner r c :
  emptyAt this h r c → isValidCorner this h (mkCorner r c) = true.
Proof. intros He. by apply (isCellEmpty_true this h Hwf). Qed.

End Legs.

Section Turns.
Context (this : LinkGameAlgorithm.t) (h : Heap) (Hwf : wf this h).
Context {A B : Type} `{Positioned A, Positioned B} (cell1 : A) (cell2 : B).

(** What the three checks find between them. *)
Let found : Prop :=
  checkStraightLine this h cell1 cell2 = true ∨
  is_Some (checkOneCorner this h cell1 cell2) ∨
  is_Some (checkTwoCorners this h cell1 cell2).

Lemma one_turn_found t :
  clearLeg this h (pointOf cell1) t → emptyAt this h (y t) (x t) →
  clearLeg this h t (pointOf cell2) →
  found.
Proof.
  destruct t as [tx ty]. intros H1 Ht H2. simpl in Ht.
  change (mkPoint tx ty) with (pointOf (mkCorner ty tx)) in H1, H2.
  assert (Hjoin : (row cell1 = ty ∧ ty = row cell2) ∨ (col cell1 = tx ∧ tx = col cell2) →
            found).
  { intros Hline. left. apply (clearLeg_straight this h Hwf).
    by apply (clearLeg_join this h _ (pointOf (mkCorner ty tx))). }
  pose proof (emptyAt_corner this h Hwf _ _ Ht) as Hvalid.
  pose proof (clearLeg_straight this h Hwf _ _ H1) as Hs1.
  pose proof (clearLeg_straight this h Hwf _ _ H2) as Hs2.
  destruct H1 as [[Hy1 _]|[Hx1 _]], H2 as [[Hy2 _]|[Hx2 _]]; simpl in *.
  - apply Hjoin. left. done.
  - right; left. apply checkOneCorner_is_Some. left. subst ty tx. by repeat split.
  - right; left. apply checkOneCorner_is_Some. right. subst ty tx. by repeat split.
  - apply Hjoin. right. done.
Qed.

Lemma two_turns_found t1 t2 :
  clearLeg this h (pointOf cell1) t1 → emptyAt this h (y t1) (x t1) →
  clearLeg this h t1 t2 → emptyAt this h (y t2) (x t2) →
  clearLeg this h t2 (pointOf cell2) →
  found.
Proof.
  intros H1 Ht1 H2 Ht2 H3.
  assert (Hfirst : (y (pointOf cell1) = y t1 ∧ y t1 = y t2) ∨
                   (x (pointOf cell1) = x t1 ∧ x t1 = x t2) → found).
  { intros Hline. apply (one_turn_found t2); [|done..].
    by apply (clearLeg_join this h _ t1). }
  assert (Hlast : (y t1 = y t2 ∧ y t2 = y (pointOf cell2)) ∨
                  (x t1 = x t2 ∧ x t2 = x (pointOf cell2)) → found).
  { intros Hline. apply (one_turn_found t1); [done..|].
    by apply (clearLeg_join this h _ t2). }
  destruct t1 as [x1 y1], t2 as [x2 y2]. simpl in *.
  pose proof (emptyAt_corner this h Hwf _ _ Ht1) as Hvalid1.
  pose proof (emptyAt_corner this h Hwf _ _ Ht2) as Hvalid2.
  pose proof (isCellEmpty_inBounds _ _ _ _ Hvalid1) as [Hr1 Hc1].
  pose proof (isCellEmpty_inBounds _ _ _ _ Hvalid2) as [Hr2 Hc2].
  change (mkPoint x1 y1) with (pointOf (mkCorner y1 x1)) in H1, H2.
  change (mkPoint x2 y2) with (pointOf (mkCorner y2 x2)) in H2, H3.
  pose proof (clearLeg_straight this h Hwf _ _ H1) as Hs1.
  pose proof (clearLeg_straight this h Hwf _ _ H3) as Hs3.
  destruct (decide ((row cell1 = y1 ∧ y1 = y2) ∨ (col cell1 = x1 ∧ x1 = x2)))
    as [Hline|Hnot1]; [by apply Hfirst|].
  destruct (decide ((y1 = y2 ∧ y2 = row cell2) ∨ (x1 = x2 ∧ x2 = col cell2)))
    as [Hline|Hnot2]; [by apply Hlast|].
  pose proof H1 as Hleg1. pose proof H2 as Hleg2. pose proof H3 as Hleg3.
  destruct H1 as [[Hy1 _]|[Hx1 _]], H2 as [[Hy2 _]|[Hx2 _]],
    H3 as [[Hy3 _]|[Hx3 _]]; simpl in *; try (exfalso; tauto).
  - (* along the row of cell1, down a column, along the row of cell2 *)
    subst y1 y2 x2.
    destruct (decide (x1 = col cell1)) as [->|Hne1].
    { apply (one_turn_found (pointOf (mkCorner (row cell2) (col cell1)))); try done;
        apply Hleg2. }
    destruct (decide (x1 = col cell2)) as [->|Hne2].
    { apply (one_turn_found (pointOf (mkCorner (row cell1) (col cell2)))); try done;
        apply Hleg2. }
    right; right. apply checkTwoCorners_is_Some. right. exists x1. split; [done|].
    repeat split; try done.
    apply (clearLeg_vertical this h Hwf (mkCorner (row cell1) x1)
             (mkCorner (row cell2) x1)); done.
  - (* along the column of cell1, along a row, along the column of cell2 *)
    subst x1 x2 y2.
    destruct (decide (y1 = row cell1)) as [->|Hne1].
    { apply (one_turn_found (pointOf (mkCorner (row cell1) (col cell2)))); try done;
        apply Hleg2. }
    destruct (decide (y1 = row cell2)) as [->|Hne2].
    { apply (one_turn_found (pointOf (mkCorner (row cell2) (col cell1)))); try done;
        apply Hleg2. }
    right; right. apply checkTwoCorners_is_Some. left. exists y1. split; [done|].
    repeat split; try done.
    apply (clearLeg_horizontal this h Hwf (mkCorner y1 (col cell1))
             (mkCorner y1 (col cell2))); done.
Qed.

End Turns.

Lemma getConnectionPath_route this h a b path :
  wf this h → getConnectionPath this h a b = Some path →
  ∃ turns,
    path = pointOf (deref h a) :: turns ++ [pointOf (deref h b)] ∧
    (length turns ≤ 2)%nat ∧
    route this h (pointOf (deref h a)) turns (pointOf (deref h b)).
Proof.
  intros Hwf. rewrite getConnectionPath_unfold. cbv zeta.
  destruct (checkStraightLine _ _ _ _) eqn:Hline.
  { intros [= <-]. exists []. split; [done|]. split; [simpl; lia|].
    by apply straight_clearLeg. }
  destruct (checkOneCorner _ _ _ _) as [res|] eqn:Hone.
  { apply checkOneCorner_Some in Hone as (corner & -> & Hvalid & Hs1 & Hs2).
    simpl. intros [= <-]. exists [pointOf corner]. split; [done|].
    split; [simpl; lia|]. simpl.
    split; [by apply straight_clearLeg|]. split; [|by apply straight_clearLeg].
    by apply (isCellEmpty_true this h Hwf). }
  destruct (checkTwoCorners _ _ _ _) as [res|] eqn:Htwo; [|done].
  apply checkTwoCorners_Some in Htwo
    as [(r & (_ & Hroute & _) & ->)|(_ & c & (_ & Hroute & _) & ->)];
    destruct Hroute as (_ & _ & Hv1 & Hv2 & Hs1 & Hs2 & Hs3);
    simpl; intros [= <-]; eexists [_; _]; (split; [done|]);
    (split; [simpl; lia|]); simpl.
  - split; [by apply straight_clearLeg|].
    split; [by apply (isCellEmpty_true this h Hwf) in Hv1|].
    split; [by apply (horizontal_clearLeg this h Hwf (mkCorner _ _) (mkCorner _ _))|].
    split; [by apply (isCellEmpty_true this h Hwf) in Hv2|].
    by apply straight_clearLeg.
  - split; [by apply straight_clearLeg|].
    split; [by apply (isCellEmpty_true this h Hwf) in Hv1|].
    split; [by apply (vertical_clearLeg this h Hwf (mkCorner _ _) (mkCorner _ _))|].
    split; [by apply (isCellEmpty_true this h Hwf) in Hv2|].
    by apply straight_clearLeg.
Qed.

Lemma route_found this h {A B : Type} `{Positioned A, Positioned B}
    (cell1 : A) (cell2 : B) turns :
  wf this h → (length turns ≤ 2)%nat →
  route this h (pointOf cell1) turns (pointOf cell2) →
  checkStraightLine this h cell1 cell2 ||
  bool_decide (is_Some (checkOneCorner this h cell1 cell2)) ||
  bool_decide (is_Some (checkTwoCorners this h cell1 cell2)) = true.
Proof.
  intros Hwf Hlen Hroute.
  rewrite !orb_true_iff, !bool_decide_eq_true.
  cut (checkStraightLine this h cell1 cell2 = true ∨
       is_Some (checkOneCorner this h cell1 cell2) ∨
       is_Some (checkTwoCorners this h cell1 cell2)); [tauto|].
  destruct turns as [|t1 [|t2 [|t3 turns]]]; simpl in *; [| | |lia].
  - left. by apply clearLeg_straight.
  - destruct Hroute as (? & ? & ?). by apply (one_turn_found this h Hwf _ _ t1).
  - destruct Hroute as (? & ? & ? & ? & ?).
    by apply (two_turns_found this h Hwf _ _ t1 t2).
Qed.

(** X12. On a well-formed board a path returned by [getConnectionPath]
    is a route of the game: it starts at [cell1], ends at [cell2] and turns
    at most twice; each of its legs runs along one row or one column and
    crosses empty cells only; and each turning point is an empty cell of
    the grid. *)
Theorem connection_path_is_route this h a b path :
  wf this h → getConnectionPath this h a b = Some path →
  ∃ turns,
    path = pointOf (deref h a) :: turns ++ [pointOf (deref h b)] ∧
    (length turns ≤ 2)%nat ∧
    route this h (pointOf (deref h a)) turns (pointOf (deref h b)).
Proof. apply getConnectionPath_route. Qed.

(** X13. The search is complete. For two cells of a well-formed grid,
    [canConnect] holds exactly when the cells are distinct, hold patterns
    of one id, and are joined by some route with at most two turns whose
    legs cross empty cells only and whose turning points are empty cells;
    and [getConnectionPath] returns a path exactly when such a route
    exists. *)
Theorem canConnect_iff_route this h a b :
  wf this h → inGrid this a → inGrid this b →
  (canConnect this h (Some a) (Some b) = true ↔
   a ≠ b ∧ samePattern h a b ∧
   ∃ turns, (length turns ≤ 2)%nat ∧
            route this h (pointOf (deref h a)) turns (pointOf (deref h b))) ∧
  (is_Some (getConnectionPath this h a b) ↔
   ∃ turns, (length turns ≤ 2)%nat ∧
            route this h (pointOf (deref h a)) turns (pointOf (deref h b))).
Proof.
  intros Hwf Ha Hb.
  assert (Hpath : is_Some (getConnectionPath this h a b) ↔
            ∃ turns, (length turns ≤ 2)%nat ∧
                     route this h (pointOf (deref h a)) turns (pointOf (deref h b))).
  { split.
    - intros [path Hpath].
      destruct (getConnectionPath_route this h a b path Hwf Hpath) as (turns & _ & ? & ?).
      eauto.
    - intros (turns & Hlen & Hroute). apply getConnectionPath_is_Some.
      by apply (route_found this h _ _ turns). }
  split; [|done]. rewrite <- Hpath, getConnectionPath_is_Some, canConnect_unfold.
  rewrite !isValidCell_inGrid by done. rewrite !andb_true_iff, negb_true_iff,
    bool_decide_eq_false. unfold samePattern.
  destruct (pattern (deref h a)) as [p1|], (pattern (deref h b)) as [p2|].
  - rewrite Z.eqb_eq. split.
    + intros [[[_ ?] ?] ?]. split; [done|]. split; [|done]. by exists p1, p2.
    + intros (? & (q1 & q2 & [= <-] & [= <-] & ?) & ?). done.
  - split; [by intros [[_ ?] _]|]. by intros (_ & (? & ? & _ & ? & _) & _).
  - split; [by intros [[_ ?] _]|]. by intros (_ & (? & ? & ? & _) & _).
  - split; [by intros [[_ ?] _]|]. by intros (_ & (? & ? & ? & _) & _).
Qed.

(** X14. Two cells of a well-formed grid that hold patterns of one id and
    touch, side by side in a row or one above the other in a column, always
    connect, whatever the rest of the board holds: [canConnect] holds and
    [getConnectionPath] returns the path of the two cells alone. *)
Theorem adjacent_cells_connect this h a b :
  wf this h → inGrid this a → inGrid this b → samePattern h a b →
  (row (deref h a) = row (deref h b) ∧
   Z.abs (col (deref h a) - col (deref h b)) = 1) ∨
  (col (deref h a) = col (deref h b) ∧
   Z.abs (row (deref h a) - row (deref h b)) = 1) →
  canConnect this h (Some a) (Some b) = true ∧
  getConnectionPath this h a b = Some [pointOf (deref h a); pointOf (deref h b)].
Proof.
  intros Hwf Ha Hb (p1 & p2 & Hp1 & Hp2 & Hid) Hadj.
  assert (Hne : a ≠ b) by (intros ->; destruct Hadj as [[_ ?]|[_ ?]]; lia).
  assert (Hline : checkStraightLine this h (deref h a) (deref h b) = true).
  { apply (clearLeg_straight this h Hwf).
    destruct Hadj as [[Hr Hc]|[Hc Hr]]; [left|right];
      (split; [done|]); simpl in *; intros k Hk; lia. }
  split.
  - rewrite canConnect_unfold, Hp1, Hp2, !isValidCell_inGrid by done.
    rewrite bool_decide_eq_false_2 by done. rewrite Hline. simpl. lia.
  - rewrite getConnectionPath_unfold. cbv zeta. by rewrite Hline.
Qed.

Import Play.

(** * Properties of a round of play *)

(** ** Connecting two cells *)

Lemma calculateScore_eq this path levelConfig w :
  LinkGame.connectionPath this = Some path → (2 ≤ length path ≤ 4)%nat →
  JsObject.get (LinkGame.currentLevel (LinkGame.game this))
               (LinkGame.levelConfigs (LinkGame.game this)) = Some levelConfig →
  LinkGame.calculateScore this w =
    Returns (LinkGame.withScore
               (LinkGame.score this +
                (10 + pathBonus path + difficultyBonus this + LinkGame.timeLeft this / 10))
               this) w.
Proof.
  intros Hpath Hlen Hlevel. unfold LinkGame.calculateScore, difficultyBonus, pathBonus.
  rewrite Hpath, Hlevel. cbv zeta. cbn [mret M_ret]. f_equal. f_equal. f_equal.
  destruct (String.eqb _ "medium"); [|destruct (String.eqb _ "hard")];
    repeat match goal with
           | |- context [?a =? ?b] => destruct (Z.eqb_spec a b)
           end; lia.
Qed.

Lemma tryConnectCells_run cell1 cell2 this w :
  let algorithm := asAlgorithm (LinkGame.game this) in
  playable this (heap w) → inGrid algorithm cell1 → inGrid algorithm cell2 →
  ∃ this' w',
    LinkGame.tryConnectCells cell1 cell2 this w = Returns this' w' ∧
    LinkGame.game this' = LinkGame.game this ∧
    random w' = random w ∧ randomCalls w' = randomCalls w ∧ console w' = console w ∧
    (canConnect algorithm (heap w) (Some cell1) (Some cell2) = true →
       heap w' = eliminate cell1 cell2 (heap w) ∧
       playable this' (heap w') ∧
       LinkGame.selectedCell this' = None ∧ LinkGame.hintCell this' = None ∧
       ∃ path,
         LinkGame.connectionPath this' = Some path ∧
         getConnectionPath algorithm (heap w) cell1 cell2 = Some path ∧
         (2 ≤ length path ≤ 4)%nat ∧
         LinkGame.score this' =
           LinkGame.score this +
           (10 + pathBonus path + difficultyBonus this + LinkGame.timeLeft this / 10)) ∧
    (canConnect algorithm (heap w) (Some cell1) (Some cell2) = false →
       w' = w ∧
       LinkGame.selectedCell this' = Some cell2 ∧
       LinkGame.hintCell this' = LinkGame.hintCell this ∧
       LinkGame.connectionPath this' = LinkGame.connectionPath this ∧
       LinkGame.score this' = LinkGame.score this).
Proof.
  intros algorithm ([Hwf Hrows] & Halg & [levelConfig Hlevel]) H1 H2.
  unfold LinkGame.tryConnectCells. rewrite Halg. fold algorithm.
  unfold getHeap, mbind at 1, M_bind at 1.
  destruct (canConnect algorithm (heap w) (Some cell1) (Some cell2)) eqn:Hcan.
  - assert (Hne : cell1 ≠ cell2).
    { rewrite canConnect_unfold, !andb_true_iff in Hcan.
      by destruct Hcan as [[[_ Hne%negb_true_iff%bool_decide_eq_false] _] _]. }
    destruct (inGrid_deref algorithm (heap w) Hwf cell1 H1) as [Hc1 _].
    destruct (inGrid_deref algorithm (heap w) Hwf cell2 H2) as [Hc2 _].
    rewrite (eliminate_writes cell1 cell2 _ _ w _ Hne Hc1 Hc2).
    assert (Hsome : is_Some (getConnectionPath algorithm (heap w) cell1 cell2)).
    { apply getConnectionPath_is_Some.
      rewrite canConnect_unfold, !andb_true_iff in Hcan. tauto. }
    destruct Hsome as [path Hpath].
    assert (Hlen : (2 ≤ length path ≤ 4)%nat).
    { apply getConnectionPath_Some in Hpath.
      destruct Hpath as [[_ ->]|[(corner & _ & ->)|(corner1 & corner2 & _ & _ & ->)]];
        simpl; lia. }
    rewrite Hpath. unfold mbind, M_bind.
    rewrite (calculateScore_eq _ path levelConfig) by done.
    eexists _, _. split; [reflexivity|]. simpl.
    split; [done|]. split; [done|]. split; [done|]. split; [done|].
    split; [|done]. intros _. split; [done|]. split.
    { split; [|split; [done|by eexists]]. split; [|done].
      eapply wf_sameShape; [exact Hwf|]. intros l cell Hcell.
      assert (Hl : (l < length (eliminate cell1 cell2 (heap w)))%nat).
      { unfold eliminate. cbv zeta. rewrite !length_insert. by eapply lookup_lt_Some. }
      destruct (lookup_lt_is_Some_2 _ _ Hl) as [cell' Hcell']. exists cell'.
      split; [done|]. revert Hcell'. unfold eliminate. cbv zeta.
      destruct (decide (l = cell2)) as [->|Hl2].
      - rewrite list_lookup_insert_eq by (rewrite length_insert; by eapply lookup_lt_Some).
        intros [= <-]. unfold deref.
        rewrite list_lookup_total_insert_ne by done.
        by rewrite (list_lookup_total_correct _ _ _ Hcell).
      - rewrite list_lookup_insert_ne by done.
        destruct (decide (l = cell1)) as [->|Hl1].
        + rewrite list_lookup_insert_eq by (by eapply lookup_lt_Some).
          intros [= <-]. unfold deref. by rewrite (list_lookup_total_correct _ _ _ Hcell).
        + rewrite list_lookup_insert_ne by done. intros. by simplify_eq. }
    split; [done|]. split; [done|]. exists path. done.
  - cbn [mret M_ret]. eexists _, _. split; [reflexivity|]. simpl.
    split; [done|]. split; [done|]. split; [done|]. split; [done|].
    split; [done|]. intros _. done.
Qed.

(** X15. [tryConnectCells(cell1, cell2)] on two cells of the grid of a
    playable game returns. When [canConnect] accepts the pair, the two
    cells are marked matched and no other cell changes, the path of
    [getConnectionPath] (2 to 4 points) is stored for drawing, the
    selection and the hint are cleared, and the score grows by 10, plus 5,
    3 or 1 for a path of 2, 3 or 4 points, plus 2 or 5 on a level of medium
    or hard difficulty, plus a tenth of the seconds left, rounded down.
    When [canConnect] refuses the pair, nothing changes but the selection,
    which moves to [cell2]. *)
Theorem tryConnectCells_moves cell1 cell2 this w :
  let algorithm := asAlgorithm (LinkGame.game this) in
  playable this (heap w) → inGrid algorithm cell1 → inGrid algorithm cell2 →
  ∃ this' w',
    LinkGame.tryConnectCells cell1 cell2 this w = Returns this' w' ∧
    LinkGame.game this' = LinkGame.game this ∧
    random w' = random w ∧ randomCalls w' = randomCalls w ∧ console w' = console w ∧
    (canConnect algorithm (heap w) (Some cell1) (Some cell2) = true →
       heap w' = eliminate cell1 cell2 (heap w) ∧
       playable this' (heap w') ∧
       LinkGame.selectedCell this' = None ∧ LinkGame.hintCell this' = None ∧
       ∃ path,
         LinkGame.connectionPath this' = Some path ∧
         getConnectionPath algorithm (heap w) cell1 cell2 = Some path ∧
         (2 ≤ length path ≤ 4)%nat ∧
         LinkGame.score this' =
           LinkGame.score this +
           (10 + pathBonus path + difficultyBonus this + LinkGame.timeLeft this / 10)) ∧
    (canConnect algorithm (heap w) (Some cell1) (Some cell2) = false →
       w' = w ∧
       LinkGame.selectedCell this' = Some cell2 ∧
       LinkGame.hintCell this' = LinkGame.hintCell this ∧
       LinkGame.connectionPath this' = LinkGame.connectionPath this ∧
       LinkGame.score this' = LinkGame.score this).
Proof. apply tryConnectCells_run. Qed.

(** ** The pairs during play *)

Lemma holding_filter (h : Heap) k (P : loc → Prop) `{∀ l, Decision (P l)} cells :
  holding h k (filter P cells) = filter P (holding h k cells).
Proof.
  unfold holding. rewrite !list_filter_filter. apply filter_ext_in. tauto.
Qed.

Lemma eliminate_tilesOf this h a b p k :
  wf this h → move this h a b → pattern (deref h a) = Some p →
  (tilesOf this (eliminate a b h) k + (if decide (k = id p) then 2 else 0))%nat
  = tilesOf this h k.
Proof.
  intros Hwf Hmove Hp.
  assert (Hne : a ≠ b).
  { destruct Hmove as (_ & _ & _ & _ & Hcan).
    rewrite canConnect_unfold, !andb_true_iff in Hcan.
    by destruct Hcan as [[[_ Hne%negb_true_iff%bool_decide_eq_false] _] _]. }
  assert (Hpb : id <$> pattern (deref h b) = Some (id p)).
  { destruct Hmove as (_ & _ & _ & _ & Hcan).
    rewrite canConnect_unfold, !andb_true_iff, Hp in Hcan.
    destruct Hcan as [[_ Hpat] _].
    destruct (pattern (deref h b)) as [p2|]; [|done].
    apply Z.eqb_eq in Hpat. simpl. by rewrite Hpat. }
  unfold tilesOf. rewrite (eliminate_visible this h Hwf a b Hne Hmove).
  assert (Hhold : ∀ cells, holding (eliminate a b h) k cells = holding h k cells).
  { intros cells. unfold holding. apply filter_ext_in. intros l _.
    rewrite (eliminate_deref this h Hwf a b Hne Hmove). by case_decide. }
  rewrite Hhold, !holding_filter.
  set (group := holding h k (LinkGameAlgorithm.getVisibleCells this h)).
  assert (Hnodup : NoDup group).
  { unfold group, holding. apply NoDup_filter.
    rewrite (getVisibleCells_cells _ _ Hwf). apply NoDup_filter, (cells_NoDup _ _ Hwf). }
  assert (Hin : ∀ l, inGrid this l → isTile h l →
            (l ∈ group ↔ id <$> pattern (deref h l) = Some k)).
  { intros l Hl [Hv Hm]. unfold group, holding. rewrite list_elem_of_filter.
    rewrite (getVisibleCells_cells _ _ Hwf), list_elem_of_filter, Hv, Hm.
    rewrite (cells_inGrid this l). simpl. tauto. }
  destruct Hmove as (Ha & Hb & Hta & Htb & _).
  destruct (decide (k = id p)) as [->|Hk].
  - pose proof (length_filter_remove a group Hnodup) as H1.
    rewrite (Hin a Ha Hta), Hp in H1. specialize (H1 eq_refl).
    pose proof (length_filter_remove b (filter (λ l, l ≠ a) group)
                  (NoDup_filter _ _ Hnodup)) as H2.
    rewrite list_elem_of_filter, (Hin b Hb Htb) in H2.
    specialize (H2 (conj (not_eq_sym Hne) Hpb)). lia.
  - rewrite !filter_all; [lia| |].
    + intros l Hl ->. apply (Hin a Ha Hta) in Hl. rewrite Hp in Hl.
      simpl in Hl. congruence.
    + intros l Hl ->. apply list_elem_of_filter in Hl as [_ Hl].
      apply (Hin b Hb Htb) in Hl. congruence.
Qed.

(** X16. A move keeps the pairs. When the two cells of a successful
    [tryConnectCells] are visible, unmatched cells, the number of visible,
    unmatched cells that hold their pattern id drops by two, and the number
    for every other id is as before; so a board on which every id is held
    by an even number of visible cells stays such a board. *)
Theorem tryConnectCells_keeps_pairs cell1 cell2 this w :
  let algorithm := asAlgorithm (LinkGame.game this) in
  playable this (heap w) → move algorithm (heap w) cell1 cell2 →
  ∃ this' w' p,
    LinkGame.tryConnectCells cell1 cell2 this w = Returns this' w' ∧
    pattern (deref (heap w) cell1) = Some p ∧
    (∀ k, (tilesOf algorithm (heap w') k + (if decide (k = id p) then 2 else 0))%nat
          = tilesOf algorithm (heap w) k) ∧
    ((∀ k, Nat.Even (tilesOf algorithm (heap w) k)) →
     ∀ k, Nat.Even (tilesOf algorithm (heap w') k)).
Proof.
  intros algorithm Hplay Hmove.
  pose proof Hmove as (H1 & H2 & _ & _ & Hcan).
  destruct (tryConnectCells_run cell1 cell2 this w Hplay H1 H2)
    as (this' & w' & Hrun & _ & _ & _ & _ & Hyes & _).
  destruct (Hyes Hcan) as (Hheap & _).
  assert (Hp : is_Some (pattern (deref (heap w) cell1))).
  { fold algorithm in Hcan. rewrite canConnect_unfold, !andb_true_iff in Hcan.
    destruct Hcan as [[_ Hpat] _].
    destruct (pattern (deref (heap w) cell1)); [eauto|done]. }
  destruct Hp as [p Hp]. destruct Hplay as ([Hwf _] & _).
  assert (Hcount : ∀ k,
            (tilesOf algorithm (heap w') k + (if decide (k = id p) then 2 else 0))%nat
            = tilesOf algorithm (heap w) k).
  { intros k. rewrite Hheap. by apply eliminate_tilesOf. }
  exists this', w', p. split; [done|]. split; [done|]. split; [done|].
  intros Heven k. specialize (Hcount k). destruct (Heven k) as [m Hm].
  destruct (decide (k = id p)).
  - exists (m - 1)%nat. lia.
  - exists m. lia.
Qed.

(** ** Clicks *)

Lemma Qlt_bool_iff (a b : Q) : LinkGame.Qlt_bool a b = true ↔ (a < b)%Q.
Proof.
  unfold LinkGame.Qlt_bool. rewrite negb_true_iff.
  destruct (Qle_bool b a) eqn:Hle.
  - apply Qle_bool_iff in Hle. split; [done|]. intros Hlt. by apply Qlt_not_le in Hlt.
  - split; [|done]. intros _. apply Qnot_le_lt. intros Hle'.
    apply Qle_bool_iff in Hle'. congruence.
Qed.

(** The floor of a quotient by a positive number. *)
Lemma Qfloor_div (v s : Q) (k : Z) :
  (0 < s)%Q →
  Qfloor (v / s) = k ↔ (inject_Z k * s <= v)%Q ∧ (v < inject_Z (k + 1) * s)%Q.
Proof.
  intros Hs. split.
  - intros <-.
    assert (Hne : ¬ (s == 0)%Q) by (intros Heq; rewrite Heq in Hs; by apply Qlt_irrefl in Hs).
    assert (Hback : ((v / s) * s == v)%Q) by (by rewrite Qmult_comm, Qmult_div_r).
    split.
    + rewrite <- Hback at 2. apply Qmult_le_compat_r; [apply Qfloor_le|by apply Qlt_le_weak].
    + rewrite <- Hback at 1. apply Qmult_lt_compat_r; [done|apply Qlt_floor].
  - intros [Hlo Hhi].
    assert (Hlo' : (inject_Z k <= v / s)%Q) by (by apply Qle_shift_div_l).
    assert (Hhi' : (v / s < inject_Z (k + 1))%Q) by (by apply Qlt_shift_div_r).
    apply Z.le_antisymm.
    + apply Z.lt_succ_r. rewrite Zlt_Qlt.
      eapply Qle_lt_trans; [apply Qfloor_le|]. exact Hhi'.
    + rewrite <- (Qfloor_Z k). by apply Qfloor_resp_le.
Qed.

Lemma scale_le (a b : Z) (s : Q) :
  (0 < s)%Q → a ≤ b → (inject_Z a * s <= inject_Z b * s)%Q.
Proof.
  intros Hs Hab. apply Qmult_le_compat_r; [|by apply Qlt_le_weak].
  by rewrite <- Zle_Qle.
Qed.

(** The index of the cell that holds the coordinate [v], counted from the
    edge of the grid. *)
Lemma Qfloor_index (v s : Q) (n : Z) :
  (0 < s)%Q → (0 <= v)%Q →
  (v < inject_Z n * s)%Q ↔ 0 ≤ Qfloor (v / s) < n.
Proof.
  intros Hs Hv.
  destruct (proj1 (Qfloor_div v s (Qfloor (v / s)) Hs) eq_refl) as [Hlo Hhi].
  set (k := Qfloor (v / s)) in *.
  assert (H0 : 0 ≤ k).
  { destruct (decide (0 ≤ k)) as [|Hneg]; [done|]. exfalso.
    pose proof (scale_le (k + 1) 0 s Hs ltac:(lia)) as Hle.
    change (inject_Z 0) with 0%Q in Hle. lra. }
  split.
  - intros Hlt. split; [done|].
    destruct (decide (k < n)) as [|Hge]; [done|]. exfalso.
    pose proof (scale_le n k s Hs ltac:(lia)) as Hle. lra.
  - intros [_ Hlt]. pose proof (scale_le (k + 1) n s Hs ltac:(lia)) as Hle. lra.
Qed.

Lemma Qlt_bool_false (a b : Q) : LinkGame.Qlt_bool a b = false ↔ (b <= a)%Q.
Proof.
  unfold LinkGame.Qlt_bool. rewrite negb_false_iff. apply Qle_bool_iff.
Qed.

(** [getCellAtPosition] in the exact arithmetic of the model, where the
    cell it returns is the one whose square holds the point. *)
Lemma getCellAtPosition_run x y this w :
  wfGame (LinkGame.game this) (heap w) → laidOut this →
  ∃ cell,
    LinkGame.getCellAtPosition x y this w = Returns cell w ∧
    (is_Some cell ↔ onBoard this x y) ∧
    (∀ r c l, gridAt (LinkGame.grid (LinkGame.game this)) r c = Some l →
              onSquare this r c x y → cell = Some l) ∧
    (∀ l, cell = Some l → inGrid (asAlgorithm (LinkGame.game this)) l).
Proof.
  intros [Hwf Hrows] (Hs & HW & HH).
  unfold LinkGame.getCellAtPosition, onBoard, onSquare. cbv zeta.
  set (g := LinkGame.game this) in *.
  set (s := LinkGame.gridSize g) in *.
  set (col := Qfloor ((x - LinkGame.gridX g) / s)).
  set (row := Qfloor ((y - LinkGame.gridY g) / s)).
  assert (Hsquare : ∀ r c, onSquare this r c x y → row = r ∧ col = c).
  { intros r c (Hx1 & Hx2 & Hy1 & Hy2). fold g s in Hx1, Hx2, Hy1, Hy2.
    split; apply Qfloor_div; (done || split; lra). }
  assert (Hin : ∀ r c l, gridAt (LinkGame.grid g) r c = Some l →
            0 ≤ r < LinkGame.gridRows g ∧ 0 ≤ c < LinkGame.gridCols g).
  { intros r c l Hat. apply (gridAt_inBounds (asAlgorithm g) (heap w) Hwf _ _ _ Hat). }
  destruct (LinkGame.Qlt_bool x (LinkGame.gridX g)) eqn:Hx1.
  { apply Qlt_bool_iff in Hx1. exists None. split; [done|]. split; [|split; [|done]].
    - split; [by intros []|]. intros (? & _). lra.
    - intros r c l Hat Hsq. exfalso. destruct (Hin _ _ _ Hat) as [_ [Hc _]].
      destruct Hsq as (Hx & _). fold g s in Hx.
      pose proof (scale_le 0 c s Hs Hc) as Hle. change (inject_Z 0) with 0%Q in Hle.
      lra. }
  destruct (LinkGame.Qlt_bool (LinkGame.gridX g + LinkGame.gridWidth this) x) eqn:Hx2.
  { apply Qlt_bool_iff in Hx2. exists None. split; [done|]. split; [|split; [|done]].
    - split; [by intros []|]. intros (_ & ? & _). lra.
    - intros r c l Hat Hsq. exfalso. destruct (Hin _ _ _ Hat) as [_ [_ Hc]].
      destruct Hsq as (_ & Hx & _). fold g s in Hx.
      pose proof (scale_le (c + 1) (LinkGame.gridCols g) s Hs ltac:(lia)) as Hle.
      fold g s in HW. lra. }
  destruct (LinkGame.Qlt_bool y (LinkGame.gridY g)) eqn:Hy1.
  { apply Qlt_bool_iff in Hy1. exists None. split; [done|]. split; [|split; [|done]].
    - split; [by intros []|]. intros (_ & _ & ? & _). lra.
    - intros r c l Hat Hsq. exfalso. destruct (Hin _ _ _ Hat) as [[Hr _] _].
      destruct Hsq as (_ & _ & Hy & _). fold g s in Hy.
      pose proof (scale_le 0 r s Hs Hr) as Hle. change (inject_Z 0) with 0%Q in Hle.
      lra. }
  destruct (LinkGame.Qlt_bool (LinkGame.gridY g + LinkGame.gridHeight this) y) eqn:Hy2.
  { apply Qlt_bool_iff in Hy2. exists None. split; [done|]. split; [|split; [|done]].
    - split; [by intros []|]. intros (_ & _ & _ & ?). lra.
    - intros r c l Hat Hsq. exfalso. destruct (Hin _ _ _ Hat) as [[_ Hr] _].
      destruct Hsq as (_ & _ & _ & Hy). fold g s in Hy.
      pose proof (scale_le (r + 1) (LinkGame.gridRows g) s Hs ltac:(lia)) as Hle.
      fold g s in HH. lra. }
  apply Qlt_bool_false in Hx1, Hx2, Hy1, Hy2. cbn [orb].
  assert (Hnz : Qeq_bool s 0 = false).
  { apply not_true_iff_false. intros Heq%Qeq_bool_iff. lra. }
  rewrite Hnz.
  pose proof (Qfloor_index (x - LinkGame.gridX g) s (LinkGame.gridCols g) Hs ltac:(lra))
    as Hcol.
  pose proof (Qfloor_index (y - LinkGame.gridY g) s (LinkGame.gridRows g) Hs ltac:(lra))
    as Hrow.
  fold col in Hcol. fold row in Hrow. fold g s in HW, HH.
  destruct (decide (0 ≤ row < LinkGame.gridRows g ∧ 0 ≤ col < LinkGame.gridCols g))
    as [[Hr Hc]|Hout].
  - replace ((row >=? 0) && (row <? LinkGame.gridRows g) && (col >=? 0) &&
             (col <? LinkGame.gridCols g)) with true
      by (symmetry; rewrite !andb_true_iff; lia).
    destruct (gridAt_defined (asAlgorithm g) (heap w) Hwf row col) as (l & cell & Hat & _);
      [done|].
    pose proof Hat as (_ & _ & line & Hline & Hl)%gridAt_Some. simpl in Hline.
    rewrite Hline. exists (Some l). split; [by rewrite Hl|].
    split; [|split].
    + split; [|eauto]. intros _. apply Hrow in Hr. apply Hcol in Hc.
      split_and!; lra.
    + intros r c l' Hat' [-> ->]%Hsquare. simpl in Hat. congruence.
    + intros ? [= <-]. by exists row, col.
  - replace ((row >=? 0) && (row <? LinkGame.gridRows g) && (col >=? 0) &&
             (col <? LinkGame.gridCols g)) with false
      by (symmetry; rewrite !andb_false_iff; lia).
    exists None. split; [done|]. split; [|split; [|done]].
    + split; [by intros []|]. intros (_ & Hx & _ & Hy). exfalso. apply Hout.
      split; [apply Hrow|apply Hcol]; lra.
    + intros r c l Hat [-> ->]%Hsquare. exfalso. apply Hout. by apply Hin in Hat.
Qed.

(** X17. On a well-formed grid laid out by [calculateGridDimensions],
    [getCellAtPosition(x, y)] returns without an error and changes nothing.
    For a point off the grid it returns [null], and what it returns
    otherwise is [null] or a cell of the grid. *)
Theorem getCellAtPosition_on_grid x y this w :
  wfGame (LinkGame.game this) (heap w) → laidOut this →
  ∃ cell,
    LinkGame.getCellAtPosition x y this w = Returns cell w ∧
    (¬ onBoard this x y → cell = None) ∧
    (∀ l, cell = Some l → inGrid (asAlgorithm (LinkGame.game this)) l).
Proof.
  intros Hwf Hlaid.
  destruct (getCellAtPosition_run x y this w Hwf Hlaid)
    as (cell & Hrun & Hboard & _ & Hgrid).
  exists cell. split; [done|]. split; [|done].
  intros Hoff. destruct cell as [l|]; [|done].
  destruct Hoff. apply Hboard. by exists l.
Qed.

(** X18. A click on a playable game returns and keeps the game playable.
    It either leaves every cell as it is, or makes a move of the game: the
    cell selected before and the cell clicked are visible, unmatched cells
    that [canConnect] accepts, and they are marked matched. The selection
    after the click is [null] or a visible, unmatched cell of the grid. A
    click off the grid changes nothing. *)
Theorem handleCellClick_plays x y this w :
  let algorithm := asAlgorithm (LinkGame.game this) in
  playable this (heap w) → laidOut this → selectionOk this (heap w) →
  ∃ this' w',
    LinkGame.handleCellClick x y this w = Returns this' w' ∧
    LinkGame.game this' = LinkGame.game this ∧
    playable this' (heap w') ∧ selectionOk this' (heap w') ∧
    (heap w' = heap w ∨
     ∃ a b, LinkGame.selectedCell this = Some a ∧ move algorithm (heap w) a b ∧
            heap w' = eliminate a b (heap w)) ∧
    (¬ onBoard this x y → this' = this ∧ w' = w).
Proof.
  intros algorithm Hplay Hlaid Hsel. pose proof Hplay as (Hwfg & Halg & Hlevel).
  pose proof Hwfg as [Hwf _].
  destruct (getCellAtPosition_run x y this w Hwfg Hlaid)
    as (cell & Hrun & Hboard & _ & Hgrid).
  unfold LinkGame.handleCellClick, mbind at 1, M_bind at 1. rewrite Hrun.
  destruct cell as [l|].
  2: { exists this, w. split; [done|]. split; [done|]. split; [done|].
       split; [done|]. split; [by left|done]. }
  specialize (Hgrid l eq_refl).
  destruct (inGrid_deref _ _ Hwf l Hgrid) as [Hcell _].
  unfold mbind at 1, M_bind at 1, readCell. rewrite Hcell.
  assert (Hoff : ¬ onBoard this x y → False) by (intros Hnot; apply Hnot, Hboard; eauto).
  destruct (negb (visible (deref (heap w) l)) || matched (deref (heap w) l)) eqn:Htile.
  { exists this, w. split; [done|]. split; [done|]. split; [done|].
    split; [done|]. split; [by left|done]. }
  apply orb_false_iff in Htile as [Hv%negb_false_iff Hm].
  assert (Hl : isTile (heap w) l) by done.
  destruct (LinkGame.selectedCell this) as [selected|] eqn:Hselected.
  2: { eexists _, w. split; [reflexivity|]. split; [done|]. split; [done|].
       split; [|split; [by left|by intros ?%Hoff]].
       intros l' [= <-]. done. }
  destruct (Hsel selected Hselected) as [Hs Hts].
  destruct (decide (selected = l)) as [->|Hne].
  { rewrite bool_decide_eq_true_2 by done.
    eexists _, w. split; [reflexivity|]. split; [done|]. split; [done|].
    split; [|split; [by left|by intros ?%Hoff]].
    intros l' [=]. }
  rewrite bool_decide_eq_false_2 by done.
  destruct (tryConnectCells_run selected l this w Hplay Hs Hgrid)
    as (this' & w' & Hrun' & Hgame & _ & _ & _ & Hyes & Hno).
  exists this', w'. split; [done|]. split; [done|].
  destruct (canConnect (asAlgorithm (LinkGame.game this)) (heap w)
              (Some selected) (Some l)) eqn:Hcan.
  - destruct (Hyes eq_refl) as (Hheap & Hplay' & Hnone & _).
    split; [done|]. split; [|split; [|by intros ?%Hoff]].
    + intros l'. by rewrite Hnone.
    + right. exists selected, l. split; [done|]. split; [|done].
      unfold move. done.
  - destruct (Hno eq_refl) as (-> & Hsel' & _).
    split; [|split; [|split; [by left|by intros ?%Hoff]]].
    + unfold playable. by rewrite Hgame.
    + intros l'. rewrite Hsel', Hgame. by intros [= <-].
Qed.

(** ** The end of a level *)

Lemma bind_nil_all {A B} (f : A → list B) (l : list A) :
  (∀ a, a ∈ l → f a = []) → l ≫= f = [].
Proof.
  induction l as [|a l IH]; intros Hf; [done|].
  rewrite bind_cons, Hf by (by left). simpl. apply IH. intros. apply Hf. by right.
Qed.

Lemma checkLevelComplete_run this w :
  wfGame (LinkGame.game this) (heap w) →
  ∃ complete,
    LinkGame.checkLevelComplete this w = Returns complete w ∧
    (complete = true ↔
     LinkGame.getVisibleCells (LinkGame.game this) (heap w) = []).
Proof.
  intros [Hwf Hrows]. unfold LinkGame.checkLevelComplete, getHeap, mbind, M_bind.
  cbv zeta. set (g := LinkGame.game this) in *.
  set (body := λ r c : Z,
         match gridAt (LinkGame.grid g) r c ≫= (heap w !!.) with
         | Some cell =>
             if visible cell && negb (matched cell) then Some (Some false) else None
         | None => Some None
         end).
  assert (Hbody : ∀ r c, 0 ≤ r < LinkGame.gridRows g → 0 ≤ c < LinkGame.gridCols g →
            ∃ l, gridAt (LinkGame.grid g) r c = Some l ∧
                 body r c = if visible (deref (heap w) l) && negb (matched (deref (heap w) l))
                            then Some (Some false) else None).
  { intros r c Hr Hc.
    destruct (gridAt_defined (asAlgorithm g) (heap w) Hwf r c) as (l & cell & Hat & Hcell & _);
      [done|]. simpl in Hat.
    exists l. split; [done|]. unfold body, deref. rewrite Hat. simpl.
    by rewrite Hcell, (list_lookup_total_correct _ _ _ Hcell). }
  change (for_range 0 (LinkGame.gridRows g) (λ r, for_range 0 (LinkGame.gridCols g) _))
    with (for_range 0 (LinkGame.gridRows g)
            (λ r, for_range 0 (LinkGame.gridCols g) (body r))).
  destruct (for_range 0 (LinkGame.gridRows g) _) as [res|] eqn:Hloop.
  - apply for_range_Some in Hloop as (r & Hr & Hinner & _).
    apply for_range_Some in Hinner as (c & Hc & Hres & _).
    destruct (Hbody r c Hr Hc) as (l & Hat & Heq). rewrite Heq in Hres.
    destruct (visible _ && negb _) eqn:Htile; [|done]. injection Hres as <-.
    exists false. split; [done|]. split; [done|]. intros Hnil. exfalso.
    assert (Hl : l ∈ LinkGame.getVisibleCells g (heap w)).
    { rewrite getVisibleCells_asAlgorithm, (getVisibleCells_cells _ _ Hwf).
      apply list_elem_of_filter. split; [done|]. apply cells_inGrid. by exists r, c. }
    rewrite Hnil in Hl. by apply elem_of_nil in Hl.
  - exists true. split; [done|]. split; [|done]. intros _.
    rewrite for_range_None in Hloop. unfold LinkGame.getVisibleCells.
    apply bind_nil_all. intros r Hr%elem_of_seqZ.
    apply bind_nil_all. intros c Hc%elem_of_seqZ.
    specialize (Hloop r ltac:(lia)). rewrite for_range_None in Hloop.
    specialize (Hloop c ltac:(lia)).
    destruct (Hbody r c ltac:(lia) ltac:(lia)) as (l & Hat & Heq).
    rewrite Heq in Hloop. fold g. rewrite Hat.
    by destruct (visible _ && negb _).
Qed.

(** X19. On a well-formed grid [checkLevelComplete()] returns, changes
    nothing, and answers [true] exactly when no cell of the grid is visible
    and unmatched, that is when [getVisibleCells()] is empty. *)
Theorem checkLevelComplete_exact this w :
  wfGame (LinkGame.game this) (heap w) →
  ∃ complete,
    LinkGame.checkLevelComplete this w = Returns complete w ∧
    (complete = true ↔
     LinkGame.getVisibleCells (LinkGame.game this) (heap w) = []).
Proof. apply checkLevelComplete_run. Qed.

Section Levels.
Context (strictBoardValidation : LinkGameAlgorithm.t → Heap → bool).

(** [initializeGrid] on a configured game: the new grid replaces the old
    one, and the other fields of the configuration stay. *)
Lemma initializeGrid_run (this : LinkGame.t) (fuel : nat) (w : World) :
  configured this → 1 ≤ LinkGame.currentLevel this ≤ 5 → (100 ≤ fuel)%nat →
  ∃ grid w',
    let this' := LinkGame.withGrid grid this in
    LinkGame.initializeGrid strictBoardValidation fuel this w =
      Returns (LinkGame.withAlgorithm (Some (asAlgorithm this')) this') w' ∧
    wfGame this' (heap w') ∧
    random w' = random w ∧
    ∀ n, countVisible this' (heap w') n =
         if decide (1 ≤ n ≤ 5 * (LinkGame.currentLevel this + 1))
         then 2%nat else 0%nat.
Proof.
  intros Hconf Hlevel Hfuel.
  assert (Hrows : 0 < LinkGame.gridRows this) by (destruct Hconf as (-> & _); lia).
  assert (Hcols : 0 ≤ LinkGame.gridCols this) by (destruct Hconf as (_ & -> & _); lia).
  pose proof (returns_createCells this w Hrows Hcols) as Hcells.
  apply returns_eq in Hcells as (grid & w1 & Hrun1 & Hwfg & Hkeep1 & Hrandom1 & _).
  assert (Hconf1 : configured (LinkGame.withGrid grid this)) by exact Hconf.
  destruct (levels_of_the_game (LinkGame.withGrid grid this) Hconf1 Hlevel)
    as (levelConfig & Hget & Hcount & Hids & Hfits).
  pose proof (returns_fillGridWithPatterns strictBoardValidation fuel
                (LinkGame.withGrid grid this) w1 levelConfig Hwfg Hget Hfuel) as Hfill.
  apply returns_eq in Hfill as (this' & w' & Hrun & -> & Hwfg' & Hrandom & _ & Hpaired).
  exists grid, w'. cbv zeta. split; [|split; [done|split]].
  - unfold LinkGame.initializeGrid, mbind, M_bind. by rewrite Hrun1.
  - congruence.
  - intros n.
    change (countVisible (LinkGame.withGrid grid this) (heap w') n)
      with (countVisible (LinkGame.withAlgorithm
                            (Some (asAlgorithm (LinkGame.withGrid grid this)))
                            (LinkGame.withGrid grid this)) (heap w') n).
    rewrite (count_of_paired _ (heap w') _ n (Hpaired Hfits)).
    + rewrite Hids, Hcount. simpl.
      destruct (decide (1 ≤ n ≤ 5 * (LinkGame.currentLevel this + 1))) as [Hn|Hn].
      * rewrite decide_True; [done|]. apply elem_of_seqZ. lia.
      * rewrite decide_False; [done|]. rewrite elem_of_seqZ. lia.
    + rewrite Hids. apply NoDup_seqZ.
Qed.

(** X20. [initializeGrid] on the game as its constructor configures it, at
    any of the levels 1 to 5: it returns the game with a fresh, well-formed
    8 by 10 grid and an algorithm object on that grid, and on the new board
    each pattern id of the level is on exactly two visible cells and no
    other id is on any. *)
Theorem initializeGrid_deals_pairs (this : LinkGame.t) (fuel : nat) (w : World) :
  configured this → 1 ≤ LinkGame.currentLevel this ≤ 5 → (100 ≤ fuel)%nat →
  ∃ grid w',
    let this' := LinkGame.withGrid grid this in
    LinkGame.initializeGrid strictBoardValidation fuel this w =
      Returns (LinkGame.withAlgorithm (Some (asAlgorithm this')) this') w' ∧
    wfGame this' (heap w') ∧
    random w' = random w ∧
    ∀ n, countVisible this' (heap w') n =
         if decide (1 ≤ n ≤ 5 * (LinkGame.currentLevel this + 1))
         then 2%nat else 0%nat.
Proof. apply initializeGrid_run. Qed.

Lemma completeLevel_run fuel this w :
  ofTheGame this → (100 ≤ fuel)%nat →
  ∃ this' w',
    LinkGame.completeLevel strictBoardValidation fuel this w = Returns this' w' ∧
    ofTheGame this' ∧
    LinkGame.score this' =
      LinkGame.score this + LinkGame.currentLevel (LinkGame.game this) * 50 ∧
    (LinkGame.currentLevel (LinkGame.game this) < 5 →
       LinkGame.currentLevel (LinkGame.game this') =
         LinkGame.currentLevel (LinkGame.game this) + 1 ∧
       LinkGame.timeLeft this' = 180 ∧
       LinkGame.isGameOver this' = LinkGame.isGameOver this ∧
       LinkGame.gameStarted this' = LinkGame.gameStarted this ∧
       playable this' (heap w') ∧
       ∀ n, countVisible (LinkGame.game this') (heap w') n =
            if decide (1 ≤ n ≤ 5 * (LinkGame.currentLevel (LinkGame.game this) + 2))
            then 2%nat else 0%nat) ∧
    (LinkGame.currentLevel (LinkGame.game this) = 5 →
       LinkGame.isGameOver this' = true ∧ LinkGame.gameStarted this' = false ∧
       LinkGame.game this' = LinkGame.game this ∧
       LinkGame.timeLeft this' = LinkGame.timeLeft this ∧ w' = w).
Proof.
  intros (Hconf & Hlevel & Htotal) Hfuel. unfold LinkGame.completeLevel. cbv zeta.
  cbn [LinkGame.game LinkGame.say LinkGame.withScore LinkGame.totalLevels].
  rewrite Htotal.
  destruct (Z.ltb_spec (LinkGame.currentLevel (LinkGame.game this)) 5) as [Hlt|Hge].
  - cbn [LinkGame.game LinkGame.withGame LinkGame.withTimeLeft].
    set (g := LinkGame.withCurrentLevel
                (LinkGame.currentLevel (LinkGame.game this) + 1) (LinkGame.game this)).
    assert (Hconf' : configured g) by exact Hconf.
    assert (Hlevel' : 1 ≤ LinkGame.currentLevel g ≤ 5) by (simpl; lia).
    destruct (initializeGrid_run g fuel w Hconf' Hlevel' Hfuel)
      as (grid & w' & Hrun & Hwfg & _ & Hcount).
    cbv zeta in Hrun. unfold mbind at 1, M_bind at 1. rewrite Hrun.
    unfold mbind, M_bind. cbn [LinkGame.game LinkGame.withGame].
    rewrite (newAlgorithm_eq _ w') by exact Hwfg.
    eexists _, w'. split; [reflexivity|].
    split; [split; [exact Hconf|split; [simpl; lia|exact Htotal]]|].
    split; [done|]. split; [|simpl; lia]. intros _.
    split; [done|]. split; [done|]. split; [done|]. split; [done|].
    split.
    + split; [exact Hwfg|]. split; [done|].
      destruct (levels_of_the_game g Hconf' Hlevel') as (levelConfig & Hget & _).
      exists levelConfig. exact Hget.
    + intros n. specialize (Hcount n). simpl in Hcount.
      replace (5 * (LinkGame.currentLevel (LinkGame.game this) + 2))
        with (5 * (LinkGame.currentLevel (LinkGame.game this) + 1 + 1)) by lia.
      exact Hcount.
  - eexists _, w. split; [reflexivity|].
    split; [by split|]. split; [done|]. split; [lia|]. intros _. done.
Qed.

Lemma update_run fuel deltaTime this w :
  ofTheGame this → playable this (heap w) → (100 ≤ fuel)%nat →
  ∃ this' w',
    LinkGame.update strictBoardValidation fuel deltaTime this w = Returns this' w' ∧
    ofTheGame this' ∧ playable this' (heap w') ∧
    (LinkGame.gameStarted this = false ∨ LinkGame.isGameOver this = true →
     this' = this ∧ w' = w) ∧
    (LinkGame.timeLeft this' = LinkGame.timeLeft this ∨
     LinkGame.timeLeft this' = LinkGame.timeLeft this - 1 ∨
     LinkGame.timeLeft this' = 180) ∧
    ((LinkGame.isGameOver this = false → 0 < LinkGame.timeLeft this) →
     LinkGame.isGameOver this' = false → 0 < LinkGame.timeLeft this') ∧
    LinkGame.score this ≤ LinkGame.score this'.
Proof.
  intros Hgame Hplay Hfuel. unfold LinkGame.update.
  destruct (LinkGame.gameStarted this) eqn:Hstarted; cbn [negb orb].
  2: { exists this, w. split; [done|]. split; [done|]. split; [done|].
       split; [done|]. split; [by left|]. split; [done|lia]. }
  destruct (LinkGame.isGameOver this) eqn:Hover.
  { exists this, w. split; [done|]. split; [done|]. split; [done|].
    split; [done|]. split; [by left|]. split; [intros _ ?; congruence|lia]. }
  cbv zeta.
  set (this1 := LinkGame.withLastUpdateTime _ this).
  set (ticked := if Qle_bool 1 (LinkGame.lastUpdateTime this1) then _ else _).
  assert (Hticked :
            LinkGame.game ticked.1 = LinkGame.game this ∧
            LinkGame.totalLevels ticked.1 = LinkGame.totalLevels this ∧
            LinkGame.score ticked.1 = LinkGame.score this ∧
            (LinkGame.timeLeft ticked.1 = LinkGame.timeLeft this ∨
             LinkGame.timeLeft ticked.1 = LinkGame.timeLeft this - 1) ∧
            ((0 < LinkGame.timeLeft this) → 0 < LinkGame.timeLeft ticked.1 ∨ ticked.2 = true) ∧
            (ticked.2 = false → LinkGame.isGameOver ticked.1 = false) ∧
            (ticked.2 = true → LinkGame.isGameOver ticked.1 = true)).
  { unfold ticked. destruct (Qle_bool 1 (LinkGame.lastUpdateTime this1)); cbv zeta.
    - cbn [LinkGame.timeLeft LinkGame.withLastUpdateTime LinkGame.withTimeLeft this1].
      destruct (Z.leb_spec (LinkGame.timeLeft this - 1) 0); simpl;
        split_and!; try done; try lia; auto.
    - simpl. split_and!; try done; auto. }
  destruct Hticked as (Hg2 & Ht2 & Hs2 & Htime2 & Hpos2 & Hrun2 & Hup2).
  destruct (ticked.2) eqn:Hup.
  { exists ticked.1, w. split; [done|].
    split; [unfold ofTheGame; by rewrite Hg2, Ht2|].
    split; [unfold playable; by rewrite Hg2|].
    split; [by intros [|]|]. split; [tauto|]. split; [|lia].
    intros _. rewrite Hup2; done. }
  set (this3 := match LinkGame.connectionPath ticked.1 with Some _ => _ | None => _ end).
  assert (Hthis3 :
            LinkGame.game this3 = LinkGame.game ticked.1 ∧
            LinkGame.totalLevels this3 = LinkGame.totalLevels ticked.1 ∧
            LinkGame.score this3 = LinkGame.score ticked.1 ∧
            LinkGame.timeLeft this3 = LinkGame.timeLeft ticked.1 ∧
            LinkGame.isGameOver this3 = LinkGame.isGameOver ticked.1).
  { unfold this3. destruct (LinkGame.connectionPath ticked.1); [|done].
    cbv zeta. by destruct (Qle_bool (1 # 2) _). }
  destruct Hthis3 as (Hg3 & Ht3 & Hs3 & Htime3 & Hover3).
  assert (Hgame3 : ofTheGame this3) by (unfold ofTheGame; by rewrite Hg3, Ht3, Hg2, Ht2).
  assert (Hplay3 : playable this3 (heap w)) by (unfold playable; by rewrite Hg3, Hg2).
  destruct (checkLevelComplete_run this3 w) as (complete & Hcheck & _);
    [apply Hplay3|].
  unfold mbind, M_bind. rewrite Hcheck.
  destruct complete.
  - destruct (completeLevel_run fuel this3 w Hgame3 Hfuel)
      as (this' & w' & Hrun & Hgame' & Hscore & Hnext & Hlast).
    exists this', w'. split; [done|]. split; [done|].
    destruct Hgame3 as (_ & Hlevel3 & _).
    destruct (decide (LinkGame.currentLevel (LinkGame.game this3) < 5)) as [Hlt|Hge].
    + destruct (Hnext Hlt) as (_ & Htime & Hover' & _ & Hplay' & _).
      split; [done|]. split; [by intros [|]|]. split; [auto|].
      split; [lia|]. lia.
    + destruct (Hlast ltac:(lia)) as (Hover' & _ & Hg' & Htime' & ->).
      split; [unfold playable; by rewrite Hg'|]. split; [by intros [|]|].
      split; [rewrite Htime', Htime3; tauto|]. split; [congruence|]. lia.
  - exists this3, w. split; [done|]. split; [done|]. split; [done|].
    split; [by intros [|]|]. split; [rewrite Htime3; tauto|].
    split; [|lia]. intros Hinv _. rewrite Htime3.
    destruct (Hpos2 (Hinv eq_refl)) as [|]; [done|congruence].
Qed.

(** X21. At one of the five levels of the game [completeLevel()] returns
    and adds 50 points per level to the score. Below the last level it
    moves to the next level, resets the clock to 180 seconds and builds a
    new board through [initializeGrid], on which every pattern id of the
    new level is held by two visible cells and no other id by any. At the
    last level it ends the game and leaves the board and the level as they
    are: the level never exceeds the number of levels. *)
Theorem completeLevel_advances fuel this w :
  ofTheGame this → (100 ≤ fuel)%nat →
  ∃ this' w',
    LinkGame.completeLevel strictBoardValidation fuel this w = Returns this' w' ∧
    ofTheGame this' ∧
    LinkGame.score this' =
      LinkGame.score this + LinkGame.currentLevel (LinkGame.game this) * 50 ∧
    (LinkGame.currentLevel (LinkGame.game this) < 5 →
       LinkGame.currentLevel (LinkGame.game this') =
         LinkGame.currentLevel (LinkGame.game this) + 1 ∧
       LinkGame.timeLeft this' = 180 ∧
       LinkGame.isGameOver this' = LinkGame.isGameOver this ∧
       LinkGame.gameStarted this' = LinkGame.gameStarted this ∧
       playable this' (heap w') ∧
       ∀ n, countVisible (LinkGame.game this') (heap w') n =
            if decide (1 ≤ n ≤ 5 * (LinkGame.currentLevel (LinkGame.game this) + 2))
            then 2%nat else 0%nat) ∧
    (LinkGame.currentLevel (LinkGame.game this) = 5 →
       LinkGame.isGameOver this' = true ∧ LinkGame.gameStarted this' = false ∧
       LinkGame.game this' = LinkGame.game this ∧
       LinkGame.timeLeft this' = LinkGame.timeLeft this ∧ w' = w).
Proof. apply completeLevel_run. Qed.

(** X22. [update(deltaTime)] on a playable game at one of the five levels
    returns and leaves such a game. It changes nothing before the game has
    started and after it is over. Whatever [deltaTime] is, the clock loses
    at most one second in a call, unless a completed level resets it to
    180; if the clock was positive while the game was not over, it still
    is after the call; and the score never drops. *)
Theorem update_keeps_playable fuel deltaTime this w :
  ofTheGame this → playable this (heap w) → (100 ≤ fuel)%nat →
  ∃ this' w',
    LinkGame.update strictBoardValidation fuel deltaTime this w = Returns this' w' ∧
    ofTheGame this' ∧ playable this' (heap w') ∧
    (LinkGame.gameStarted this = false ∨ LinkGame.isGameOver this = true →
     this' = this ∧ w' = w) ∧
    (LinkGame.timeLeft this' = LinkGame.timeLeft this ∨
     LinkGame.timeLeft this' = LinkGame.timeLeft this - 1 ∨
     LinkGame.timeLeft this' = 180) ∧
    ((LinkGame.isGameOver this = false → 0 < LinkGame.timeLeft this) →
     LinkGame.isGameOver this' = false → 0 < LinkGame.timeLeft this') ∧
    LinkGame.score this ≤ LinkGame.score this'.
Proof. apply update_run. Qed.

End Levels.

(** ** The first version of the generator *)

Lemma bind_Returns {A B} (m : M A) (f : A → M B) w a w' :
  m w = Returns a w' → (m ≫= f) w = f a w'.
Proof. intros Hm. unfold mbind, M_bind. by rewrite Hm. Qed.

(** X23. The first version of [fillGridWithPatterns], which fills the
    grid once and validates nothing, returns at each of the five levels of
    the game with a well-formed board on which every pattern id of the
    level is held by two visible cells, and no other id by any. *)
Theorem fillGridWithPatterns_v1_pairs this w :
  configured this → 1 ≤ LinkGame.currentLevel this ≤ 5 → wfGame this (heap w) →
  ∃ w',
    LinkGame.V1.fillGridWithPatterns this w = Returns () w' ∧
    wfGame this (heap w') ∧
    ∀ n, countVisible this (heap w') n =
         if decide (1 ≤ n ≤ 5 * (LinkGame.currentLevel this + 1))
         then 2%nat else 0%nat.
Proof.
  intros Hconf Hlevel Hwfg.
  destruct (levels_of_the_game this Hconf Hlevel)
    as (levelConfig & Hget & Hcount & Hids & Hfits).
  unfold LinkGame.V1.fillGridWithPatterns. rewrite Hget. cbv zeta.
  set (availablePatterns :=
         LinkGame.slice0 (LinkGame.patterns this) (LevelConfig.patterns levelConfig)) in *.
  pose proof (shuffleArray_draws (availablePatterns ≫= λ p, [p; p]) w) as Hshuffle.
  apply returns_eq in Hshuffle
    as (patternPairs & w1 & Hrun1 & Hperm & (Hheap1 & _ & _) & _).
  destruct (fillCells_post this patternPairs w1) as (h2 & Hfill & Hwfg2 & Hvis2);
    [by rewrite Hheap1|].
  exists (withHeap h2 w1). split; [|split; [done|]].
  - by rewrite (bind_Returns _ _ _ _ _ Hrun1).
  - intros n. simpl.
    assert (Hpaired : pairedBoard this h2 availablePatterns).
    { unfold pairedBoard. rewrite Hvis2, take_ge.
      - by rewrite Hperm.
      - rewrite (Permutation_length Hperm), length_pairs. lia. }
    rewrite (count_of_paired this h2 _ n Hpaired).
    + rewrite Hids, Hcount.
      destruct (decide (1 ≤ n ≤ 5 * (LinkGame.currentLevel this + 1))) as [Hn|Hn].
      * rewrite decide_True; [done|]. apply elem_of_seqZ. lia.
      * rewrite decide_False; [done|]. rewrite elem_of_seqZ. lia.
    + rewrite Hids. apply NoDup_seqZ.
Qed.

(** * The further properties at work on concrete boards *)

Lemma worldOf_inRange picture : randomInRange (worldOf picture).
Proof. intros k. split; unfold Qle, Qlt; simpl; lia. Defined.

Lemma detour_wf : wf (algorithmOf detour) (heapOf detour).
Proof. apply wf_check_sound. reflexivity. Defined.

Lemma getVisibleCells_exact_witness :
  let this := algorithmOf detour in
  let h := heapOf detour in
  wf this h ∧ NoDup (LinkGameAlgorithm.getVisibleCells this h).
Proof.
  intros this h. split; [exact detour_wf|].
  exact (proj1 (proj2 (getVisibleCells_exact this h detour_wf))).
Defined.

Lemma findAllConnectablePairs_exact_witness :
  let this := algorithmOf detour in
  let h := heapOf detour in
  wf this h ∧
  (isGameContinue this h = true ↔
   ∃ a b, inGrid this a ∧ inGrid this b ∧ isTile h a ∧ isTile h b ∧
          canConnect this h (Some a) (Some b) = true).
Proof.
  intros this h. split; [exact detour_wf|].
  exact (proj2 (proj2 (findAllConnectablePairs_exact this h detour_wf))).
Defined.

Lemma randomInt_range_witness :
  1 ≤ 6 ∧ isSafeInteger 1 ∧ isSafeInteger 6 ∧ isSafeInteger (6 - 1 + 1) ∧
  randomInRange newWorld ∧
  ∃ n w', randomInt 1 6 newWorld = Returns n w' ∧ 1 ≤ n ≤ 6.
Proof.
  assert (Hle : 1 ≤ 6) by lia.
  assert (Hmin : isSafeInteger 1) by (unfold isSafeInteger; lia).
  assert (Hmax : isSafeInteger 6) by (unfold isSafeInteger; lia).
  assert (Hspan : isSafeInteger (6 - 1 + 1)) by (unfold isSafeInteger; lia).
  split; [exact Hle|]. split; [exact Hmin|]. split; [exact Hmax|].
  split; [exact Hspan|]. split; [exact thirds_inRange|].
  destruct (randomInt_range 1 6 newWorld Hle Hmin Hmax Hspan thirds_inRange)
    as (n & w' & Hrun & Hn & _).
  exists n, w'. split; [exact Hrun|exact Hn].
Defined.

Lemma findHint_connectable_witness :
  let this := algorithmOf detour in
  let w := worldOf detour in
  randomInRange w ∧
  ∃ hint w', findHint this w = Returns hint w' ∧ heap w' = heap w.
Proof.
  intros this w. split; [exact (worldOf_inRange detour)|].
  destruct (findHint_connectable this w (worldOf_inRange detour))
    as (hint & w' & Hrun & Hheap & _).
  exists hint, w'. split; [exact Hrun|exact Hheap].
Defined.

Lemma reshuffleGrid_permutes_witness :
  let this := algorithmOf detour in
  let w := worldOf detour in
  wf this (heap w) ∧
  ∃ verdict w', reshuffleGrid this w = Returns verdict w' ∧ wf this (heap w').
Proof.
  intros this w. split; [exact detour_wf|].
  destruct (reshuffleGrid_permutes this w detour_wf) as (verdict & w' & Hrun & Hwf & _).
  exists verdict, w'. split; [exact Hrun|exact Hwf].
Defined.

Lemma createGridCopy_copies_witness :
  let this := algorithmOf detour in
  let w := worldOf detour in
  wf this (heap w) ∧
  ∃ gridCopy w',
    createGridCopy this w = Returns gridCopy w' ∧
    wf (onGrid this gridCopy) (heap w').
Proof.
  intros this w. split; [exact detour_wf|].
  destruct (createGridCopy_copies this w detour_wf)
    as (gridCopy & w' & Hrun & _ & _ & _ & _ & Hwf & _).
  exists gridCopy, w'. split; [exact Hrun|exact Hwf].
Defined.

Lemma simulateElimination_sound_witness :
  let this := algorithmOf detour in
  let w := worldOf detour in
  wf (onGrid this (grid this)) (heap w) ∧
  ∃ verdict w',
    simulateElimination this (grid this) w = Returns verdict w' ∧
    wf (onGrid this (grid this)) (heap w').
Proof.
  intros this w. split; [exact detour_wf|].
  destruct (simulateElimination_sound this (grid this) w detour_wf)
    as (verdict & w' & Hrun & _ & _ & Hwf & _).
  exists verdict, w'. split; [exact Hrun|exact Hwf].
Defined.

Lemma threePairs_wf : wf (algorithmOf threePairs) (heapOf threePairs).
Proof. apply wf_check_sound. reflexivity. Defined.

Lemma isBoardSolvable_sound_witness :
  let this := algorithmOf threePairs in
  let w := worldOf threePairs in
  wf this (heap w) ∧ 0 < gridRows this * gridCols this ∧
  ∃ w',
    isBoardSolvable this w = Returns true w' ∧
    (∀ k, Nat.Even (tilesOf this (heap w) k)) ∧
    clearable this (heap w) ∧
    console w' = console w.
Proof.
  intros this w.
  assert (Hcells : 0 < gridRows this * gridCols this) by reflexivity.
  split; [exact threePairs_wf|]. split; [exact Hcells|].
  destruct (isBoardSolvable_sound this w threePairs_wf Hcells)
    as (verdict & w' & Hrun & Htrue & _).
  assert (Hcomp : ∃ w0, isBoardSolvable this w = Returns true w0)
    by (eexists; vm_compute; reflexivity).
  destruct Hcomp as (w0 & Hrun0).
  exists w'. rewrite Hrun0 in Hrun. injection Hrun as <- <-.
  split; [exact Hrun0|]. exact (Htrue eq_refl).
Defined.

Lemma connection_path_is_route_witness :
  let this := algorithmOf detour in
  let h := heapOf detour in
  let path := [mkPoint 0 1; mkPoint 0 2; mkPoint 2 2; mkPoint 2 1] in
  wf this h ∧ getConnectionPath this h 3%nat 5%nat = Some path ∧
  ∃ turns,
    path = pointOf (deref h 3%nat) :: turns ++ [pointOf (deref h 5%nat)] ∧
    (length turns ≤ 2)%nat ∧
    route this h (pointOf (deref h 3%nat)) turns (pointOf (deref h 5%nat)).
Proof.
  intros this h path.
  assert (Hpath : getConnectionPath this h 3%nat 5%nat = Some path) by reflexivity.
  split; [exact detour_wf|]. split; [exact Hpath|].
  exact (connection_path_is_route this h 3%nat 5%nat path detour_wf Hpath).
Defined.

Lemma canConnect_iff_route_witness :
  let this := algorithmOf detour in
  let h := heapOf detour in
  wf this h ∧ inGrid this 3%nat ∧ inGrid this 5%nat ∧
  (canConnect this h (Some 3%nat) (Some 5%nat) = true ↔
   3%nat ≠ 5%nat ∧ samePattern h 3%nat 5%nat ∧
   ∃ turns, (length turns ≤ 2)%nat ∧
            route this h (pointOf (deref h 3%nat)) turns (pointOf (deref h 5%nat))).
Proof.
  intros this h.
  assert (Ha : inGrid this 3%nat) by (exists 1, 0; reflexivity).
  assert (Hb : inGrid this 5%nat) by (exists 1, 2; reflexivity).
  split; [exact detour_wf|]. split; [exact Ha|]. split; [exact Hb|].
  exact (proj1 (canConnect_iff_route this h 3%nat 5%nat detour_wf Ha Hb)).
Defined.

Lemma detour_playable : playable (roundOf (gameOn detour)) (heap (worldOf detour)).
Proof.
  split; [split; [exact detour_wf|reflexivity]|].
  split; [reflexivity|]. eexists. reflexivity.
Defined.

Lemma detour_laidOut : laidOut (roundOf (gameOn detour)).
Proof. split; [reflexivity|]. split; reflexivity. Defined.

Lemma adjacent_cells_connect_witness :
  let this := algorithmOf neighbours in
  let h := heapOf neighbours in
  wf this h ∧ inGrid this 0%nat ∧ inGrid this 1%nat ∧ samePattern h 0%nat 1%nat ∧
  (row (deref h 0%nat) = row (deref h 1%nat) ∧
   Z.abs (col (deref h 0%nat) - col (deref h 1%nat)) = 1) ∧
  canConnect this h (Some 0%nat) (Some 1%nat) = true.
Proof.
  intros this h.
  assert (Hwf : wf this h) by (apply wf_check_sound; reflexivity).
  assert (Ha : inGrid this 0%nat) by (exists 0, 0; reflexivity).
  assert (Hb : inGrid this 1%nat) by (exists 0, 1; reflexivity).
  assert (Hsame : samePattern h 0%nat 1%nat)
    by (eexists _, _; split; [reflexivity|split; reflexivity]).
  assert (Hadj : row (deref h 0%nat) = row (deref h 1%nat) ∧
                 Z.abs (col (deref h 0%nat) - col (deref h 1%nat)) = 1)
    by (split; reflexivity).
  split; [exact Hwf|]. split; [exact Ha|]. split; [exact Hb|].
  split; [exact Hsame|]. split; [exact Hadj|].
  exact (proj1 (adjacent_cells_connect this h 0%nat 1%nat Hwf Ha Hb Hsame
                  (or_introl Hadj))).
Defined.

Lemma tryConnectCells_moves_witness :
  let this := roundOf (gameOn detour) in
  let w := worldOf detour in
  let algorithm := asAlgorithm (LinkGame.game this) in
  playable this (heap w) ∧ inGrid algorithm 3%nat ∧ inGrid algorithm 5%nat ∧
  ∃ this' w',
    LinkGame.tryConnectCells 3%nat 5%nat this w = Returns this' w' ∧
    LinkGame.game this' = LinkGame.game this.
Proof.
  intros this w algorithm.
  assert (Ha : inGrid algorithm 3%nat) by (exists 1, 0; reflexivity).
  assert (Hb : inGrid algorithm 5%nat) by (exists 1, 2; reflexivity).
  split; [exact detour_playable|]. split; [exact Ha|]. split; [exact Hb|].
  destruct (tryConnectCells_moves 3%nat 5%nat this w detour_playable Ha Hb)
    as (this' & w' & Hrun & Hgame & _).
  exists this', w'. split; [exact Hrun|exact Hgame].
Defined.

Lemma detour_move :
  move (asAlgorithm (gameOn detour)) (heapOf detour) 3%nat 5%nat.
Proof.
  split; [exists 1, 0; reflexivity|]. split; [exists 1, 2; reflexivity|].
  split; [split; reflexivity|]. split; [split; reflexivity|]. reflexivity.
Defined.

Lemma tryConnectCells_keeps_pairs_witness :
  let this := roundOf (gameOn detour) in
  let w := worldOf detour in
  let algorithm := asAlgorithm (LinkGame.game this) in
  playable this (heap w) ∧ move algorithm (heap w) 3%nat 5%nat ∧
  ∃ this' w' p,
    LinkGame.tryConnectCells 3%nat 5%nat this w = Returns this' w' ∧
    pattern (deref (heap w) 3%nat) = Some p ∧
    ∀ k, (tilesOf algorithm (heap w') k + (if decide (k = id p) then 2 else 0))%nat
         = tilesOf algorithm (heap w) k.
Proof.
  intros this w algorithm.
  split; [exact detour_playable|]. split; [exact detour_move|].
  destruct (tryConnectCells_keeps_pairs 3%nat 5%nat this w detour_playable detour_move)
    as (this' & w' & p & Hrun & Hp & Hcount & _).
  exists this', w', p. split; [exact Hrun|]. split; [exact Hp|exact Hcount].
Defined.

Lemma getCellAtPosition_on_grid_witness :
  let this := roundOf (gameOn detour) in
  let w := worldOf detour in
  wfGame (LinkGame.game this) (heap w) ∧ laidOut this ∧
  LinkGame.getCellAtPosition (100 # 1) (75 # 1) this w = Returns (Some 5%nat) w ∧
  inGrid (asAlgorithm (LinkGame.game this)) 5%nat ∧
  LinkGame.getCellAtPosition (130 # 1) (75 # 1) this w = Returns None w.
Proof.
  intros this w.
  assert (Hwfg : wfGame (LinkGame.game this) (heap w))
    by (split; [exact detour_wf|reflexivity]).
  split; [exact Hwfg|]. split; [exact detour_laidOut|].
  split; [reflexivity|]. split; [|reflexivity].
  destruct (getCellAtPosition_on_grid (100 # 1) (75 # 1) this w Hwfg detour_laidOut)
    as (cell & Hrun & _ & Hgrid).
  apply Hgrid.
  assert (Hcell : LinkGame.getCellAtPosition (100 # 1) (75 # 1) this w =
                  Returns (Some 5%nat) w) by reflexivity.
  rewrite Hcell in Hrun. injection Hrun as <-. reflexivity.
Defined.

Lemma handleCellClick_plays_witness :
  let this := LinkGame.withSelectedCell (Some 3%nat) (roundOf (gameOn detour)) in
  let w := worldOf detour in
  playable this (heap w) ∧ laidOut this ∧ selectionOk this (heap w) ∧
  ∃ this' w',
    LinkGame.handleCellClick (100 # 1) (75 # 1) this w = Returns this' w' ∧
    playable this' (heap w') ∧ selectionOk this' (heap w').
Proof.
  intros this w.
  assert (Hsel : selectionOk this (heap w)).
  { intros l Hl. injection Hl as <-.
    split; [exists 1, 0; reflexivity|split; reflexivity]. }
  split; [exact detour_playable|]. split; [exact detour_laidOut|].
  split; [exact Hsel|].
  destruct (handleCellClick_plays (100 # 1) (75 # 1) this w
              detour_playable detour_laidOut Hsel)
    as (this' & w' & Hrun & _ & Hplay & Hsel' & _).
  exists this', w'. split; [exact Hrun|]. split; [exact Hplay|exact Hsel'].
Defined.

Lemma checkLevelComplete_exact_witness :
  let this := roundOf (gameOn detour) in
  let w := worldOf detour in
  wfGame (LinkGame.game this) (heap w) ∧
  ∃ complete,
    LinkGame.checkLevelComplete this w = Returns complete w ∧
    (complete = true ↔
     LinkGame.getVisibleCells (LinkGame.game this) (heap w) = []).
Proof.
  intros this w.
  assert (Hwfg : wfGame (LinkGame.game this) (heap w))
    by (split; [exact detour_wf|reflexivity]).
  split; [exact Hwfg|]. exact (checkLevelComplete_exact this w Hwfg).
Defined.

Lemma startedGame_ofTheGame : ofTheGame (roundOf startedGame).
Proof.
  split; [exact newGame_configured|]. split; [simpl; lia|reflexivity].
Defined.

Lemma startedGame_playable : playable (roundOf startedGame) (heap newWorld).
Proof.
  split; [exact newGame_wf|]. split; [reflexivity|]. eexists. reflexivity.
Defined.

Lemma initializeGrid_deals_pairs_witness :
  configured newGame ∧ 1 ≤ LinkGame.currentLevel newGame ≤ 5 ∧ (100 ≤ 100)%nat ∧
  ∃ grid w',
    let this' := LinkGame.withGrid grid newGame in
    LinkGame.initializeGrid validateBySimulation 100 newGame newWorld =
      Returns (LinkGame.withAlgorithm (Some (asAlgorithm this')) this') w' ∧
    wfGame this' (heap w').
Proof.
  assert (Hlevel : 1 ≤ LinkGame.currentLevel newGame ≤ 5) by (simpl; lia).
  split; [exact newGame_configured|]. split; [exact Hlevel|].
  split; [exact (le_n 100)|].
  destruct (initializeGrid_deals_pairs validateBySimulation newGame 100 newWorld
              newGame_configured Hlevel (le_n 100))
    as (grid & w' & Hrun & Hwf & _).
  exists grid, w'. split; [exact Hrun|exact Hwf].
Defined.

Lemma completeLevel_advances_witness :
  let this := roundOf startedGame in
  ofTheGame this ∧ (100 ≤ 100)%nat ∧
  ∃ this' w',
    LinkGame.completeLevel validateBySimulation 100 this newWorld = Returns this' w' ∧
    ofTheGame this' ∧
    LinkGame.score this' =
      LinkGame.score this + LinkGame.currentLevel (LinkGame.game this) * 50.
Proof.
  intros this.
  split; [exact startedGame_ofTheGame|]. split; [exact (le_n 100)|].
  destruct (completeLevel_advances validateBySimulation 100 this newWorld
              startedGame_ofTheGame (le_n 100))
    as (this' & w' & Hrun & Hgame & Hscore & _).
  exists this', w'. split; [exact Hrun|]. split; [exact Hgame|exact Hscore].
Defined.

Lemma update_keeps_playable_witness :
  let this := roundOf startedGame in
  ofTheGame this ∧ playable this (heap newWorld) ∧ (100 ≤ 100)%nat ∧
  ∃ this' w',
    LinkGame.update validateBySimulation 100 (1 # 60) this newWorld = Returns this' w' ∧
    ofTheGame this' ∧ playable this' (heap w').
Proof.
  intros this.
  split; [exact startedGame_ofTheGame|]. split; [exact startedGame_playable|].
  split; [exact (le_n 100)|].
  destruct (update_keeps_playable validateBySimulation 100 (1 # 60) this newWorld
              startedGame_ofTheGame startedGame_playable (le_n 100))
    as (this' & w' & Hrun & Hgame & Hplay & _).
  exists this', w'. split; [exact Hrun|]. split; [exact Hgame|exact Hplay].
Defined.

Lemma fillGridWithPatterns_v1_pairs_witness :
  configured newGame ∧ 1 ≤ LinkGame.currentLevel newGame ≤ 5 ∧
  wfGame newGame (heap newWorld) ∧
  ∃ w',
    LinkGame.V1.fillGridWithPatterns newGame newWorld = Returns () w' ∧
    ∀ n, countVisible newGame (heap w') n =
         if decide (1 ≤ n ≤ 5 * (LinkGame.currentLevel newGame + 1))
         then 2%nat else 0%nat.
Proof.
  assert (Hlevel : 1 ≤ LinkGame.currentLevel newGame ≤ 5) by (simpl; lia).
  split; [exact newGame_configured|]. split; [exact Hlevel|].
  split; [exact newGame_wf|].
  destruct (fillGridWithPatterns_v1_pairs newGame newWorld
              newGame_configured Hlevel newGame_wf)
    as (w' & Hrun & _ & Hcount).
  exists w'. split; [exact Hrun|exact Hcount].
Defined.
